(** * The incremental Telegram ingestion engine, embedded in Rocq

    The development follows [scripts/telegram_scraper.py] (the channel scan
    loop, the download retry loop, the seen-id loader and the run
    coordinator) and the message-id extraction of [scripts/yolo_enrich.py].

    Conventions of the embedding:
    - Python [str] values are [string]s of ASCII characters; the regular
      expression classes [\w] and [\d] and [str.strip] are given on ASCII.
    - Python [int] is [Z]; counters that only grow from 0 are [nat].
    - The file system, the provider and the clock are fields of an explicit
      [World] that every operation threads through.
    - An exception is a value of [Exn]; a call returns [Ret v] or [Raise e]. *)

From Stdlib Require Import ZArith NArith Ascii String.
From stdpp Require Import gmap strings pretty list.

Local Open Scope string_scope.

(** ** Text: character classes, [str.strip], [re.sub], [re.search] *)

Module Text.

Definition code (c : ascii) : nat := nat_of_ascii c.

Definition between (lo hi : nat) (c : ascii) : bool :=
  (lo <=? code c)%nat && (code c <=? hi)%nat.

(** [\d] on ASCII. *)
Definition is_digit (c : ascii) : bool := between 48 57 c.

(** [\w] on ASCII: letters, digits and the underscore. *)
Definition is_word (c : ascii) : bool :=
  is_digit c || between 65 90 c || between 97 122 c || (code c =? 95)%nat.

(** The characters [str.strip()] removes, on ASCII: TAB, LF, VT, FF, CR,
    FS, GS, RS, US and the space. *)
Definition is_space (c : ascii) : bool :=
  between 9 13 c || between 28 32 c.

Fixpoint lstrip (s : string) : string :=
  match s with
  | String c r => if is_space c then lstrip r else s
  | EmptyString => EmptyString
  end.

Fixpoint rstrip (s : string) : string :=
  match s with
  | String c r =>
      match rstrip r with
      | EmptyString => if is_space c then EmptyString else String c EmptyString
      | r' => String c r'
      end
  | EmptyString => EmptyString
  end.

Definition strip (s : string) : string := rstrip (lstrip s).

(** The complement of the class [[^\w\-_\. ]]: the characters
    [sanitize_filename] keeps. *)
Definition kept (c : ascii) : bool :=
  is_word c || (code c =? 45)%nat || (code c =? 95)%nat
  || (code c =? 46)%nat || (code c =? 32)%nat.

(** [re.sub(r"[^\w\-_\. ]+", "_", s)]: every maximal run of characters
    outside the class becomes one underscore.  [in_run] tells whether the
    previous character was already part of such a run. *)
Fixpoint sub_runs (in_run : bool) (s : string) : string :=
  match s with
  | EmptyString => EmptyString
  | String c r =>
      if kept c then String c (sub_runs false r)
      else if in_run then sub_runs true r
      else String "_" (sub_runs true r)
  end.

Fixpoint take_digits (s : string) : string :=
  match s with
  | String c r => if is_digit c then String c (take_digits r) else EmptyString
  | EmptyString => EmptyString
  end.

(** [re.search(r"(\d+)", s)]: the leftmost, longest run of digits. *)
Fixpoint first_digit_run (s : string) : option string :=
  match s with
  | EmptyString => None
  | String c r =>
      if is_digit c then Some (String c (take_digits r)) else first_digit_run r
  end.

Definition digit_value (c : ascii) : Z := Z.of_nat (code c - 48).

(** [int(s)] on a string of decimal digits, read left to right. *)
Fixpoint int_of_digits_from (acc : Z) (s : string) : Z :=
  match s with
  | EmptyString => acc
  | String c r => int_of_digits_from (10 * acc + digit_value c) r
  end.

Definition int_of_digits (s : string) : Z := int_of_digits_from 0 s.

Fixpoint starts_with (p s : string) : bool :=
  match p, s with
  | EmptyString, _ => true
  | String a p', String b s' => if decide (a = b) then starts_with p' s' else false
  | String _ _, EmptyString => false
  end.

Fixpoint contains_char (x : ascii) (s : string) : bool :=
  match s with
  | EmptyString => false
  | String c r => if decide (c = x) then true else contains_char x r
  end.

(** [str(n)] for an integer. *)
Definition str_Z (n : Z) : string := pretty n.
Definition str_nat (n : nat) : string := pretty n.

End Text.

(** ** Paths: the part of [pathlib] the scraper relies on *)

Module PurePath.

(** [s.split("/")]. *)
Fixpoint split_slash (cur : string) (s : string) : list string :=
  match s with
  | EmptyString => [String.rev cur]
  | String c r =>
      if decide (c = "/"%char) then String.rev cur :: split_slash EmptyString r
      else split_slash (String c cur) r
  end.

(** [Path(s).name]: the last component that is neither empty nor ["."]. *)
Definition name (s : string) : string :=
  default EmptyString
    (last (filter (λ p, p ≠ EmptyString ∧ p ≠ ".") (split_slash EmptyString s))).

(** [n.rfind(".")]. *)
Fixpoint rfind_dot (n : string) : option nat :=
  match n with
  | EmptyString => None
  | String c r =>
      match rfind_dot r with
      | Some i => Some (S i)
      | None => if decide (c = "."%char) then Some 0%nat else None
      end
  end.

Fixpoint take_str (k : nat) (s : string) : string :=
  match k, s with
  | S k', String c r => String c (take_str k' r)
  | _, _ => EmptyString
  end.

Fixpoint drop_str (k : nat) (s : string) : string :=
  match k, s with
  | S k', String _ r => drop_str k' r
  | _, _ => s
  end.

(** The index of the dot that starts the suffix: [0 < i < len(name) - 1]. *)
Definition suffix_start (n : string) : option nat :=
  match rfind_dot n with
  | Some i =>
      if ((0 <? i)%nat && (i <? String.length n - 1)%nat)%bool then Some i else None
  | None => None
  end.

(** [Path(s).suffix] and [Path(s).stem]. *)
Definition suffix (s : string) : string :=
  let n := name s in
  match suffix_start n with Some i => drop_str i n | None => EmptyString end.

Definition stem (s : string) : string :=
  let n := name s in
  match suffix_start n with Some i => take_str i n | None => n end.

End PurePath.

(** ** Calendar dates *)

Record date := Date { year : N; month : N; day : N }.

#[global] Instance date_eq_dec : EqDecision date.
Proof. solve_decision. Defined.

(** [d1 < d2] on [datetime.date]: lexicographic on year, month, day. *)
Definition date_ltb (d1 d2 : date) : bool :=
  if (year d1 <? year d2)%N then true
  else if (year d2 <? year d1)%N then false
  else if (month d1 <? month d2)%N then true
  else if (month d2 <? month d1)%N then false
  else (day d1 <? day d2)%N.

(** [d1 >= d2]. *)
Definition date_geb (d1 d2 : date) : bool := negb (date_ltb d1 d2).

Definition zero_pad (width : nat) (s : string) : string :=
  Nat.iter (width - String.length s) (String "0"%char) s.

(** [date.isoformat()]: ["%04d-%02d-%02d"]. *)
Definition isoformat (d : date) : string :=
  zero_pad 4 (pretty (year d)) +:+ "-" +:+ zero_pad 2 (pretty (month d))
  +:+ "-" +:+ zero_pad 2 (pretty (day d)).

(** [sanitize_filename]. *)
Definition sanitize_filename (name : string) : string :=
  Text.sub_runs false (Text.strip name).

(** ** Data model *)

(** What [msg.media] can be, as far as the scraper looks at it:
    [getattr(msg, "photo", None)] is truthy for [Photo],
    [getattr(msg, "document", None)] for [Document]. *)
Inductive Media :=
  | Photo
  | Document (mime_type : option string) (file_name : option string)
  | OtherMedia (kind : string).

(** A Telethon [Message].  Of the timestamp only the UTC calendar day is
    kept; the time of day enters no decision of the scraper. *)
Record Message := {
  m_id : Z;
  m_date : option date;
  m_text : string;
  m_views : option Z;
  m_forwards : option Z;
  m_media : option Media;
}.

(** The dictionary [message_to_serializable] builds.  The fields that are
    copied through and never read back ([peer_id], [sender_id],
    [reply_to_msg_id], [is_forward], [_raw_repr]) are left out; the
    dictionary built when serialization fails carries the same ["id"]. *)
Record Serial := {
  s_id : Z;
  s_date : option date;
  s_text : string;
  s_views : option Z;
  s_forwards : option Z;
  s_media : option Media;
}.

Definition message_to_serializable (m : Message) : Serial :=
  {| s_id := m_id m; s_date := m_date m; s_text := m_text m;
     s_views := m_views m; s_forwards := m_forwards m; s_media := m_media m |}.

(** The value found under ["id"] in a stored JSON object. *)
Inductive JId := JInt (z : Z) | JBool (b : bool) | JNotInt.

(** One line of a message log: text [json.loads] rejects (or JSON that is
    not an object), a JSON object written by something else, or a record
    written by the scan loop. *)
Inductive LogLine :=
  | Unparsable
  | JObject (i : JId)
  | Saved (s : Serial).

(** [obj["id"]] when [isinstance(obj.get("id"), int)]; in Python [bool] is a
    subclass of [int] and [True == 1]. *)
Definition line_id (l : LogLine) : option Z :=
  match l with
  | Unparsable => None
  | JObject (JInt z) => Some z
  | JObject (JBool b) => Some (if b then 1 else 0)%Z
  | JObject JNotInt => None
  | Saved s => Some (s_id s)
  end.

Inductive Exn :=
  | FloodWaitError (seconds : option Z)
  | OtherError (cause : string).

Inductive Result (A : Type) :=
  | Ret (a : A)
  | Raise (e : Exn).
Arguments Ret {A} a.
Arguments Raise {A} e.

(** What the provider does at one step of [client.iter_messages]. *)
Inductive FeedEvent :=
  | Yield (m : option Message)
  | Fail (e : Exn).

(** What one call of [client.download_media] does: it returns (a path when
    [saved], [None] otherwise) or raises. *)
Inductive DlOutcome :=
  | DlResult (saved : bool)
  | DlFlood (seconds : option Z)
  | DlError (cause : string).

(** An [asyncio.sleep]: whole seconds, or the 0.3 s pause after every 50
    saved messages. *)
Inductive Delay := Seconds (n : Z) | Courtesy.

Definition delay_ms (d : Delay) : Z :=
  match d with
  | Seconds n => Z.max 0 (1000 * n)
  | Courtesy => 300
  end.

Record Entry := { processed : nat; status : string }.

Record Manifest := {
  run_id : Z;
  mf_channels : list string;
  mf_limit : option nat;
  mf_incremental : bool;
  mf_since : option date;
  mf_until : option date;
  started_at : Z;
  finished_at : option Z;
  results : gmap string Entry;
}.

(** The world a run acts on.
    - [msg_files]: [MSG_DIR/<dir>/<name>.json], keyed by [(dir, name)]; a
      log is the list of its lines.  The logs are taken to be text of whole
      lines in UTF-8, every line ended by a newline, which is what the
      writes of the scan loop produce.
    - [img_files]: the paths that exist under [IMG_DIR], as [(dir, name)].
    - [manifest_files]: [MANIFEST_DIR/<run_id>.json].
    - [feeds]: per channel, what each successive [iter_messages] call will
      produce.
    - [downloads]: what the successive [download_media] calls will do; once
      the script is used up every further call raises a generic error.
    - [today]: [date.today()]; [now]: the clock in milliseconds;
      [slept]: the pauses taken so far, oldest first. *)
Record World := {
  msg_files : gmap (string * string) (list LogLine);
  img_files : gset (string * string);
  manifest_files : gmap Z Manifest;
  feeds : gmap string (list (list FeedEvent));
  downloads : list DlOutcome;
  today : date;
  now : Z;
  slept : list Delay;
}.

Definition with_msg_files (f : gmap (string * string) (list LogLine)) (w : World) : World :=
  {| msg_files := f; img_files := img_files w; manifest_files := manifest_files w;
     feeds := feeds w; downloads := downloads w; today := today w; now := now w;
     slept := slept w |}.

Definition with_img_files (f : gset (string * string)) (w : World) : World :=
  {| msg_files := msg_files w; img_files := f; manifest_files := manifest_files w;
     feeds := feeds w; downloads := downloads w; today := today w; now := now w;
     slept := slept w |}.

Definition with_manifest_files (f : gmap Z Manifest) (w : World) : World :=
  {| msg_files := msg_files w; img_files := img_files w; manifest_files := f;
     feeds := feeds w; downloads := downloads w; today := today w; now := now w;
     slept := slept w |}.

Definition with_feeds (f : gmap string (list (list FeedEvent))) (w : World) : World :=
  {| msg_files := msg_files w; img_files := img_files w;
     manifest_files := manifest_files w; feeds := f; downloads := downloads w;
     today := today w; now := now w; slept := slept w |}.

Definition with_downloads (d : list DlOutcome) (w : World) : World :=
  {| msg_files := msg_files w; img_files := img_files w;
     manifest_files := manifest_files w; feeds := feeds w; downloads := d;
     today := today w; now := now w; slept := slept w |}.

(** [await asyncio.sleep(d)]. *)
Definition sleep (d : Delay) (w : World) : World :=
  {| msg_files := msg_files w; img_files := img_files w;
     manifest_files := manifest_files w; feeds := feeds w;
     downloads := downloads w; today := today w; now := (now w + delay_ms d)%Z;
     slept := slept w ++ [d] |}.

(** [int(getattr(fw, "seconds", 60))]. *)
Definition flood_seconds (seconds : option Z) : Z := default 60%Z seconds.

(** ** [download_with_retries] *)

(** The next [client.download_media] call: the head of the script, or a
    generic failure once the script is used up (the provider has become
    unreachable), so that every retry loop comes to an end. *)
Definition next_download (w : World) : DlOutcome * World :=
  match downloads w with
  | [] => (DlError "unreachable", w)
  | o :: rest => (o, with_downloads rest w)
  end.

(** The [while attempt < max_retries] loop.  [fuel] bounds the number of
    iterations; [download_with_retries] supplies enough of it. *)
Fixpoint download_loop (fuel max_retries attempt : nat) (dest : string * string)
    (w : World) : World * option (string * string) :=
  match fuel with
  | O => (w, None)
  | S fuel' =>
      if (attempt <? max_retries)%nat then
        match next_download w with
        | (DlResult true, w1) => (with_img_files ({[dest]} ∪ img_files w1) w1, Some dest)
        | (DlResult false, w1) => (w1, None)
        | (DlFlood s, w1) =>
            let wait := flood_seconds s in
            download_loop fuel' max_retries attempt dest (sleep (Seconds (wait + 1)) w1)
        | (DlError _, w1) =>
            let attempt := S attempt in
            let wait := (2 ^ Z.of_nat attempt)%Z in
            download_loop fuel' max_retries attempt dest (sleep (Seconds wait) w1)
        end
      else (w, None)
  end.

Definition download_with_retries (w : World) (dest : string * string)
    (max_retries : nat) : World * option (string * string) :=
  download_loop (length (downloads w) + max_retries) max_retries 0 dest w.

Definition default_max_retries : nat := 4.

(** ** [load_seen_ids] *)

(** The ids one log file contributes: every line that parses to an object
    with an integer ["id"]. *)
Definition file_ids (lines : list LogLine) : list Z := omap line_id lines.

(** Every directory of [MSG_DIR] is visited and its [<sanitized>.json] read,
    when there is one.  (A manifest file is indented JSON: no single line of
    it is an object, so [_manifests] contributes nothing.)  The logs decode,
    so every line is reached and the outer [except] never applies. *)
Definition load_seen_ids (w : World) (channel : string) : gset Z :=
  let sanitized := sanitize_filename channel in
  list_to_set
    (map_to_list (msg_files w) ≫= λ kv,
       if decide (kv.1.2 = sanitized) then file_ids kv.2 else []).

(** ** [scrape_channel] *)

(** [client.iter_messages(channel, limit=limit)]: the provider hands out the
    channel's messages newest first and stops after [limit] of them when a
    limit is given; a failure ends the iteration. *)
Fixpoint cap_feed (limit : nat) (events : list FeedEvent) : list FeedEvent :=
  match limit, events with
  | O, _ => []
  | _, [] => []
  | S k, Yield m :: rest => Yield m :: cap_feed k rest
  | S _, Fail e :: _ => [Fail e]
  end.

Definition limited (limit : option nat) (events : list FeedEvent) : list FeedEvent :=
  match limit with
  | Some n => cap_feed n events
  | None => events
  end.

Definition iter_messages (w : World) (channel : string) (limit : option nat)
    : list FeedEvent * World :=
  match feeds w !! channel with
  | Some (session :: later) =>
      (limited limit session, with_feeds (<[channel := later]> (feeds w)) w)
  | _ => ([], w)
  end.

(** The image test of the scan loop. *)
Definition is_image (msg : Message) : bool :=
  match m_media msg with
  | Some Photo => true
  | Some (Document mime _) => Text.starts_with "image" (default "" mime)
  | _ => false
  end.

(** [getattr(getattr(msg, "document", None), "file_name", None)]. *)
Definition orig_name (msg : Message) : option string :=
  match m_media msg with
  | Some (Document _ file_name) => file_name
  | _ => None
  end.

Definition extension (msg : Message) : string :=
  match orig_name msg with
  | Some orig =>
      if negb (bool_decide (orig = "")) && Text.contains_char "."%char orig
      then PurePath.suffix orig else ".jpg"
  | None => ".jpg"
  end.

(** [f"{sanitized}_{msg.id}_{date_str}{ext}"]. *)
Definition image_name (sanitized : string) (msg_id : Z) (date_str ext : string) : string :=
  sanitized +:+ "_" +:+ Text.str_Z msg_id +:+ "_" +:+ date_str +:+ ext.

(** [f"{Path(fname).stem}_{i}{ext}"]. *)
Definition numbered_name (fname : string) (i : nat) (ext : string) : string :=
  PurePath.stem fname +:+ "_" +:+ Text.str_nat i +:+ ext.

(** [while dest.exists(): dest = ...; i += 1], started at [dest] and [i]. *)
Fixpoint free_dest_loop (fuel : nat) (existing : gset (string * string))
    (dir fname ext : string) (i : nat) (dest : string * string)
    : option (string * string) :=
  match fuel with
  | O => None
  | S fuel' =>
      if decide (dest ∈ existing)
      then free_dest_loop fuel' existing dir fname ext (S i) (dir, numbered_name fname i ext)
      else Some dest
  end.

(** The destination the scan loop settles on.  The loop tries the plain name
    and then the numbered ones; one more try than there are files is always
    enough ([free_dest_loop_total]). *)
Definition free_dest (existing : gset (string * string)) (dir fname ext : string)
    : option (string * string) :=
  free_dest_loop (S (S (size existing))) existing dir fname ext 1 (dir, fname).

(** [open(file_path, "a")] followed by one [write].  The log is new or ends
    with a newline, so the record becomes a line of its own. *)
Definition append_line (key : string * string) (line : LogLine)
    (files : gmap (string * string) (list LogLine)) : gmap (string * string) (list LogLine) :=
  <[key := (default [] (files !! key) ++ [line])%list]> files.

(** The media part of one iteration: pick the destination and download. *)
Definition fetch_image (sanitized : string) (msg : Message) (date_str : string)
    (w : World) : World * option (string * string) :=
  let ext := extension msg in
  let fname := image_name sanitized (m_id msg) date_str ext in
  match free_dest (img_files w) sanitized fname ext with
  | Some dest => download_with_retries w dest default_max_retries
  | None => (w, None)
  end.

(** [msg.date.date() if msg.date else date.today()]. *)
Definition message_day (w : World) (msg : Message) : date :=
  default (today w) (m_date msg).

Definition before_since (since : option date) (d : date) : bool :=
  match since with Some s => date_ltb d s | None => false end.

Definition at_or_after_until (until : option date) (d : date) : bool :=
  match until with Some u => date_geb d u | None => false end.

(** The body of [async for msg in client.iter_messages(...)], over the events
    the provider produces.  Returns the world and [count], or the exception
    that ended the iteration. *)
Fixpoint scrape_loop (sanitized : string) (seen_ids : gset Z)
    (since until : option date) (events : list FeedEvent) (count : nat)
    (w : World) : World * Result nat :=
  match events with
  | [] => (w, Ret count)
  | Fail e :: _ => (w, Raise e)
  | Yield None :: rest => scrape_loop sanitized seen_ids since until rest count w
  | Yield (Some msg) :: rest =>
      if decide (m_id msg ∈ seen_ids)
      then scrape_loop sanitized seen_ids since until rest count w
      else
        let msg_date := message_day w msg in
        if before_since since msg_date then (w, Ret count)
        else if at_or_after_until until msg_date
        then scrape_loop sanitized seen_ids since until rest count w
        else
          let date_str := isoformat msg_date in
          let serial := message_to_serializable msg in
          let w1 := with_msg_files
                      (append_line (date_str, sanitized) (Saved serial) (msg_files w)) w in
          let w2 := if is_image msg then (fetch_image sanitized msg date_str w1).1 else w1 in
          let count := S count in
          let w3 := if (count mod 50 =? 0)%nat then sleep Courtesy w2 else w2 in
          scrape_loop sanitized seen_ids since until rest count w3
  end.

Definition scrape_channel (w : World) (channel : string) (limit : option nat)
    (incremental : bool) (since until : option date) : World * Result nat :=
  let sanitized := sanitize_filename channel in
  let seen_ids := if incremental then load_seen_ids w channel else ∅ in
  let '(events, w0) := iter_messages w channel limit in
  scrape_loop sanitized seen_ids since until events 0 w0.

(** ** [main] *)

Record Args := {
  channels_file : option (list string);
  channels : list string;
  limit : option nat;
  incremental : bool;
  since : option date;
  until : option date;
}.

(** The lines of the channels file that name a channel. *)
Definition channel_lines (lines : list string) : list string :=
  filter (λ ln, ln ≠ "" ∧ Text.starts_with "#" ln = false) (Text.strip <$> lines).

(** [list(dict.fromkeys(l))]: the first occurrence of each name, in order. *)
Fixpoint fromkeys (known : list string) (l : list string) : list string :=
  match l with
  | [] => []
  | x :: r => if decide (x ∈ known) then fromkeys known r else x :: fromkeys (x :: known) r
  end.

Definition requested_channels (args : Args) : list string :=
  fromkeys [] (default [] (channel_lines <$> channels_file args) ++ channels args)%list.

Definition set_result (ch : string) (e : Entry) (m : Manifest) : Manifest :=
  {| run_id := run_id m; mf_channels := mf_channels m; mf_limit := mf_limit m;
     mf_incremental := mf_incremental m; mf_since := mf_since m;
     mf_until := mf_until m; started_at := started_at m;
     finished_at := finished_at m; results := <[ch := e]> (results m) |}.

Definition set_finished (t : Z) (m : Manifest) : Manifest :=
  {| run_id := run_id m; mf_channels := mf_channels m; mf_limit := mf_limit m;
     mf_incremental := mf_incremental m; mf_since := mf_since m;
     mf_until := mf_until m; started_at := started_at m;
     finished_at := Some t; results := results m |}.

(** One pass of [for ch in channels], with its [try] and the two handlers. *)
Definition scrape_one (args : Args) (ch : string) (w : World) (m : Manifest)
    : World * Result Manifest :=
  match scrape_channel w ch (limit args) (incremental args) (since args) (until args) with
  | (w1, Ret n) => (w1, Ret (set_result ch {| processed := n; status := "ok" |} m))
  | (w1, Raise (FloodWaitError s)) =>
      let wait := (flood_seconds s + 1)%Z in
      let w2 := sleep (Seconds wait) w1 in
      match scrape_channel w2 ch (limit args) (incremental args) (since args) (until args) with
      | (w3, Ret n) =>
          (w3, Ret (set_result ch {| processed := n; status := "ok_after_wait" |} m))
      | (w3, Raise e) => (w3, Raise e)
      end
  | (w1, Raise (OtherError cause)) =>
      (w1, Ret (set_result ch {| processed := 0; status := "error:" +:+ cause |} m))
  end.

Fixpoint scrape_all (args : Args) (chs : list string) (w : World) (m : Manifest)
    : World * Result Manifest :=
  match chs with
  | [] => (w, Ret m)
  | ch :: rest =>
      match scrape_one args ch w m with
      | (w1, Ret m1) => scrape_all args rest w1 m1
      | (w1, Raise e) => (w1, Raise e)
      end
  end.

(** How [main] ends. *)
Inductive Outcome :=
  | Exited (code : Z)
  | NoChannels
  | Completed
  | Aborted (e : Exn).

(** [main].  [api_id] and [api_hash] are the two settings read from the
    environment; the [--since]/[--until] texts arrive parsed.  The model
    follows the run from the credentials test through the loop over the
    channels to the manifest; parsing the dates, [client.start()], reading
    the channels file and writing the manifest are taken to succeed. *)
Definition main (api_id : Z) (api_hash : string) (args : Args) (w : World)
    : World * Outcome :=
  if bool_decide (api_id = 0%Z) || bool_decide (api_hash = "") then (w, Exited 1)
  else
    let chs := requested_channels args in
    match chs with
    | [] => (w, NoChannels)
    | _ =>
        let manifest :=
          {| run_id := (now w / 1000)%Z; mf_channels := chs; mf_limit := limit args;
             mf_incremental := incremental args; mf_since := since args;
             mf_until := until args; started_at := now w; finished_at := None;
             results := ∅ |} in
        match scrape_all args chs w manifest with
        | (w1, Ret m) =>
            let m := set_finished (now w1) m in
            (with_manifest_files (<[run_id m := m]> (manifest_files w1)) w1, Completed)
        | (w1, Raise e) => (w1, Aborted e)
        end
    end.

(** ** The id extraction of [yolo_enrich.py] *)

(** [m = re.search(r"(\d+)", img_path.stem)] and
    [int(m.group(1)) if m else None]. *)
Definition extract_message_id (img_path : string) : option Z :=
  Text.int_of_digits <$> Text.first_digit_run (PurePath.stem img_path).

(** ** Vocabulary of the statements *)

(** A [download_media] outcome that makes the retry loop go round again. *)
Definition is_failure (o : DlOutcome) : bool :=
  match o with DlResult _ => false | _ => true end.

Definition is_generic (o : DlOutcome) : bool :=
  match o with DlError _ => true | _ => false end.

(** The number of generic failures in a script. *)
Definition generic_failures (script : list DlOutcome) : nat :=
  length (filter (λ o, is_generic o = true) script).

(** The pauses a script of failures causes, starting from [attempt]. *)
Fixpoint waits (attempt : nat) (script : list DlOutcome) : list Delay :=
  match script with
  | DlFlood s :: r => Seconds (flood_seconds s + 1) :: waits attempt r
  | DlError _ :: r => Seconds (2 ^ Z.of_nat (S attempt)) :: waits (S attempt) r
  | _ => []
  end.

Definition retry_world (script : list DlOutcome) : World :=
  {| msg_files := ∅; img_files := ∅; manifest_files := ∅; feeds := ∅;
     downloads := script; today := Date 2025 6 15; now := 0; slept := [] |}.

(** The name the loop tries in its [k]-th round (the plain one first). *)
Definition candidate (dir fname ext : string) (k : nat) : string * string :=
  match k with
  | O => (dir, fname)
  | S _ => (dir, numbered_name fname k ext)
  end.


(** The lines of a log file; a file that does not exist has none. *)
Definition lines_of (files : gmap (string * string) (list LogLine))
    (key : string * string) : list LogLine :=
  default [] (files !! key).

(** The log a message goes to: the directory of its day, the file of its
    channel. *)
Definition partition_of (today : date) (sanitized : string) (msg : Message)
    : string * string :=
  (isoformat (default today (m_date msg)), sanitized).

Definition save (sanitized : string) (today : date)
    (files : gmap (string * string) (list LogLine)) (msg : Message)
    : gmap (string * string) (list LogLine) :=
  append_line (partition_of today sanitized msg) (Saved (message_to_serializable msg)) files.

(** The messages a scan over [events] writes, in the order it writes them. *)
Fixpoint persisted (seen : gset Z) (since until : option date) (today : date)
    (events : list FeedEvent) : list Message :=
  match events with
  | [] => []
  | Fail _ :: _ => []
  | Yield None :: rest => persisted seen since until today rest
  | Yield (Some msg) :: rest =>
      if decide (m_id msg ∈ seen) then persisted seen since until today rest
      else if before_since since (default today (m_date msg)) then []
      else if at_or_after_until until (default today (m_date msg))
      then persisted seen since until today rest
      else msg :: persisted seen since until today rest
  end.

(** The scan gets past all of [events]: no failure, and no message that
    triggers the [since] exit. *)
Fixpoint runs_through (seen : gset Z) (since : option date) (today : date)
    (events : list FeedEvent) : bool :=
  match events with
  | [] => true
  | Fail _ :: _ => false
  | Yield None :: rest => runs_through seen since today rest
  | Yield (Some msg) :: rest =>
      if decide (m_id msg ∈ seen) then runs_through seen since today rest
      else if before_since since (default today (m_date msg)) then false
      else runs_through seen since today rest
  end.

(** The scan skips [ev] because its id is in the Dedup Index. *)
Definition dedup_skip (seen : gset Z) (ev : FeedEvent) : bool :=
  match ev with
  | Yield (Some msg) => bool_decide (m_id msg ∈ seen)
  | _ => false
  end.

(** The messages among [events] that the Dedup Index makes the scan skip. *)
Definition dedup_skipped (seen : gset Z) (events : list FeedEvent) : list FeedEvent :=
  filter (λ ev, dedup_skip seen ev = true) events.

(** A message with nothing but an id and a day. *)
Definition plain (i : Z) (d : option date) : Message :=
  {| m_id := i; m_date := d; m_text := ""; m_views := None; m_forwards := None;
     m_media := None |}.

Definition photo (i : Z) (d : option date) : Message :=
  {| m_id := i; m_date := d; m_text := ""; m_views := None; m_forwards := None;
     m_media := Some Photo |}.

(** A world with the given logs, one channel with its sessions, and a
    download script. *)
Definition world_of (files : gmap (string * string) (list LogLine)) (channel : string)
    (sessions : list (list FeedEvent)) (script : list DlOutcome) : World :=
  {| msg_files := files; img_files := ∅; manifest_files := ∅;
     feeds := {[channel := sessions]}; downloads := script;
     today := Date 2025 6 15; now := 0; slept := [] |}.

(** The world after one message has been saved: its line appended, its image
    fetched when it has one, the courtesy pause when due. *)
Definition saved_world (sanitized : string) (msg : Message) (count : nat) (w : World)
    : World :=
  let date_str := isoformat (message_day w msg) in
  let w1 := with_msg_files
              (append_line (date_str, sanitized) (Saved (message_to_serializable msg))
                 (msg_files w)) w in
  let w2 := if is_image msg then (fetch_image sanitized msg date_str w1).1 else w1 in
  if (S count mod 50 =? 0)%nat then sleep Courtesy w2 else w2.


(** Scenario B: dates 06-10, 06-05, 05-20, 06-01 in feed order. *)
Definition feed_B : list FeedEvent :=
  [Yield (Some (plain 4 (Some (Date 2025 6 10))));
   Yield (Some (plain 3 (Some (Date 2025 6 5))));
   Yield (Some (plain 2 (Some (Date 2025 5 20))));
   Yield (Some (plain 1 (Some (Date 2025 6 1))))].

Definition world_B : World := world_of ∅ "ch1" [feed_B] [].

(** Scenario B with the message dated 05-20 already in the log. *)
Definition world_B_seen : World :=
  world_of
    {[ ("2025-05-20", "ch1")
       := [Saved (message_to_serializable (plain 2 (Some (Date 2025 5 20))))] ]}
    "ch1" [feed_B] [].

(** Scenario A: ids 1, 2, 3 are in the log of ["news_x"]; the feed returns
    5, 4, 3, 2, 1. *)
Definition log_A : gmap (string * string) (list LogLine) :=
  {[ ("2025-05-30", "news_x") :=
       [Saved (message_to_serializable (plain 3 (Some (Date 2025 5 30))));
        Saved (message_to_serializable (plain 2 (Some (Date 2025 5 30))));
        Saved (message_to_serializable (plain 1 (Some (Date 2025 5 30))))] ]}.

Definition feed_A : list FeedEvent :=
  [Yield (Some (plain 5 (Some (Date 2025 6 2))));
   Yield (Some (plain 4 (Some (Date 2025 6 2))));
   Yield (Some (plain 3 (Some (Date 2025 5 30))));
   Yield (Some (plain 2 (Some (Date 2025 5 30))));
   Yield (Some (plain 1 (Some (Date 2025 5 30))))].

Definition world_A : World := world_of log_A "news_x" [feed_A] [].

(** Scenario A with the provider ready to hand out the same feed twice. *)
Definition world_A_twice : World := world_of log_A "news_x" [feed_A; feed_A] [].

(** A capped rerun: ids 5 and 4 are in the log, the feed returns 5, 4, 3, 2,
    1. *)
Definition log_cap : gmap (string * string) (list LogLine) :=
  {[ ("2025-06-02", "news_x") :=
       [Saved (message_to_serializable (plain 5 (Some (Date 2025 6 2))));
        Saved (message_to_serializable (plain 4 (Some (Date 2025 6 2))))] ]}.

Definition world_cap : World := world_of log_cap "news_x" [feed_A] [].

Definition is_yield (ev : FeedEvent) : bool :=
  match ev with Yield _ => true | Fail _ => false end.


(** A run over one channel whose feed fails after two messages. *)
Definition feed_broken : list FeedEvent :=
  [Yield (Some (plain 12 (Some (Date 2025 6 3))));
   Yield (Some (plain 11 (Some (Date 2025 6 3))));
   Fail (OtherError "connection reset")].

Definition args_for (chs : list string) : Args :=
  {| channels_file := None; channels := chs; limit := None; incremental := false;
     since := None; until := None |}.

(** A channel whose scan is rate-limited, and rate-limited again when it is
    retried. *)
Definition world_flooded : World :=
  world_of ∅ "news_x"
    [[Fail (FloodWaitError (Some 5%Z))]; [Fail (FloodWaitError (Some 5%Z))]] [].

(** The channel of the script's own usage line, with one photo. *)
Definition world_digits : World :=
  world_of ∅ "CheMed123" [[Yield (Some (photo 42 (Some (Date 2025 6 1))))]]
    [DlResult true].

(** Every character of [s] passes the test [p]. *)
Fixpoint all_chars (p : ascii → bool) (s : string) : bool :=
  match s with
  | EmptyString => true
  | String c r => p c && all_chars p r
  end.

Definition not_slash (c : ascii) : bool := negb (bool_decide (c = "/"%char)).
Definition not_dot (c : ascii) : bool := negb (bool_decide (c = "."%char)).
Definition not_digit (c : ascii) : bool := negb (Text.is_digit c).

(** ** Further vocabulary *)

(** How a scan over [events] ends: with the exception of the first failure
    it reaches, or by returning ([None]). *)
Fixpoint scan_end (seen : gset Z) (since : option date) (today : date)
    (events : list FeedEvent) : option Exn :=
  match events with
  | [] => None
  | Fail e :: _ => Some e
  | Yield None :: rest => scan_end seen since today rest
  | Yield (Some msg) :: rest =>
      if decide (m_id msg ∈ seen) then scan_end seen since today rest
      else if before_since since (default today (m_date msg)) then None
      else scan_end seen since today rest
  end.

(** The day a message is filed under lies inside the [since]/[until]
    window. *)
Definition in_window (since until : option date) (today : date) (msg : Message) : Prop :=
  before_since since (default today (m_date msg)) = false
  ∧ at_or_after_until until (default today (m_date msg)) = false.

(** The event is not a message with an image. *)
Definition no_image (ev : FeedEvent) : bool :=
  match ev with
  | Yield (Some msg) => negb (is_image msg)
  | _ => true
  end.

(** The id a log line adds to the Dedup Index. *)
Definition line_ids (line : LogLine) : gset Z :=
  match line_id line with
  | Some z => {[z]}
  | None => ∅
  end.

#[global] Instance Delay_eq_dec : EqDecision Delay.
Proof. solve_decision. Defined.

#[global] Instance DlOutcome_eq_dec : EqDecision DlOutcome.
Proof. solve_decision. Defined.

(** The number of 0.3 s pauses among the pauses taken. *)
Definition courtesy_pauses (pauses : list Delay) : nat :=
  length (filter (λ d, d = Courtesy) pauses).

(** A feed of [n] undated messages with ids [n], ..., [1]. *)
Definition feed_of (n : nat) : list FeedEvent :=
  (λ i, Yield (Some (plain (Z.of_nat i) None))) <$> reverse (seq 1 n).

(** The provider signals a rate limit at this step of the feed. *)
Definition is_flood (ev : FeedEvent) : bool :=
  match ev with
  | Fail (FloodWaitError _) => true
  | _ => false
  end.

Definition calm (session : list FeedEvent) : bool :=
  forallb (λ ev, negb (is_flood ev)) session.

(** No feed of the world ever signals a rate limit. *)
Definition flood_free (w : World) : Prop :=
  ∀ ch sessions, feeds w !! ch = Some sessions → Forall (λ s, calm s = true) sessions.

(** The three forms a manifest entry takes when the scan of its source was
    not rate-limited. *)
Definition plain_entry (e : Entry) : Prop :=
  status e = "ok" ∨ ∃ cause, status e = "error:" +:+ cause ∧ processed e = 0%nat.

(** Scenario D: the feed of the first source breaks, the second is read to
    its end. *)
Definition world_D : World :=
  {| msg_files := ∅; img_files := ∅; manifest_files := ∅;
     feeds := {[ "first" := [feed_broken]; "second" := [feed_B] ]};
     downloads := []; today := Date 2025 6 15; now := 0; slept := [] |}.

(** A feed that is broken off by a rate limit after two messages and served
    again from the start. *)
Definition world_retry : World :=
  world_of ∅ "ch1"
    [[Yield (Some (plain 4 (Some (Date 2025 6 10))));
      Yield (Some (plain 3 (Some (Date 2025 6 5))));
      Fail (FloodWaitError (Some 5%Z))];
     [Yield (Some (plain 4 (Some (Date 2025 6 10))));
      Yield (Some (plain 3 (Some (Date 2025 6 5))));
      Yield (Some (plain 1 (Some (Date 2025 6 1))))]] [].

Definition manifest_of (chs : list string) : Manifest :=
  {| run_id := 0; mf_channels := chs; mf_limit := None; mf_incremental := false;
     mf_since := None; mf_until := None; started_at := 0; finished_at := None;
     results := ∅ |}.

(** The character lies in the ASCII range, where the classes of [Text] are
    those of Python. *)
Definition is_ascii (c : ascii) : bool := (Text.code c <? 128)%nat.

(** The logs are the scraper's own work: nothing, or logs to which a
    completed write of the scan loop has appended one more record. *)
Inductive scraper_written : gmap (string * string) (list LogLine) → Prop :=
  | written_nothing : scraper_written ∅
  | written_record sanitized td files msg :
      scraper_written files → scraper_written (save sanitized td files msg).

(** A channel whose first scan is rate-limited at once and whose second scan
    breaks after two messages. *)
Definition world_retry_broken : World :=
  world_of ∅ "news_x" [[Fail (FloodWaitError (Some 75%Z))]; feed_broken] [].

(** A feed of two photos. *)
Definition feed_photos : list FeedEvent :=
  [Yield (Some (photo 8 (Some (Date 2025 6 4))));
   Yield (Some (photo 7 (Some (Date 2025 6 4))))].

(** ** [yolo_enrich.py]: the enrichment run *)

(** A finite floating-point number that is only carried along, as its 64
    bits. *)
Inductive Float := Float64 (bits : Z).

(** One detection, as [run_yolo_on_image] builds it. *)
Record Detection := {
  class_id : Z;
  confidence : Float;
  xyxy : list Float;
  class_name : string;
}.

(** An entry of a channel directory as [channel_dir.glob("*")] finds it:
    [img_exists] is [Path.exists()] (false for a dangling link), [img_size]
    is [st_size], [img_readable] says that [cv2.imread] returns an image
    (not [None], no exception), and [img_yolo] is what [model.predict]
    finds, [None] when it raises. *)
Record ImageFile := {
  img_name : string;
  img_exists : bool;
  img_size : Z;
  img_readable : bool;
  img_yolo : option (list Detection);
}.

(** An entry of [IMG_DIR]: a channel directory with its entries, or
    something that is not a directory. *)
Inductive DirEntry :=
  | NotADir (name : string)
  | ChannelDir (name : string) (files : list ImageFile).

Definition is_valid_image (f : ImageFile) : bool :=
  if negb (img_exists f) then false
  else if (img_size f <? 500)%Z then false
  else img_readable f.

(** [run_yolo_on_image]: the detections, or [[]] when the model raises. *)
Definition run_yolo_on_image (f : ImageFile) : list Detection :=
  match img_yolo f with
  | Some detections => detections
  | None => []
  end.

(** A record of [all_records], which is also a row of
    [raw.image_detections] (the serial [id] column, which nothing reads, is
    left out). *)
Record Detected := {
  d_channel : string;
  d_message_id : option Z;
  d_image_path : string;
  d_detection : list Detection;
}.

(** [str(img_path)] for an entry of a channel directory under [img_dir]. *)
Definition image_path (img_dir channel name : string) : string :=
  img_dir +:+ "/" +:+ channel +:+ "/" +:+ name.

(** The inner loop of [main] over one channel directory. *)
Fixpoint channel_records (img_dir channel : string) (files : list ImageFile)
    : list Detected :=
  match files with
  | [] => []
  | f :: rest =>
      if negb (is_valid_image f) then channel_records img_dir channel rest
      else
        match run_yolo_on_image f with
        | [] => channel_records img_dir channel rest
        | detections =>
            {| d_channel := channel;
               d_message_id := extract_message_id (img_name f);
               d_image_path := image_path img_dir channel (img_name f);
               d_detection := detections |}
            :: channel_records img_dir channel rest
        end
  end.

(** The outer loop: [all_records]. *)
Fixpoint all_records (img_dir : string) (entries : list DirEntry) : list Detected :=
  match entries with
  | [] => []
  | NotADir _ :: rest => all_records img_dir rest
  | ChannelDir name files :: rest =>
      (channel_records img_dir name files ++ all_records img_dir rest)%list
  end.

(** The range of the [INT] column [message_id]. *)
Definition int4 (z : Z) : bool := (-2147483648 <=? z)%Z && (z <=? 2147483647)%Z.

(** Two rows collide on the unique index
    [(channel, message_id, image_path)]; a [NULL] message id collides with
    nothing. *)
Definition same_key (a b : Detected) : bool :=
  bool_decide (d_channel a = d_channel b)
  && bool_decide (d_image_path a = d_image_path b)
  && match d_message_id a, d_message_id b with
     | Some x, Some y => bool_decide (x = y)
     | _, _ => false
     end.

Definition conflicts (table : list Detected) (rec : Detected) : bool :=
  existsb (same_key rec) table.

(** One [INSERT ... ON CONFLICT (channel, message_id, image_path) DO
    NOTHING]: [None] when the statement fails because the id does not fit
    the column. *)
Definition insert_detection (table : list Detected) (rec : Detected)
    : option (list Detected) :=
  if match d_message_id rec with Some z => int4 z | None => true end
  then Some (if conflicts table rec then table else (table ++ [rec])%list)
  else None.

Fixpoint insert_detections (table : list Detected) (recs : list Detected)
    : option (list Detected) :=
  match recs with
  | [] => Some table
  | rec :: rest =>
      match insert_detection table rec with
      | Some table' => insert_detections table' rest
      | None => None
      end
  end.

(** What an enrichment run works on: whether the database can be reached
    and [ensure_table] goes through, whether [IMG_DIR] can be listed (the
    script does not create it), the entries of [IMG_DIR], the committed rows
    of [raw.image_detections] and the content of [all_detections.json].  A
    table that exists is the one [ensure_table] creates, with its unique
    index. *)
Record Store := {
  database_up : bool;
  img_dir_listed : bool;
  entries : list DirEntry;
  detections_table : list Detected;
  detections_json : option (list Detected);
}.

(** [main] of [yolo_enrich.py].  [get_conn] and [ensure_table] come first and
    [IMG_DIR.iterdir()] next: when one of them raises, nothing has been
    written.  Then the JSON file is written; the rows are inserted in one
    transaction, committed after the last one, so a failed statement leaves
    the table as it was.  Returns the number it prints, or [None] when it
    ends by an exception. *)
Definition enrich (img_dir : string) (st : Store) : Store * option nat :=
  if negb (database_up st) then (st, None)
  else if negb (img_dir_listed st) then (st, None)
  else
    let records := all_records img_dir (entries st) in
    match insert_detections (detections_table st) records with
    | Some table =>
        ({| database_up := database_up st; img_dir_listed := img_dir_listed st;
            entries := entries st; detections_table := table;
            detections_json := Some records |}, Some (length records))
    | None =>
        ({| database_up := database_up st; img_dir_listed := img_dir_listed st;
            entries := entries st; detections_table := detections_table st;
            detections_json := Some records |}, None)
    end.

(** No two rows of the table collide on the unique index. *)
Fixpoint unique_index (table : list Detected) : bool :=
  match table with
  | [] => true
  | a :: rest => negb (existsb (same_key a) rest) && unique_index rest
  end.

(** The id of a record fits the [INT] column. *)
Definition fits_column (rec : Detected) : bool :=
  match d_message_id rec with Some z => int4 z | None => true end.

(** The record has no message id. *)
Definition no_id (rec : Detected) : bool :=
  match d_message_id rec with Some _ => false | None => true end.

(** An image of 2000 bytes that decodes, with one detection. *)
Definition one_detection : list Detection :=
  [ {| class_id := 39; confidence := Float64 4604930618986332160;
       xyxy := [Float64 0; Float64 0; Float64 4636737291354636288;
                Float64 4636737291354636288];
       class_name := "bottle" |} ].

Definition image_file (name : string) : ImageFile :=
  {| img_name := name; img_exists := true; img_size := 2000;
     img_readable := true; img_yolo := Some one_detection |}.

Definition store_of (names : list string) (table : list Detected) : Store :=
  {| database_up := true; img_dir_listed := true;
     entries := [NotADir ".gitkeep"; ChannelDir "news" (image_file <$> names)];
     detections_table := table;
     detections_json := None |}.

(** The ids of the messages of a feed, in feed order. *)
Definition feed_ids (events : list FeedEvent) : list Z :=
  omap (λ ev, match ev with Yield (Some msg) => Some (m_id msg) | _ => None end) events.

(** * Properties *)

Example sanitize_plain : sanitize_filename "  CheMed123 " = "CheMed123".
Proof. vm_compute. reflexivity. Qed.

Example sanitize_runs : sanitize_filename "a/b@@c d" = "a_b_c d".
Proof. vm_compute. reflexivity. Qed.

Example iso_example : isoformat (Date 2025 6 1) = "2025-06-01".
Proof. vm_compute. reflexivity. Qed.

Example stem_example : PurePath.stem "ch1_42_2025-06-01.jpg" = "ch1_42_2025-06-01".
Proof. vm_compute. reflexivity. Qed.

Example suffix_example : PurePath.suffix "dir/photo.final.PNG" = ".PNG".
Proof. vm_compute. reflexivity. Qed.

Example suffix_hidden : PurePath.suffix ".bashrc" = "" ∧ PurePath.suffix "foo." = "".
Proof. vm_compute. split; reflexivity. Qed.


(** ** The retry loop *)

Lemma generic_failures_cons o script :
  generic_failures (o :: script)
  = ((if is_generic o then 1 else 0) + generic_failures script)%nat.
Proof.
  unfold generic_failures. rewrite filter_cons.
  destruct o; simpl; reflexivity.
Qed.

Lemma waits_app a s1 s2 :
  forallb is_failure s1 = true →
  waits a (s1 ++ s2) = (waits a s1 ++ waits (a + generic_failures s1) s2)%list.
Proof.
  revert a. induction s1 as [|o s1 IH]; intros a Hs; simpl.
  - by rewrite Nat.add_0_r.
  - simpl in Hs. apply andb_true_iff in Hs as [Ho Hs].
    destruct o; simpl in *; try discriminate; rewrite generic_failures_cons; simpl.
    + by rewrite IH.
    + rewrite IH by done. do 3 f_equal. lia.
Qed.

Lemma download_loop_flood fuel mx attempt dest w s rest :
  (attempt < mx)%nat → downloads w = DlFlood s :: rest →
  download_loop (S fuel) mx attempt dest w
  = download_loop fuel mx attempt dest
      (sleep (Seconds (flood_seconds s + 1)) (with_downloads rest w)).
Proof.
  intros Hlt Hd. apply Nat.ltb_lt in Hlt. unfold download_loop at 1.
  fold download_loop. rewrite Hlt. unfold next_download. by rewrite Hd.
Qed.

Lemma download_loop_error fuel mx attempt dest w c rest :
  (attempt < mx)%nat → downloads w = DlError c :: rest →
  download_loop (S fuel) mx attempt dest w
  = download_loop fuel mx (S attempt) dest
      (sleep (Seconds (2 ^ Z.of_nat (S attempt))) (with_downloads rest w)).
Proof.
  intros Hlt Hd. apply Nat.ltb_lt in Hlt. unfold download_loop at 1.
  fold download_loop. rewrite Hlt. unfold next_download. by rewrite Hd.
Qed.

Lemma download_loop_result fuel mx attempt dest w b rest :
  (attempt < mx)%nat → downloads w = DlResult b :: rest →
  download_loop (S fuel) mx attempt dest w
  = if b then (with_img_files ({[dest]} ∪ img_files w) (with_downloads rest w), Some dest)
    else (with_downloads rest w, None).
Proof.
  intros Hlt Hd. apply Nat.ltb_lt in Hlt. unfold download_loop at 1.
  fold download_loop. rewrite Hlt. unfold next_download. rewrite Hd.
  by destruct b.
Qed.

Lemma download_loop_spent fuel mx attempt dest w :
  (mx ≤ attempt)%nat → download_loop fuel mx attempt dest w = (w, None).
Proof.
  intros Hle. apply Nat.ltb_ge in Hle. destruct fuel; [done|].
  unfold download_loop. by rewrite Hle.
Qed.

(** Running through a script of failures that leaves budget: the loop is
    where it was, [script] later, with the pauses taken and the attempts
    counted. *)
Lemma download_loop_failures script :
  ∀ fuel max_retries attempt dest w rest,
    downloads w = (script ++ rest)%list →
    forallb is_failure script = true →
    (attempt + generic_failures script < max_retries)%nat →
    ∃ w',
      download_loop (length script + fuel) max_retries attempt dest w
      = download_loop fuel max_retries (attempt + generic_failures script) dest w'
      ∧ downloads w' = rest
      ∧ slept w' = (slept w ++ waits attempt script)%list
      ∧ msg_files w' = msg_files w ∧ img_files w' = img_files w
      ∧ today w' = today w ∧ feeds w' = feeds w
      ∧ manifest_files w' = manifest_files w.
Proof.
  induction script as [|o script IH]; intros fuel mx attempt dest w rest Hd Hf Hb.
  - exists w. simpl in *. rewrite Nat.add_0_r, app_nil_r. done.
  - simpl in Hf. apply andb_true_iff in Hf as [Ho Hf].
    rewrite generic_failures_cons in Hb |- *.
    destruct o as [b|s|c]; simpl in Ho; try discriminate; cbn [is_generic] in *.
    + destruct (IH fuel mx attempt dest
                  (sleep (Seconds (flood_seconds s + 1)) (with_downloads (script ++ rest) w))
                  rest) as (w' & E & ? & Hs & ? & ? & ? & ? & ?); [done|done|lia|].
      exists w'. cbn [length Nat.add].
      rewrite (download_loop_flood _ _ _ _ _ s (script ++ rest)) by (done || lia).
      rewrite E. split; [done|]. repeat split; try done.
      rewrite Hs. cbn [slept sleep waits]. by rewrite <- app_assoc.
    + destruct (IH fuel mx (S attempt) dest
                  (sleep (Seconds (2 ^ Z.of_nat (S attempt))) (with_downloads (script ++ rest) w))
                  rest) as (w' & E & ? & Hs & ? & ? & ? & ? & ?); [done|done|lia|].
      exists w'. cbn [length Nat.add].
      rewrite (download_loop_error _ _ _ _ _ c (script ++ rest)) by (done || lia).
      replace (attempt + S (generic_failures script))%nat
        with (S attempt + generic_failures script)%nat by lia.
      rewrite E. split; [done|]. repeat split; try done.
      rewrite Hs. cbn [slept sleep waits]. by rewrite <- app_assoc.
Qed.

(** The fuel [download_with_retries] supplies is never the reason the loop
    stops: any larger amount gives the same result. *)
Lemma download_loop_fuel fuel :
  ∀ fuel' mx attempt dest w,
    (length (downloads w) + (mx - attempt) ≤ fuel)%nat → (fuel ≤ fuel')%nat →
    download_loop fuel mx attempt dest w = download_loop fuel' mx attempt dest w.
Proof.
  induction fuel as [|fuel IH]; intros fuel' mx attempt dest w Hm Hle.
  - rewrite !download_loop_spent by lia. done.
  - destruct fuel' as [|fuel']; [lia|].
    destruct (decide (attempt < mx)%nat) as [Hlt|Hge];
      [|rewrite !download_loop_spent by lia; done].
    destruct (downloads w) as [|o rest] eqn:Hd.
    + unfold download_loop; fold download_loop.
      apply Nat.ltb_lt in Hlt as Hlt'. rewrite Hlt'.
      unfold next_download. rewrite Hd. apply IH; simpl; [rewrite Hd; simpl|]; lia.
    + simpl in Hm. destruct o as [b|s|c].
      * by rewrite !(download_loop_result _ _ _ _ _ b rest).
      * rewrite !(download_loop_flood _ _ _ _ _ s rest) by done.
        apply IH; simpl; lia.
      * rewrite !(download_loop_error _ _ _ _ _ c rest) by done.
        apply IH; simpl; lia.
Qed.

(** Budget left after a script of failures: the next outcome decides. *)
Lemma download_with_retries_decided w dest max_retries script b rest :
  downloads w = (script ++ DlResult b :: rest)%list →
  forallb is_failure script = true →
  (generic_failures script < max_retries)%nat →
  (download_with_retries w dest max_retries).2 = (if b then Some dest else None)
  ∧ slept (download_with_retries w dest max_retries).1 = (slept w ++ waits 0 script)%list
  ∧ downloads (download_with_retries w dest max_retries).1 = rest.
Proof.
  intros Hd Hf Hb. unfold download_with_retries. rewrite Hd, length_app.
  destruct (download_loop_failures script (length (DlResult b :: rest) + max_retries)
              max_retries 0 dest w (DlResult b :: rest) Hd Hf)
    as (w' & E & Hd' & Hs & _); [simpl; lia|].
  rewrite <- Nat.add_assoc, E. simpl length. simpl Nat.add.
  rewrite (download_loop_result _ _ _ _ _ b rest) by (done || lia).
  destruct b; simpl; rewrite Hs; done.
Qed.

(** The last attempt of the budget fails: the call gives up. *)
Lemma download_with_retries_exhausted w dest max_retries script cause rest :
  downloads w = (script ++ DlError cause :: rest)%list →
  forallb is_failure script = true →
  (generic_failures script + 1 = max_retries)%nat →
  (download_with_retries w dest max_retries).2 = None
  ∧ slept (download_with_retries w dest max_retries).1
    = (slept w ++ waits 0 (script ++ [DlError cause]))%list
  ∧ downloads (download_with_retries w dest max_retries).1 = rest.
Proof.
  intros Hd Hf Hb. unfold download_with_retries. rewrite Hd, length_app.
  destruct (download_loop_failures script (length (DlError cause :: rest) + max_retries)
              max_retries 0 dest w (DlError cause :: rest) Hd Hf)
    as (w' & E & Hd' & Hs & _); [simpl; lia|].
  rewrite <- Nat.add_assoc, E. simpl length. simpl Nat.add.
  rewrite (download_loop_error _ _ _ _ _ cause rest) by (done || lia).
  rewrite download_loop_spent by lia. simpl.
  rewrite Hs, waits_app by done. simpl. by rewrite <- app_assoc.
Qed.

(** C4.  In [download_with_retries] a rate-limit signal costs no attempt:
    a script of failures with any number of [DlFlood]s in it is waited
    through (each for the signalled seconds plus one) as long as its generic
    failures stay below [max_retries], and the outcome after it decides the
    call; generic failures pause for 2, 4, 8, ... seconds, and the
    [max_retries]-th one ends the call with [None], nothing further being
    tried.  The scan loop calls it with the default budget of 4. *)
Theorem download_retry_budget w dest max_retries script rest :
  downloads w = (script ++ rest)%list →
  forallb is_failure script = true →
  (∀ b rest', rest = DlResult b :: rest' →
     (generic_failures script < max_retries)%nat →
     (download_with_retries w dest max_retries).2 = (if b then Some dest else None)
     ∧ slept (download_with_retries w dest max_retries).1
       = (slept w ++ waits 0 script)%list
     ∧ downloads (download_with_retries w dest max_retries).1 = rest')
  ∧ (∀ c rest', rest = DlError c :: rest' →
     (generic_failures script + 1 = max_retries)%nat →
     (download_with_retries w dest max_retries).2 = None
     ∧ slept (download_with_retries w dest max_retries).1
       = (slept w ++ waits 0 (script ++ [DlError c]))%list
     ∧ downloads (download_with_retries w dest max_retries).1 = rest')
  ∧ default_max_retries = 4%nat.
Proof.
  intros Hd Hf. split_and!; [| |done].
  - intros b rest' -> Hb. by apply download_with_retries_decided.
  - intros c rest' -> Hb. by apply download_with_retries_exhausted.
Qed.

Lemma download_retry_budget_witness :
  let script := [DlFlood (Some 30%Z); DlError "a"; DlFlood None; DlFlood (Some 5%Z);
                 DlError "b"; DlError "c"; DlFlood (Some 1%Z)] in
  let w := retry_world (script ++ [DlError "d"; DlResult true]) in
  (download_with_retries w ("ch", "f.jpg") 4).2 = None
  ∧ slept (download_with_retries w ("ch", "f.jpg") 4).1
    = [Seconds 31; Seconds 2; Seconds 61; Seconds 6; Seconds 4; Seconds 8;
       Seconds 2; Seconds 16]
  ∧ downloads (download_with_retries w ("ch", "f.jpg") 4).1 = [DlResult true].
Proof.
  intros script w.
  exact (proj1 (proj2 (download_retry_budget w ("ch", "f.jpg") 4 script
                         [DlError "d"; DlResult true] eq_refl eq_refl))
           "d" [DlResult true] eq_refl eq_refl).
Defined.


(** ** Destination names *)

Lemma app_cons c s t : String c s +:+ t = String c (s +:+ t).
Proof. reflexivity. Qed.

Lemma app_length s t :
  String.length (s +:+ t) = (String.length s + String.length t)%nat.
Proof. induction s as [|c s IH]; [done|]. rewrite app_cons. simpl. by rewrite IH. Qed.

(** Appending the same text on the right can be undone. *)
Lemma app_inv_tail_str s1 s2 t : s1 +:+ t = s2 +:+ t → s1 = s2.
Proof.
  revert s2. induction s1 as [|c s1 IH]; intros [|d s2] H.
  - done.
  - apply (f_equal String.length) in H. rewrite !app_length in H. simpl in H. lia.
  - apply (f_equal String.length) in H. rewrite !app_length in H. simpl in H. lia.
  - rewrite !app_cons in H. injection H as -> H. f_equal. by apply IH.
Qed.

Lemma numbered_name_inj fname ext i j :
  numbered_name fname i ext = numbered_name fname j ext → i = j.
Proof.
  unfold numbered_name, Text.str_nat. intros H.
  apply (inj (String.app _)) in H. apply (inj (String.app _)) in H.
  apply app_inv_tail_str in H. by apply (inj pretty) in H.
Qed.

(** Among the first [size existing + 1] numbered names one is free. *)
Lemma numbered_free (existing : gset (string * string)) dir fname ext :
  ∃ k, (1 ≤ k ≤ S (size existing))%nat ∧ candidate dir fname ext k ∉ existing.
Proof.
  set (n := size existing).
  set (names := (λ k, (dir, numbered_name fname k ext)) <$> seq 1 (S n)).
  destruct (decide (Forall (λ p, p ∈ existing) names)) as [Hall|Hex].
  - exfalso.
    assert (NoDup names) as Hnd.
    { apply NoDup_fmap_2; [|apply NoDup_seq].
      intros i j [= H]. by apply numbered_name_inj in H. }
    assert (list_to_set names ⊆ existing) as Hsub.
    { intros p Hp. apply elem_of_list_to_set in Hp.
      rewrite Forall_forall in Hall. by apply Hall. }
    apply subseteq_size in Hsub. rewrite size_list_to_set in Hsub by done.
    unfold names in Hsub. rewrite length_fmap, length_seq in Hsub. lia.
  - apply not_Forall_Exists in Hex; [|apply _].
    apply Exists_exists in Hex as (p & Hp & Hfree).
    unfold names in Hp. apply list_elem_of_fmap in Hp as (k & -> & Hk).
    apply elem_of_seq in Hk. exists k. split; [lia|].
    destruct k; [lia|]. done.
Qed.

(** The loop, started in round [k], ends in the first free round from [k]
    on. *)
Lemma free_dest_loop_first existing dir fname ext :
  ∀ gap k fuel,
    (∀ j, (k ≤ j < k + gap)%nat → candidate dir fname ext j ∈ existing) →
    candidate dir fname ext (k + gap) ∉ existing →
    (gap < fuel)%nat →
    free_dest_loop fuel existing dir fname ext (S k) (candidate dir fname ext k)
    = Some (candidate dir fname ext (k + gap)).
Proof.
  induction gap as [|gap IH]; intros k fuel Hocc Hfree Hfuel.
  - destruct fuel as [|fuel]; [lia|]. rewrite Nat.add_0_r in *. simpl.
    by rewrite decide_False.
  - destruct fuel as [|fuel]; [lia|]. simpl.
    rewrite decide_True by (apply Hocc; lia).
    change (dir, numbered_name fname (S k) ext) with (candidate dir fname ext (S k)).
    replace (k + S gap)%nat with (S k + gap)%nat in * by lia.
    apply IH; [|done|lia]. intros j Hj. apply Hocc. lia.
Qed.

Lemma least_round (P : nat → Prop) `{!∀ n, Decision (P n)} k :
  P k → ∃ k0, (k0 ≤ k)%nat ∧ P k0 ∧ ∀ j, (j < k0)%nat → ¬ P j.
Proof.
  intros Hk.
  assert (∀ n, (∀ j, (j < n)%nat → ¬ P j)
               ∨ ∃ k0, (k0 < n)%nat ∧ P k0 ∧ ∀ j, (j < k0)%nat → ¬ P j) as Hscan.
  { induction n as [|n [Hnone|(k0 & ? & ? & ?)]].
    - left. intros j ?. lia.
    - destruct (decide (P n)) as [Hn|Hn].
      + right. exists n. split; [lia|]. split; [done|]. done.
      + left. intros j Hj. destruct (decide (j = n)) as [->|]; [done|].
        apply Hnone. lia.
    - right. exists k0. split; [lia|]. done. }
  destruct (Hscan (S k)) as [Hnone|(k0 & ? & ? & ?)].
  - exfalso. apply (Hnone k); [lia|done].
  - exists k0. split; [lia|]. done.
Qed.

(** The retry loop touches the image directory only by adding [dest] on
    success, and leaves the message logs, the feeds, the manifests and the
    date alone. *)
Lemma download_loop_frame fuel :
  ∀ mx attempt dest w,
    let r := download_loop fuel mx attempt dest w in
    msg_files r.1 = msg_files w ∧ feeds r.1 = feeds w
    ∧ manifest_files r.1 = manifest_files w ∧ today r.1 = today w
    ∧ ((r.2 = Some dest ∧ img_files r.1 = {[dest]} ∪ img_files w)
       ∨ (r.2 = None ∧ img_files r.1 = img_files w)).
Proof.
  induction fuel as [|fuel IH]; intros mx attempt dest w; simpl.
  - repeat split; auto.
  - destruct (attempt <? mx)%nat; [|repeat split; auto].
    unfold next_download. destruct (downloads w) as [|[[|]|s|c] rest]; simpl;
      try (repeat split; auto; fail).
    + apply (IH mx (S attempt) dest (sleep (Seconds (2 ^ Z.of_nat (S attempt))) w)).
    + apply (IH mx attempt dest
               (sleep (Seconds (flood_seconds s + 1)) (with_downloads rest w))).
    + apply (IH mx (S attempt) dest
               (sleep (Seconds (2 ^ Z.of_nat (S attempt))) (with_downloads rest w))).
Qed.

(** The destination: found, free, the plain name when that is free and
    otherwise the first free numbered one. *)
Lemma free_dest_spec existing dir fname ext :
  ∃ dest,
    free_dest existing dir fname ext = Some dest
    ∧ (dest ∉ existing)
    ∧ ((dir, fname) ∉ existing → dest = (dir, fname))
    ∧ ((dir, fname) ∈ existing →
       ∃ i, (1 ≤ i)%nat
            ∧ dest = (dir, PurePath.stem fname +:+ "_" +:+ Text.str_nat i +:+ ext)
            ∧ ∀ j, (1 ≤ j < i)%nat →
                   (dir, PurePath.stem fname +:+ "_" +:+ Text.str_nat j +:+ ext)
                   ∈ existing).
Proof.
  destruct (numbered_free existing dir fname ext) as (k & Hk & Hkfree).
  destruct (least_round (λ j, candidate dir fname ext j ∉ existing) k Hkfree)
    as (k0 & Hk0 & Hk0free & Hbelow).
  assert (free_dest existing dir fname ext = Some (candidate dir fname ext k0)) as E.
  { unfold free_dest.
    change (dir, fname) with (candidate dir fname ext 0).
    apply (free_dest_loop_first existing dir fname ext k0 0); [|done|lia].
    intros j Hj. destruct (decide (candidate dir fname ext j ∈ existing)); [done|].
    exfalso. apply (Hbelow j); [lia|done]. }
  exists (candidate dir fname ext k0). split; [done|]. split; [done|]. split.
  - intros H0. destruct k0 as [|k0]; [done|].
    exfalso. apply (Hbelow 0%nat); [lia|done].
  - intros H0. destruct k0 as [|k0]; [done|].
    exists (S k0). split; [lia|]. split; [done|].
    intros j Hj. destruct (decide (candidate dir fname ext j ∈ existing)) as [Hin|Hout].
    + destruct j; [lia|]. done.
    + exfalso. apply (Hbelow j); [lia|done].
Qed.

(** C8.  The destination the scan loop settles on is never an existing
    path: it is the plain name when that is free, and otherwise the stem
    followed by [_i] and the extension for the first [i = 1, 2, ...] whose
    path is free; the download then adds exactly that path to the image
    directory.  With [ch1_42_2025-06-01.jpg] taken, the destination is
    [ch1_42_2025-06-01_1.jpg]. *)
Theorem free_dest_never_overwrites existing dir fname ext :
  (∃ dest,
      free_dest existing dir fname ext = Some dest
      ∧ (dest ∉ existing)
      ∧ ((dir, fname) ∉ existing → dest = (dir, fname))
      ∧ ((dir, fname) ∈ existing →
         ∃ i, (1 ≤ i)%nat
              ∧ dest = (dir, PurePath.stem fname +:+ "_" +:+ Text.str_nat i +:+ ext)
              ∧ ∀ j, (1 ≤ j < i)%nat →
                     (dir, PurePath.stem fname +:+ "_" +:+ Text.str_nat j +:+ ext)
                     ∈ existing))
  ∧ (∀ sanitized msg date_str w,
       let r := fetch_image sanitized msg date_str w in
       img_files w ⊆ img_files r.1
       ∧ ∀ dest, r.2 = Some dest →
                 (dest ∉ img_files w) ∧ img_files r.1 = {[dest]} ∪ img_files w)
  ∧ free_dest {[("ch1", "ch1_42_2025-06-01.jpg")]} "ch1"
      (image_name (sanitize_filename "ch1") 42 (isoformat (Date 2025 6 1)) ".jpg") ".jpg"
    = Some ("ch1", "ch1_42_2025-06-01_1.jpg").
Proof.
  split; [apply free_dest_spec|]. split; [|by vm_compute].
  intros sanitized msg date_str w r. subst r. unfold fetch_image.
  destruct (free_dest_spec (img_files w) sanitized
              (image_name sanitized (m_id msg) date_str (extension msg)) (extension msg))
    as (dest & -> & Hnew & _).
  unfold download_with_retries.
  destruct (download_loop_frame (length (downloads w) + default_max_retries)
              default_max_retries 0 dest w) as (_ & _ & _ & _ & [[E1 E2]|[E1 E2]]).
  - split; [rewrite E2; apply union_subseteq_r|]. intros d Hd. rewrite E1 in Hd.
    by simplify_eq.
  - split; [by rewrite E2|]. intros d Hd. rewrite E1 in Hd. done.
Qed.

(** ** The scan loop *)

Lemma fetch_image_frame sanitized msg date_str w :
  let r := fetch_image sanitized msg date_str w in
  msg_files r.1 = msg_files w ∧ feeds r.1 = feeds w
  ∧ manifest_files r.1 = manifest_files w ∧ today r.1 = today w.
Proof.
  unfold fetch_image. destruct (free_dest _ _ _ _) as [dest|]; [|done].
  unfold download_with_retries.
  destruct (download_loop_frame (length (downloads w) + default_max_retries)
              default_max_retries 0 dest w) as (? & ? & ? & ? & _).
  done.
Qed.

Lemma saved_world_frame sanitized msg count w :
  msg_files (saved_world sanitized msg count w) = save sanitized (today w) (msg_files w) msg
  ∧ feeds (saved_world sanitized msg count w) = feeds w
  ∧ manifest_files (saved_world sanitized msg count w) = manifest_files w
  ∧ today (saved_world sanitized msg count w) = today w.
Proof.
  unfold saved_world, save, partition_of, message_day.
  set (w1 := with_msg_files _ w).
  destruct (fetch_image_frame sanitized msg (isoformat (default (today w) (m_date msg))) w1)
    as (E1 & E2 & E3 & E4).
  destruct (is_image msg), (S count mod 50 =? 0)%nat; simpl;
    rewrite ?E1, ?E2, ?E3, ?E4; done.
Qed.

Lemma scrape_loop_save sanitized seen since until msg rest count w :
  m_id msg ∉ seen →
  before_since since (message_day w msg) = false →
  at_or_after_until until (message_day w msg) = false →
  scrape_loop sanitized seen since until (Yield (Some msg) :: rest) count w
  = scrape_loop sanitized seen since until rest (S count) (saved_world sanitized msg count w).
Proof.
  intros Hs Hb Hu. simpl. rewrite decide_False by done. by rewrite Hb, Hu.
Qed.

Lemma scrape_loop_seen sanitized seen since until msg rest count w :
  m_id msg ∈ seen →
  scrape_loop sanitized seen since until (Yield (Some msg) :: rest) count w
  = scrape_loop sanitized seen since until rest count w.
Proof. intros Hs. simpl. by rewrite decide_True. Qed.

Lemma scrape_loop_halt sanitized seen since until msg rest count w :
  m_id msg ∉ seen →
  before_since since (message_day w msg) = true →
  scrape_loop sanitized seen since until (Yield (Some msg) :: rest) count w
  = (w, Ret count).
Proof. intros Hs Hb. simpl. rewrite decide_False by done. by rewrite Hb. Qed.

Lemma scrape_loop_until sanitized seen since until msg rest count w :
  m_id msg ∉ seen →
  before_since since (message_day w msg) = false →
  at_or_after_until until (message_day w msg) = true →
  scrape_loop sanitized seen since until (Yield (Some msg) :: rest) count w
  = scrape_loop sanitized seen since until rest count w.
Proof.
  intros Hs Hb Hu. simpl. rewrite decide_False by done. by rewrite Hb, Hu.
Qed.

(** What a scan does to the logs, and what it counts. *)
Lemma scrape_loop_spec sanitized seen since until events :
  ∀ count w,
    let r := scrape_loop sanitized seen since until events count w in
    msg_files r.1
    = foldl (save sanitized (today w)) (msg_files w)
        (persisted seen since until (today w) events)
    ∧ feeds r.1 = feeds w ∧ manifest_files r.1 = manifest_files w
    ∧ today r.1 = today w
    ∧ ∀ c, r.2 = Ret c →
           c = (count + length (persisted seen since until (today w) events))%nat.
Proof.
  induction events as [|[[msg|]|e] rest IH]; intros count w.
  - simpl. split_and!; try done. intros c [= <-]. lia.
  - cbn [persisted]. destruct (decide (m_id msg ∈ seen)) as [Hin|Hout].
    { rewrite scrape_loop_seen by done. apply IH. }
    fold (message_day w msg).
    destruct (before_since since (message_day w msg)) eqn:Hb.
    { rewrite scrape_loop_halt by done. simpl. split_and!; try done.
      intros c [= <-]. lia. }
    destruct (at_or_after_until until (message_day w msg)) eqn:Hu.
    { rewrite scrape_loop_until by done. apply IH. }
    rewrite scrape_loop_save by done.
    destruct (saved_world_frame sanitized msg count w) as (E1 & E2 & E3 & E4).
    destruct (IH (S count) (saved_world sanitized msg count w)) as (F1 & F2 & F3 & F4 & F5).
    cbn [foldl length].
    rewrite F1, F2, F3, F4, E1, E2, E3, E4. split_and!; try done.
    intros c Hc. apply F5 in Hc. rewrite E4 in Hc. lia.
  - apply IH.
  - simpl. split_and!; try done.
Qed.

(** ** Logs only grow *)

Lemma lines_of_append key line files key' :
  lines_of (append_line key line files) key'
  = (lines_of files key' ++ if decide (key = key') then [line] else [])%list.
Proof.
  unfold lines_of, append_line. destruct (decide (key = key')) as [->|Hne].
  - by rewrite lookup_insert_eq.
  - rewrite lookup_insert_ne by done. by rewrite app_nil_r.
Qed.

(** After a batch of saves a log holds what it held, followed by the batch's
    records for that log, in order. *)
Lemma lines_of_saves sanitized td msgs :
  ∀ files key,
    lines_of (foldl (save sanitized td) files msgs) key
    = (lines_of files key
       ++ (Saved ∘ message_to_serializable
           <$> filter (λ m, partition_of td sanitized m = key) msgs))%list.
Proof.
  induction msgs as [|m msgs IH]; intros files key; simpl.
  - by rewrite app_nil_r.
  - rewrite IH. unfold save. rewrite lines_of_append, filter_cons.
    destruct (decide (partition_of td sanitized m = key)); simpl.
    + by rewrite <- app_assoc.
    + by rewrite app_nil_r.
Qed.

Lemma persisted_unseen seen since until td events m :
  m ∈ persisted seen since until td events → m_id m ∉ seen.
Proof.
  induction events as [|[[msg|]|e] rest IH]; cbn [persisted]; intros Hm.
  - by apply elem_of_nil in Hm.
  - destruct (decide (m_id msg ∈ seen)); [by apply IH|].
    destruct (before_since since _); [by apply elem_of_nil in Hm|].
    destruct (at_or_after_until until _); [by apply IH|].
    apply elem_of_cons in Hm as [->|Hm]; [done|by apply IH].
  - by apply IH.
  - by apply elem_of_nil in Hm.
Qed.

(** A scan that gets past all of [events] saves every message of it that is
    neither in the index nor excluded by [until]. *)
Lemma persisted_runs_through seen since until td events m :
  runs_through seen since td events = true →
  Yield (Some m) ∈ events → m_id m ∉ seen →
  at_or_after_until until (default td (m_date m)) = false →
  before_since since (default td (m_date m)) = false
  ∧ m ∈ persisted seen since until td events.
Proof.
  induction events as [|[[msg|]|e] rest IH]; cbn [persisted runs_through];
    intros Hrun Hm Hs Hu.
  - by apply elem_of_nil in Hm.
  - revert Hrun. apply elem_of_cons in Hm as [[= <-]|Hm].
    + destruct (decide (m_id m ∈ seen)); [done|].
      destruct (before_since since _); [done|]. intros _. rewrite Hu.
      split; [done|]. apply elem_of_cons. by left.
    + destruct (decide (m_id msg ∈ seen)); [by intros; apply IH|].
      destruct (before_since since (default td (m_date msg))); [done|]. intros Hrun.
      destruct (IH Hrun Hm Hs Hu) as [? ?]. split; [done|].
      destruct (at_or_after_until until (default td (m_date msg))); [done|].
      apply elem_of_cons. by right.
  - apply elem_of_cons in Hm as [[=]|Hm]. by apply IH.
  - done.
Qed.

Lemma scrape_loop_runs sanitized seen since until events :
  ∀ count w,
    runs_through seen since (today w) events = true →
    (scrape_loop sanitized seen since until events count w).2
    = Ret (count + length (persisted seen since until (today w) events))%nat.
Proof.
  induction events as [|[[msg|]|e] rest IH]; intros count w Hrun.
  - simpl. f_equal. lia.
  - cbn [persisted runs_through] in *.
    destruct (decide (m_id msg ∈ seen)) as [Hin|Hout].
    { rewrite scrape_loop_seen by done. by apply IH. }
    fold (message_day w msg) in *.
    destruct (before_since since (message_day w msg)) eqn:Hb; [done|].
    destruct (at_or_after_until until (message_day w msg)) eqn:Hu.
    { rewrite scrape_loop_until by done. by apply IH. }
    rewrite scrape_loop_save by done.
    destruct (saved_world_frame sanitized msg count w) as (_ & _ & _ & E4).
    rewrite IH by (by rewrite E4). rewrite E4. simpl. f_equal. lia.
  - by apply IH.
  - done.
Qed.

(** The [since] exit: a message that is not in the index and is older than
    [since] ends the scan as if the feed had ended just before it. *)
Lemma scrape_loop_stops sanitized seen since until pre msg post :
  ∀ count w,
    m_id msg ∉ seen →
    before_since since (message_day w msg) = true →
    scrape_loop sanitized seen since until (pre ++ Yield (Some msg) :: post) count w
    = scrape_loop sanitized seen since until pre count w.
Proof.
  induction pre as [|[[m|]|e] pre IH]; intros count w Hs Hb.
  - simpl app. by rewrite scrape_loop_halt.
  - rewrite <- app_comm_cons.
    destruct (decide (m_id m ∈ seen)) as [Hin|Hout].
    { rewrite !(scrape_loop_seen _ _ _ _ m) by done. by apply IH. }
    destruct (before_since since (message_day w m)) eqn:Hbm.
    { by rewrite !(scrape_loop_halt _ _ _ _ m). }
    destruct (at_or_after_until until (message_day w m)) eqn:Hum.
    { rewrite !(scrape_loop_until _ _ _ _ m) by done. by apply IH. }
    rewrite !(scrape_loop_save _ _ _ _ m) by done. apply IH; [done|].
    destruct (saved_world_frame sanitized m count w) as (_ & _ & _ & E4).
    unfold message_day in *. by rewrite E4.
  - simpl. by apply IH.
  - done.
Qed.

(** ** The Dedup Index *)

Lemma elem_of_load_seen_ids w channel z :
  z ∈ load_seen_ids w channel
  ↔ ∃ d l, l ∈ lines_of (msg_files w) (d, sanitize_filename channel)
           ∧ line_id l = Some z.
Proof.
  unfold load_seen_ids, lines_of, file_ids.
  rewrite elem_of_list_to_set, list_elem_of_bind. split.
  - intros ([[d f] lines] & Hz & Hkv). simpl in Hz.
    destruct (decide (f = sanitize_filename channel)) as [->|]; [|by apply elem_of_nil in Hz].
    apply elem_of_map_to_list in Hkv. apply list_elem_of_omap in Hz as (l & Hl & Hid).
    exists d, l. by rewrite Hkv.
  - intros (d & l & Hl & Hid).
    destruct (msg_files w !! (d, sanitize_filename channel)) as [lines|] eqn:E;
      [|by apply elem_of_nil in Hl].
    exists ((d, sanitize_filename channel), lines). split.
    + simpl. rewrite decide_True by done. apply list_elem_of_omap. by exists l.
    + by apply elem_of_map_to_list.
Qed.

Lemma iter_messages_frame w channel limit :
  msg_files (iter_messages w channel limit).2 = msg_files w
  ∧ today (iter_messages w channel limit).2 = today w
  ∧ manifest_files (iter_messages w channel limit).2 = manifest_files w.
Proof.
  unfold iter_messages. destruct (feeds w !! channel) as [[|session later]|]; done.
Qed.

Lemma scrape_channel_unfold w channel limit incremental since until :
  scrape_channel w channel limit incremental since until
  = scrape_loop (sanitize_filename channel)
      (if incremental then load_seen_ids w channel else ∅) since until
      (iter_messages w channel limit).1 0 (iter_messages w channel limit).2.
Proof. unfold scrape_channel. by destruct (iter_messages w channel limit). Qed.

(** What a whole channel scan does to the logs. *)
Lemma scrape_channel_spec w channel limit (incremental : bool) since until :
  let seen : gset Z := if incremental then load_seen_ids w channel else ∅ in
  let events := (iter_messages w channel limit).1 in
  let r := scrape_channel w channel limit incremental since until in
  msg_files r.1
  = foldl (save (sanitize_filename channel) (today w)) (msg_files w)
      (persisted seen since until (today w) events)
  ∧ manifest_files r.1 = manifest_files w
  ∧ today r.1 = today w
  ∧ ∀ c, r.2 = Ret c → c = length (persisted seen since until (today w) events).
Proof.
  intros seen events r. subst r. rewrite scrape_channel_unfold.
  destruct (iter_messages_frame w channel limit) as (E1 & E2 & E3).
  destruct (scrape_loop_spec (sanitize_filename channel) seen since until events 0
              (iter_messages w channel limit).2) as (F1 & _ & F3 & F4 & F5).
  fold seen events. rewrite F1, F3, F4, E1, E2, E3. split_and!; try done.
  intros c Hc. apply F5 in Hc. by rewrite E2 in Hc.
Qed.

(** ** The [since] exit *)

(** C1 (as amended).  A message that is not in the Dedup Index and is dated
    before [since] stops the scan of its source: the scan ends as if the feed
    had ended just before that message, so nothing after it is looked at.
    When it is the first such message, the scan returns the number of
    messages saved before it, and every message before it that is neither in
    the index nor excluded by [until] is dated [since] or later and is in the
    log of its day. *)
Theorem since_stops_scan w channel limit (incremental : bool) s until pre msg post :
  let seen : gset Z := if incremental then load_seen_ids w channel else ∅ in
  let sanitized := sanitize_filename channel in
  let r := scrape_channel w channel limit incremental (Some s) until in
  (iter_messages w channel limit).1 = (pre ++ Yield (Some msg) :: post)%list →
  m_id msg ∉ seen →
  date_ltb (message_day w msg) s = true →
  r = scrape_loop sanitized seen (Some s) until pre 0 (iter_messages w channel limit).2
  ∧ msg_files r.1
    = foldl (save sanitized (today w)) (msg_files w)
        (persisted seen (Some s) until (today w) pre)
  ∧ (runs_through seen (Some s) (today w) pre = true →
     r.2 = Ret (length (persisted seen (Some s) until (today w) pre))
     ∧ ∀ m, Yield (Some m) ∈ pre → m_id m ∉ seen →
            at_or_after_until until (message_day w m) = false →
            date_geb (message_day w m) s = true
            ∧ Saved (message_to_serializable m)
              ∈ lines_of (msg_files r.1) (partition_of (today w) sanitized m)).
Proof.
  intros seen sanitized r Hev Hs Hold. subst r.
  destruct (iter_messages_frame w channel limit) as (E1 & E2 & E3).
  assert (scrape_channel w channel limit incremental (Some s) until
          = scrape_loop sanitized seen (Some s) until pre 0
              (iter_messages w channel limit).2) as Hstop.
  { rewrite scrape_channel_unfold, Hev. apply scrape_loop_stops; [done|].
    unfold message_day in *. simpl. by rewrite E2. }
  destruct (scrape_loop_spec sanitized seen (Some s) until pre 0
              (iter_messages w channel limit).2) as (F1 & _ & _ & _ & _).
  rewrite E1, E2 in F1.
  split; [done|]. rewrite Hstop. split; [done|].
  intros Hrun. split.
  - rewrite scrape_loop_runs by (by rewrite E2). by rewrite E2.
  - intros m Hm Hms Hmu.
    destruct (persisted_runs_through seen (Some s) until (today w) pre m Hrun Hm Hms Hmu)
      as [Hb Hp].
    split.
    + unfold date_geb, message_day. simpl in Hb. by rewrite Hb.
    + rewrite F1, lines_of_saves. apply elem_of_app. right.
      apply (list_elem_of_fmap_2 (Saved ∘ message_to_serializable)).
      apply list_elem_of_filter. done.
Qed.

Lemma since_stops_scan_witness :
  let r := scrape_channel world_B "ch1" None false (Some (Date 2025 6 1)) None in
  r.2 = Ret 2%nat
  ∧ lines_of (msg_files r.1) ("2025-06-10", "ch1")
    = [Saved (message_to_serializable (plain 4 (Some (Date 2025 6 10))))]
  ∧ lines_of (msg_files r.1) ("2025-06-05", "ch1")
    = [Saved (message_to_serializable (plain 3 (Some (Date 2025 6 5))))]
  ∧ lines_of (msg_files r.1) ("2025-06-01", "ch1") = [].
Proof.
  intros r.
  destruct (since_stops_scan world_B "ch1" None false (Date 2025 6 1) None
              [Yield (Some (plain 4 (Some (Date 2025 6 10))));
               Yield (Some (plain 3 (Some (Date 2025 6 5))))]
              (plain 2 (Some (Date 2025 5 20)))
              [Yield (Some (plain 1 (Some (Date 2025 6 1))))]
              eq_refl (not_elem_of_empty _) eq_refl) as (_ & Hfiles & Hrun).
  destruct (Hrun eq_refl) as [Hcount _].
  split; [exact Hcount|].
  fold r in Hfiles. rewrite Hfiles. clear. vm_compute. split_and!; reflexivity.
Defined.

(** C1 as the specification words it fails in scenario B: the message dated
    06-01 comes after the one dated 05-20 and is not saved.  Two more scans with a
    [since] bound show what else the scan depends on: a message dated on or
    after [since] is not saved when [until] excludes it, and a message
    dated before [since] does not stop the scan when the Dedup Index makes
    the scan skip it (the message dated 06-01 behind it is then saved). *)
Lemma scenario_B_drops_later_item :
  (let r := scrape_channel world_B "ch1" None false (Some (Date 2025 6 1)) None in
   ¬ (Saved (message_to_serializable (plain 1 (Some (Date 2025 6 1))))
      ∈ lines_of (msg_files r.1) ("2025-06-01", "ch1")))
  ∧ (let r := scrape_channel world_B "ch1" None false (Some (Date 2025 6 1))
                (Some (Date 2025 6 8)) in
     ¬ (Saved (message_to_serializable (plain 4 (Some (Date 2025 6 10))))
        ∈ lines_of (msg_files r.1) ("2025-06-10", "ch1")))
  ∧ (let r := scrape_channel world_B_seen "ch1" None true (Some (Date 2025 6 1)) None in
     Saved (message_to_serializable (plain 1 (Some (Date 2025 6 1))))
     ∈ lines_of (msg_files r.1) ("2025-06-01", "ch1")).
Proof.
  vm_compute. split_and!.
  - intros H. by apply elem_of_nil in H.
  - intros H. by apply elem_of_nil in H.
  - apply list_elem_of_singleton. reflexivity.
Qed.

(** ** Incremental scans *)

(** C3.  An incremental scan only appends to the logs, and no record it
    appends carries an id of the Dedup Index built for the source; the index
    holds every integer id found in the source's logs, so nothing already on
    disk is written again.  In scenario A (ids 1, 2, 3 logged, feed 5, 4, 3,
    2, 1, no date bounds) the scan appends the records of 5 and 4, in that
    order, and returns 2; a second scan of the same feed appends nothing and
    returns 0. *)
Theorem incremental_scan_appends_no_duplicate w channel limit since until :
  (∀ key, ∃ new,
      lines_of (msg_files (scrape_channel w channel limit true since until).1) key
      = (lines_of (msg_files w) key ++ (Saved ∘ message_to_serializable <$> new))%list
      ∧ Forall (λ m, m_id m ∉ load_seen_ids w channel) new
      ∧ Forall (λ m, ∀ d l, l ∈ lines_of (msg_files w) (d, sanitize_filename channel) →
                            line_id l ≠ Some (m_id m)) new)
  ∧ (scrape_channel world_A "news_x" None true None None).2 = Ret 2%nat
  ∧ lines_of (msg_files (scrape_channel world_A "news_x" None true None None).1)
      ("2025-06-02", "news_x")
    = [Saved (message_to_serializable (plain 5 (Some (Date 2025 6 2))));
       Saved (message_to_serializable (plain 4 (Some (Date 2025 6 2))))]
  ∧ lines_of (msg_files (scrape_channel world_A "news_x" None true None None).1)
      ("2025-05-30", "news_x")
    = lines_of (msg_files world_A) ("2025-05-30", "news_x")
  ∧ (let first := scrape_channel world_A_twice "news_x" None true None None in
     let again := scrape_channel first.1 "news_x" None true None None in
     again.2 = Ret 0%nat ∧ msg_files again.1 = msg_files first.1).
Proof.
  split; [|split; [by vm_compute|split; [by vm_compute|split; [by vm_compute|]]]];
    cycle 1.
  { intros first again.
    destruct (scrape_channel_spec first.1 "news_x" None true None None) as (E & _).
    cbv zeta in E. fold again in E. split; [by vm_compute|].
    rewrite E.
    replace (persisted _ _ _ _ _) with (@nil Message) by (by vm_compute).
    reflexivity. }
  intros key.
  destruct (scrape_channel_spec w channel limit true since until) as (E & _).
  cbv zeta in E. rewrite E, lines_of_saves.
  eexists. split; [done|].
  assert (Forall (λ m, m_id m ∉ load_seen_ids w channel)
            (filter (λ m, partition_of (today w) (sanitize_filename channel) m = key)
               (persisted (load_seen_ids w channel) since until (today w)
                  (iter_messages w channel limit).1))) as Hnew.
  { apply Forall_forall. intros m Hm. apply list_elem_of_filter in Hm as [_ Hm].
    by apply persisted_unseen in Hm. }
  split; [done|].
  eapply Forall_impl; [exact Hnew|]. intros m Hm d l Hl Hid.
  apply Hm. apply elem_of_load_seen_ids. by exists d, l.
Qed.

(** ** The item cap *)

Lemma cap_feed_yields n :
  ∀ events, (length (filter (λ ev, is_yield ev = true) (cap_feed n events)) ≤ n)%nat.
Proof.
  induction n as [|n IH]; intros [|[m|e] events]; cbn [cap_feed];
    rewrite ?filter_nil, ?filter_cons; cbn [is_yield].
  - simpl. lia.
  - simpl. lia.
  - simpl. lia.
  - simpl. lia.
  - rewrite decide_True by done. specialize (IH events). simpl. lia.
  - rewrite decide_False by done. rewrite filter_nil. simpl. lia.
Qed.

(** Saved and index-skipped messages are different feed entries. *)
Lemma persisted_skipped_yields seen since until td events :
  (length (persisted seen since until td events) + length (dedup_skipped seen events)
   ≤ length (filter (λ ev, is_yield ev = true) events))%nat.
Proof.
  unfold dedup_skipped.
  induction events as [|[[msg|]|e] rest IH]; cbn [persisted].
  - done.
  - rewrite !filter_cons. cbn [dedup_skip is_yield].
    rewrite (decide_True (P := true = true)) by done.
    destruct (decide (m_id msg ∈ seen)) as [Hin|Hout].
    + rewrite bool_decide_eq_true_2 by done.
      rewrite (decide_True (P := true = true)) by done. simpl. lia.
    + rewrite bool_decide_eq_false_2 by done.
      rewrite (decide_False (P := false = true)) by done.
      destruct (before_since since _); [simpl; lia|].
      destruct (at_or_after_until until _); simpl; lia.
  - rewrite !filter_cons. cbn [dedup_skip is_yield].
    rewrite (decide_True (P := true = true)) by done.
    rewrite (decide_False (P := false = true)) by done. simpl. lia.
  - rewrite !filter_cons. cbn [dedup_skip is_yield].
    rewrite !(decide_False (P := false = true)) by done. simpl. lia.
Qed.

(** C5 (as amended).  The cap is the number of messages the provider hands
    out, so a message the Dedup Index makes the scan skip uses up one unit of
    it although it is not counted as processed: the count returned is the
    number of messages saved, and the messages saved and the messages
    skipped for the index together never exceed the cap. *)
Theorem cap_includes_dedup_skips w channel n (incremental : bool) since until c :
  let seen : gset Z := if incremental then load_seen_ids w channel else ∅ in
  let events := (iter_messages w channel (Some n)).1 in
  (scrape_channel w channel (Some n) incremental since until).2 = Ret c →
  c = length (persisted seen since until (today w) events)
  ∧ (c + length (dedup_skipped seen events) ≤ n)%nat.
Proof.
  intros seen events Hc.
  destruct (scrape_channel_spec w channel (Some n) incremental since until)
    as (_ & _ & _ & Hcount).
  apply Hcount in Hc. fold seen events in Hc. subst c. split; [done|].
  etrans; [apply persisted_skipped_yields|].
  unfold events, iter_messages.
  destruct (feeds w !! channel) as [[|session later]|]; simpl; try lia.
  apply cap_feed_yields.
Qed.

Lemma cap_includes_dedup_skips_witness :
  (1 + length (dedup_skipped (load_seen_ids world_cap "news_x")
                 (iter_messages world_cap "news_x" (Some 3%nat)).1) ≤ 3)%nat.
Proof.
  exact (proj2 (cap_includes_dedup_skips world_cap "news_x" 3 true None None 1 eq_refl)).
Defined.

(** C5 as the specification words it fails: with a cap of 2 and the two
    newest messages already logged, the scan
    saves nothing, although the feed holds three messages that are not in the
    index and no date bound is set; without the cap it saves those three. *)
Lemma cap_spent_on_dedup_skips :
  (scrape_channel world_cap "news_x" (Some 2%nat) true None None).2 = Ret 0%nat
  ∧ msg_files (scrape_channel world_cap "news_x" (Some 2%nat) true None None).1
    = msg_files world_cap
  ∧ (scrape_channel world_cap "news_x" None true None None).2 = Ret 3%nat.
Proof.
  split; [by vm_compute|]. split; [|by vm_compute].
  destruct (scrape_channel_spec world_cap "news_x" (Some 2%nat) true None None)
    as (E & _).
  cbv zeta in E. rewrite E.
  replace (persisted _ _ _ _ _) with (@nil Message) by (by vm_compute).
  reflexivity.
Qed.

(** ** Messages without a timestamp, and failed downloads *)

(** A record that is in a log stays there for the rest of the scan. *)
Lemma scrape_loop_keeps sanitized seen since until events count w key line :
  line ∈ lines_of (msg_files w) key →
  line ∈ lines_of (msg_files (scrape_loop sanitized seen since until events count w).1) key.
Proof.
  intros Hl.
  destruct (scrape_loop_spec sanitized seen since until events count w) as (E & _).
  rewrite E, lines_of_saves. apply elem_of_app. by left.
Qed.

Lemma saved_world_line sanitized msg count w :
  Saved (message_to_serializable msg)
  ∈ lines_of (msg_files (saved_world sanitized msg count w))
      (isoformat (message_day w msg), sanitized).
Proof.
  destruct (saved_world_frame sanitized msg count w) as (E & _).
  rewrite E. unfold save, partition_of, message_day.
  rewrite lines_of_append, decide_True by done.
  apply elem_of_app. right. apply list_elem_of_singleton. done.
Qed.

(** A scan that returns has counted at least what it had counted before. *)
Lemma scrape_loop_count sanitized seen since until events count w c :
  (scrape_loop sanitized seen since until events count w).2 = Ret c → (count ≤ c)%nat.
Proof.
  intros Hc.
  destruct (scrape_loop_spec sanitized seen since until events count w)
    as (_ & _ & _ & _ & H).
  apply H in Hc. lia.
Qed.



(** C7.  When the download of a message's image runs out of attempts (the
    fourth generic failure, whatever rate-limit waits lie in between), the
    fetch returns [None]; the message's record, appended before the fetch,
    is in the log; the message is counted; and the scan goes on with the
    next event. *)
Theorem failed_download_keeps_message sanitized seen since until msg rest count w
    script cause later :
  let day := isoformat (message_day w msg) in
  let w1 := with_msg_files
              (append_line (day, sanitized) (Saved (message_to_serializable msg))
                 (msg_files w)) w in
  let r := scrape_loop sanitized seen since until (Yield (Some msg) :: rest) count w in
  m_id msg ∉ seen →
  before_since since (message_day w msg) = false →
  at_or_after_until until (message_day w msg) = false →
  is_image msg = true →
  downloads w = (script ++ DlError cause :: later)%list →
  forallb is_failure script = true →
  (generic_failures script + 1 = default_max_retries)%nat →
  (fetch_image sanitized msg day w1).2 = None
  ∧ downloads (fetch_image sanitized msg day w1).1 = later
  ∧ lines_of (msg_files (fetch_image sanitized msg day w1).1) (day, sanitized)
    = (lines_of (msg_files w) (day, sanitized) ++ [Saved (message_to_serializable msg)])%list
  ∧ r = scrape_loop sanitized seen since until rest (S count)
          (saved_world sanitized msg count w)
  ∧ Saved (message_to_serializable msg) ∈ lines_of (msg_files r.1) (day, sanitized)
  ∧ ∀ c, r.2 = Ret c → (count + 1 ≤ c)%nat.
Proof.
  intros day w1 r Hs Hb Hu Himg Hd Hf Hg. subst r.
  assert ((fetch_image sanitized msg day w1).2 = None
          ∧ downloads (fetch_image sanitized msg day w1).1 = later) as [Hnone Hlater].
  { unfold fetch_image.
    destruct (free_dest_spec (img_files w1) sanitized
                (image_name sanitized (m_id msg) day (extension msg)) (extension msg))
      as (dest & -> & _).
    destruct (download_with_retries_exhausted w1 dest default_max_retries script cause later)
      as (? & _ & ?); done. }
  split; [done|]. split; [done|]. split.
  { destruct (fetch_image_frame sanitized msg day w1) as (E & _). rewrite E. simpl.
    by rewrite lines_of_append, decide_True. }
  rewrite scrape_loop_save by done. split; [done|]. split.
  - apply scrape_loop_keeps, saved_world_line.
  - intros c Hc. apply scrape_loop_count in Hc. lia.
Qed.

Lemma failed_download_keeps_message_witness :
  let w := world_of ∅ "ch1" []
             [DlError "a"; DlFlood (Some 3%Z); DlError "b"; DlError "c"; DlError "d";
              DlResult true] in
  let msg := photo 9 (Some (Date 2025 6 2)) in
  let r := scrape_loop "ch1" ∅ None None
             [Yield (Some msg); Yield (Some (plain 8 (Some (Date 2025 6 2))))] 0 w in
  Saved (message_to_serializable msg) ∈ lines_of (msg_files r.1) ("2025-06-02", "ch1")
  ∧ ∀ c, r.2 = Ret c → (1 ≤ c)%nat.
Proof.
  intros w msg r.
  destruct (failed_download_keeps_message "ch1" ∅ None None msg
              [Yield (Some (plain 8 (Some (Date 2025 6 2))))] 0 w
              [DlError "a"; DlFlood (Some 3%Z); DlError "b"; DlError "c"] "d"
              [DlResult true] (not_elem_of_empty _) eq_refl eq_refl eq_refl eq_refl
              eq_refl eq_refl) as (_ & _ & _ & _ & Hin & Hcount).
  split; [exact Hin|exact Hcount].
Defined.

(** ** The run coordinator *)

(** X24.  When the scan of a source made inside the [try] block, the first
    scan of the source, ends with an exception other than the rate-limit
    one, the entry recorded for the source has [processed = 0] and the
    status [error:] followed by the cause, however many messages the scan
    had saved; those records are in the logs. *)
Theorem errored_source_reports_zero args ch w m w1 cause :
  let seen : gset Z := if incremental args then load_seen_ids w ch else ∅ in
  let saved := persisted seen (since args) (until args) (today w)
                 (iter_messages w ch (limit args)).1 in
  scrape_channel w ch (limit args) (incremental args) (since args) (until args)
  = (w1, Raise (OtherError cause)) →
  scrape_one args ch w m
  = (w1, Ret (set_result ch {| processed := 0; status := "error:" +:+ cause |} m))
  ∧ results (set_result ch {| processed := 0; status := "error:" +:+ cause |} m) !! ch
    = Some {| processed := 0; status := "error:" +:+ cause |}
  ∧ msg_files w1 = foldl (save (sanitize_filename ch) (today w)) (msg_files w) saved
  ∧ ∀ msg, msg ∈ saved →
           Saved (message_to_serializable msg)
           ∈ lines_of (msg_files w1) (partition_of (today w) (sanitize_filename ch) msg).
Proof.
  intros seen saved Hscan.
  destruct (scrape_channel_spec w ch (limit args) (incremental args) (since args)
              (until args)) as (E & _).
  cbv zeta in E. rewrite Hscan in E. simpl in E. fold seen saved in E.
  split_and!.
  - unfold scrape_one. by rewrite Hscan.
  - simpl. by rewrite lookup_insert_eq.
  - done.
  - intros msg Hmsg. rewrite E, lines_of_saves. apply elem_of_app. right.
    apply (list_elem_of_fmap_2 (Saved ∘ message_to_serializable)).
    by apply list_elem_of_filter.
Qed.

Lemma errored_source_reports_zero_witness :
  let w := world_of ∅ "news_x" [feed_broken] [] in
  let r := scrape_one (args_for ["news_x"]) "news_x" w
             {| run_id := 0; mf_channels := ["news_x"]; mf_limit := None;
                mf_incremental := false; mf_since := None; mf_until := None;
                started_at := 0; finished_at := None; results := ∅ |} in
  (∃ m, r.2 = Ret m
        ∧ results m !! "news_x"
          = Some {| processed := 0; status := "error:connection reset" |})
  ∧ length (lines_of (msg_files r.1) ("2025-06-03", "news_x")) = 2%nat.
Proof.
  intros w r.
  destruct (errored_source_reports_zero (args_for ["news_x"]) "news_x" w
              {| run_id := 0; mf_channels := ["news_x"]; mf_limit := None;
                 mf_incremental := false; mf_since := None; mf_until := None;
                 started_at := 0; finished_at := None; results := ∅ |}
              (scrape_channel w "news_x" None false None None).1 "connection reset"
              eq_refl) as (Hone & Hentry & Hfiles & _).
  subst r. rewrite Hone. split.
  - eexists. split; [reflexivity|exact Hentry].
  - cbn [fst]. rewrite Hfiles. vm_compute. reflexivity.
Defined.

(** The same run through [main]: the manifest says 0, the log has 2. *)
Example errored_source_manifest :
  let r := main 7 "hash" (args_for ["news_x"]) (world_of ∅ "news_x" [feed_broken] []) in
  r.2 = Completed
  ∧ (∃ m, manifest_files r.1 !! 0%Z = Some m
          ∧ results m !! "news_x"
            = Some {| processed := 0; status := "error:connection reset" |})
  ∧ length (lines_of (msg_files r.1) ("2025-06-03", "news_x")) = 2%nat.
Proof.
  vm_compute. split; [done|]. split; [|done]. eexists. split; reflexivity.
Qed.

(** A run that does not complete leaves the manifest directory as it found
    it. *)
Lemma scrape_one_manifest_files args ch w m :
  manifest_files (scrape_one args ch w m).1 = manifest_files w.
Proof.
  unfold scrape_one.
  destruct (scrape_channel_spec w ch (limit args) (incremental args) (since args)
              (until args)) as (_ & E & _).
  cbv zeta in E.
  destruct (scrape_channel w ch _ _ _ _) as [w1 [n|[s|cause]]]; simpl in *; try done.
  set (w2 := sleep _ w1).
  destruct (scrape_channel_spec w2 ch (limit args) (incremental args) (since args)
              (until args)) as (_ & E2 & _).
  cbv zeta in E2.
  destruct (scrape_channel w2 ch _ _ _ _) as [w3 [n|e]]; simpl in *;
    by rewrite E2.
Qed.

Lemma scrape_all_manifest_files args chs :
  ∀ w m, manifest_files (scrape_all args chs w m).1 = manifest_files w.
Proof.
  induction chs as [|ch chs IH]; intros w m; simpl; [done|].
  pose proof (scrape_one_manifest_files args ch w m) as E.
  destruct (scrape_one args ch w m) as [w1 [m1|e]]; simpl in *; [|done].
  by rewrite IH.
Qed.

Lemma main_aborted_no_manifest api_id api_hash args w w' e :
  main api_id api_hash args w = (w', Aborted e) →
  manifest_files w' = manifest_files w.
Proof.
  unfold main. destruct (_ || _); [done|].
  destruct (requested_channels args) as [|ch chs] eqn:Hch; [done|].
  set (m0 := Build_Manifest _ _ _ _ _ _ _ _ _).
  pose proof (scrape_all_manifest_files args (ch :: chs) w m0) as E.
  destruct (scrape_all args (ch :: chs) w m0) as [w1 [m|e']]; [done|].
  intros [= <- <-]. done.
Qed.

(** C10 (the code departs from it).  A source whose first scan is
    rate-limited and whose second scan, made inside the handler, saves two
    messages and then ends with another exception gets no entry at all: the
    exception ends the run, no manifest file is written, and the two records
    are in the log. *)
Theorem retry_error_leaves_no_entry :
  let r := main 7 "hash" (args_for ["news_x"]) world_retry_broken in
  r.2 = Aborted (OtherError "connection reset")
  ∧ manifest_files r.1 = ∅
  ∧ lines_of (msg_files r.1) ("2025-06-03", "news_x")
    = [Saved (message_to_serializable (plain 12 (Some (Date 2025 6 3))));
       Saved (message_to_serializable (plain 11 (Some (Date 2025 6 3))))]
  ∧ slept r.1 = [Seconds 76].
Proof. by vm_compute. Qed.

(** C2 (the code departs from it).  A source that is rate-limited and then
    rate-limited again on its one retry ends the run with the exception: no
    manifest file is written. *)
Theorem retry_failure_aborts_run :
  let r := main 7 "hash" (args_for ["news_x"]) world_flooded in
  r.2 = Aborted (FloodWaitError (Some 5%Z))
  ∧ manifest_files r.1 = ∅
  ∧ slept r.1 = [Seconds 6].
Proof. by vm_compute. Qed.

(** ** The clock *)

Lemma delay_ms_nonneg d : (0 ≤ delay_ms d)%Z.
Proof. destruct d; simpl; lia. Qed.

Lemma sleep_now d w : (now w ≤ now (sleep d w))%Z.
Proof. pose proof (delay_ms_nonneg d). simpl. lia. Qed.

Lemma download_loop_now fuel :
  ∀ mx attempt dest w, (now w ≤ now (download_loop fuel mx attempt dest w).1)%Z.
Proof.
  induction fuel as [|fuel IH]; intros mx attempt dest w; simpl; [lia|].
  destruct (attempt <? mx)%nat; [|simpl; lia].
  unfold next_download. destruct (downloads w) as [|[[|]|s|c] rest]; simpl; try lia.
  - etrans; [|apply IH]. apply sleep_now.
  - etrans; [|apply IH]. pose proof (delay_ms_nonneg (Seconds (flood_seconds s + 1))).
    simpl in *. lia.
  - etrans; [|apply IH].
    pose proof (delay_ms_nonneg (Seconds (2 ^ Z.of_nat (S attempt)))).
    simpl in *. lia.
Qed.

Lemma saved_world_now sanitized msg count w :
  (now w ≤ now (saved_world sanitized msg count w))%Z.
Proof.
  unfold saved_world. set (w1 := with_msg_files _ w).
  assert (now w ≤ now (if is_image msg
                       then (fetch_image sanitized msg (isoformat (message_day w msg)) w1).1
                       else w1))%Z as H.
  { destruct (is_image msg); [|simpl; lia].
    unfold fetch_image. destruct (free_dest _ _ _ _); [|simpl; lia].
    etrans; [|apply download_loop_now]. simpl. lia. }
  destruct (_ =? _)%nat; [|done]. etrans; [exact H|]. apply sleep_now.
Qed.

Lemma scrape_loop_now sanitized seen since until events :
  ∀ count w, (now w ≤ now (scrape_loop sanitized seen since until events count w).1)%Z.
Proof.
  induction events as [|[[msg|]|e] rest IH]; intros count w.
  - simpl. lia.
  - destruct (decide (m_id msg ∈ seen)) as [Hin|Hout].
    { rewrite scrape_loop_seen by done. apply IH. }
    destruct (before_since since (message_day w msg)) eqn:Hb.
    { rewrite scrape_loop_halt by done. simpl. lia. }
    destruct (at_or_after_until until (message_day w msg)) eqn:Hu.
    { rewrite scrape_loop_until by done. apply IH. }
    rewrite scrape_loop_save by done.
    etrans; [apply (saved_world_now sanitized msg count w)|apply IH].
  - apply IH.
  - simpl. lia.
Qed.

Lemma scrape_channel_now w channel limit incremental since until :
  (now w ≤ now (scrape_channel w channel limit incremental since until).1)%Z.
Proof.
  rewrite scrape_channel_unfold. etrans; [|apply scrape_loop_now].
  unfold iter_messages. destruct (feeds w !! channel) as [[|session later]|]; simpl; lia.
Qed.

(** ** How a run can end *)

(** One source leaves the loop of [main] by an exception only when its scan
    was rate-limited and the retry raised. *)
Lemma scrape_one_raise args ch w m w' e :
  scrape_one args ch w m = (w', Raise e) →
  ∃ s w1,
    scrape_channel w ch (limit args) (incremental args) (since args) (until args)
    = (w1, Raise (FloodWaitError s))
    ∧ scrape_channel (sleep (Seconds (flood_seconds s + 1)) w1) ch (limit args)
        (incremental args) (since args) (until args)
      = (w', Raise e).
Proof.
  unfold scrape_one.
  destruct (scrape_channel w ch _ _ _ _) as [w1 [n|[s|cause]]]; [done| |done].
  destruct (scrape_channel (sleep _ w1) ch _ _ _ _) as [w3 [n|e']] eqn:E; [done|].
  intros [= <- <-]. by exists s, w1.
Qed.

(** Otherwise it records one entry, for itself, and touches nothing else of
    the manifest. *)
Lemma scrape_one_ret args ch w m w' m' :
  scrape_one args ch w m = (w', Ret m') →
  ∃ entry, m' = set_result ch entry m.
Proof.
  unfold scrape_one.
  destruct (scrape_channel w ch _ _ _ _) as [w1 [n|[s|cause]]].
  - intros [= <- <-]. by eexists.
  - destruct (scrape_channel (sleep _ w1) ch _ _ _ _) as [w3 [n|e']]; [|done].
    intros [= <- <-]. by eexists.
  - intros [= <- <-]. by eexists.
Qed.

Lemma scrape_one_now args ch w m : (now w ≤ now (scrape_one args ch w m).1)%Z.
Proof.
  unfold scrape_one.
  pose proof (scrape_channel_now w ch (limit args) (incremental args) (since args)
                (until args)) as H1.
  destruct (scrape_channel w ch _ _ _ _) as [w1 [n|[s|cause]]]; simpl in *; try done.
  pose proof (scrape_channel_now (sleep (Seconds (flood_seconds s + 1)) w1) ch
                (limit args) (incremental args) (since args) (until args)) as H2.
  pose proof (sleep_now (Seconds (flood_seconds s + 1)) w1) as H3.
  destruct (scrape_channel (sleep _ w1) ch _ _ _ _) as [w3 [n|e']]; simpl in *; lia.
Qed.

Lemma scrape_all_ret args chs :
  ∀ w m w' m',
    scrape_all args chs w m = (w', Ret m') →
    dom (results m') = dom (results m) ∪ list_to_set chs
    ∧ run_id m' = run_id m ∧ mf_channels m' = mf_channels m
    ∧ started_at m' = started_at m ∧ finished_at m' = finished_at m
    ∧ (now w ≤ now w')%Z.
Proof.
  induction chs as [|ch chs IH]; intros w m w' m'; simpl.
  - intros [= <- <-]. split_and!; try done. by rewrite (right_id_L ∅ (∪)).
  - pose proof (scrape_one_now args ch w m) as Hnow.
    destruct (scrape_one args ch w m) as [w1 [m1|e]] eqn:E; [|done].
    apply scrape_one_ret in E as [entry ->]. intros H.
    apply IH in H as (Hd & ? & ? & ? & ? & ?). simpl in *.
    split_and!; try done; [|lia].
    rewrite Hd, dom_insert_L, (comm_L (∪) {[ch]}), <- (assoc_L (∪)). done.
Qed.

(** A run that completes has written its manifest: one file, named after the
    start of the run, with an entry for each requested channel and the start
    and end times of the run. *)
Lemma main_completed_manifest api_id api_hash args w w' :
  main api_id api_hash args w = (w', Completed) →
  ∃ m,
    manifest_files w' = <[(now w / 1000)%Z := m]> (manifest_files w)
    ∧ mf_channels m = requested_channels args
    ∧ dom (results m) = list_to_set (requested_channels args)
    ∧ started_at m = now w ∧ finished_at m = Some (now w')
    ∧ (now w ≤ now w')%Z.
Proof.
  unfold main. destruct (_ || _); [done|].
  destruct (requested_channels args) as [|ch chs] eqn:Hch; [done|].
  set (m0 := Build_Manifest _ _ _ _ _ _ _ _ _).
  pose proof (scrape_all_manifest_files args (ch :: chs) w m0) as Hmf.
  destruct (scrape_all args (ch :: chs) w m0) as [w1 [m|e']] eqn:E; [|done].
  apply scrape_all_ret in E as (Hd & Hid & Hchs & Hst & Hfin & Hnow).
  simpl in Hmf. intros [= <-]. exists (set_finished (now w1) m).
  cbn [set_finished run_id mf_channels results started_at finished_at
       with_manifest_files manifest_files now].
  rewrite Hid, Hmf, Hchs, Hd, Hst. subst m0. simpl.
  split_and!; try done. by rewrite dom_empty_L, (left_id_L ∅ (∪)).
Qed.

(** A run ends in one of four ways: at startup for lack of credentials, with
    no channel to scan, with its manifest written, or by the exception of a
    retried scan; only the third writes a manifest. *)
Lemma main_outcomes api_id api_hash args w :
  let r := main api_id api_hash args w in
  (r = (w, Exited 1) ∧ (api_id = 0%Z ∨ api_hash = ""))
  ∨ (r = (w, NoChannels) ∧ requested_channels args = [])
  ∨ (r.2 = Completed ∧ is_Some (manifest_files r.1 !! (now w / 1000)%Z))
  ∨ (∃ e, r.2 = Aborted e ∧ manifest_files r.1 = manifest_files w).
Proof.
  intros r. subst r.
  destruct (main api_id api_hash args w) as [w' o] eqn:E. destruct o as [code| | |e].
  - left. revert E. unfold main.
    destruct (bool_decide (api_id = 0%Z)) eqn:H1; simpl.
    { intros [= <- <-]. apply bool_decide_eq_true_1 in H1. auto. }
    destruct (bool_decide (api_hash = "")) eqn:H2; simpl.
    { intros [= <- <-]. apply bool_decide_eq_true_1 in H2. auto. }
    destruct (requested_channels args); [done|].
    by destruct (scrape_all _ _ _ _) as [? [?|?]].
  - right. left. revert E. unfold main. destruct (_ || _); [done|].
    destruct (requested_channels args); [by intros [= <-]|].
    by destruct (scrape_all _ _ _ _) as [? [?|?]].
  - right. right. left. split; [done|].
    apply main_completed_manifest in E as (m & Hm & _). simpl.
    rewrite Hm, lookup_insert_eq. by eexists.
  - right. right. right. exists e. split; [done|].
    by apply main_aborted_no_manifest in E.
Qed.

(** ** Characters of the names the scraper builds *)

Lemma app_nil_r_str s : s +:+ "" = s.
Proof. induction s as [|c s IH]; [done|]. by rewrite app_cons, IH. Qed.

Lemma app_assoc_str a b c : (a +:+ b) +:+ c = a +:+ (b +:+ c).
Proof. induction a as [|x a IH]; [done|]. by rewrite !app_cons, IH. Qed.

Lemma all_chars_app p a b : all_chars p (a +:+ b) = all_chars p a && all_chars p b.
Proof.
  induction a as [|x a IH]; [done|]. rewrite app_cons. simpl.
  by rewrite IH, andb_assoc.
Qed.

(** The digits of a number, written in front of [s]. *)
Lemma pretty_N_go_chars p x :
  (∀ d, (d < 10)%N → p (pretty_N_char d) = true) →
  ∀ s, all_chars p s = true → all_chars p (pretty_N_go x s) = true.
Proof.
  intros Hp. induction (N.lt_wf_0 x) as [x _ IH]. intros s Hs.
  destruct (decide (0 < x)%N) as [Hpos|Hz].
  - rewrite pretty_N_go_step by done. apply IH.
    + by apply N.div_lt.
    + simpl. rewrite Hs, Hp; [done|]. by apply N.mod_lt.
  - replace x with 0%N by lia. by rewrite pretty_N_go_0.
Qed.

Lemma pretty_N_chars p (x : N) :
  (∀ d, (d < 10)%N → p (pretty_N_char d) = true) → all_chars p (pretty x) = true.
Proof.
  intros Hp. unfold pretty, pretty_N. case_decide.
  - assert (p (pretty_N_char 0) = true) as H0 by (apply Hp; lia).
    simpl in *. by rewrite H0.
  - by apply pretty_N_go_chars.
Qed.

Lemma digit_chars d : (d < 10)%N → Text.is_digit (pretty_N_char d) = true.
Proof.
  intros Hd.
  assert (d = 0 ∨ d = 1 ∨ d = 2 ∨ d = 3 ∨ d = 4 ∨ d = 5 ∨ d = 6 ∨ d = 7 ∨ d = 8
          ∨ d = 9)%N as Hcases by lia.
  repeat (destruct Hcases as [->|Hcases]; [reflexivity|]). by subst.
Qed.

Lemma digit_not_slash c : Text.is_digit c = true → not_slash c = true.
Proof.
  intros Hc. unfold not_slash. case_bool_decide as E; [|done]. by subst.
Qed.

Lemma str_Z_digits (n : Z) : (0 ≤ n)%Z → all_chars Text.is_digit (Text.str_Z n) = true.
Proof.
  intros Hn. unfold Text.str_Z, pretty, pretty_Z. destruct n as [|q|q]; [done| |lia].
  apply (pretty_N_chars _ (Npos q)), digit_chars.
Qed.

Lemma str_Z_no_slash (n : Z) : all_chars not_slash (Text.str_Z n) = true.
Proof.
  assert (∀ q : positive, all_chars not_slash (pretty q) = true) as Hpos.
  { intros q. apply (pretty_N_chars _ (Npos q)). intros d Hd.
    by apply digit_not_slash, digit_chars. }
  unfold Text.str_Z, pretty at 1, pretty_Z. destruct n as [|q|q]; [done|apply Hpos|].
  rewrite all_chars_app, Hpos. done.
Qed.

Lemma str_Z_nonempty (n : Z) : Text.str_Z n ≠ "".
Proof.
  assert (∀ x s, s ≠ "" → pretty_N_go x s ≠ "") as Hgo.
  { intros x. induction (N.lt_wf_0 x) as [x _ IH]. intros s Hs.
    destruct (decide (0 < x)%N) as [Hpos|Hz].
    - rewrite pretty_N_go_step by done. apply IH; [by apply N.div_lt|done].
    - replace x with 0%N by lia. by rewrite pretty_N_go_0. }
  assert (∀ q : positive, pretty q ≠ "") as Hpos.
  { intros q. unfold pretty, pretty_positive, pretty, pretty_N.
    rewrite decide_False by done. rewrite pretty_N_go_step by lia. by apply Hgo. }
  unfold Text.str_Z, pretty, pretty_Z. destruct n as [|q|q]; [done|apply Hpos|done].
Qed.

Lemma zero_pad_chars p width s :
  p "0"%char = true → all_chars p s = true → all_chars p (zero_pad width s) = true.
Proof.
  intros H0 Hs. unfold zero_pad.
  induction (width - String.length s)%nat as [|k IH]; simpl; [done|].
  by rewrite H0, IH.
Qed.

Lemma isoformat_no_slash d : all_chars not_slash (isoformat d) = true.
Proof.
  assert (∀ w (x : N), all_chars not_slash (zero_pad w (pretty x)) = true) as Hpad.
  { intros w x. apply zero_pad_chars; [done|]. apply pretty_N_chars.
    intros c Hc. by apply digit_not_slash, digit_chars. }
  unfold isoformat. rewrite !all_chars_app, !Hpad. done.
Qed.

(** [sanitize_filename] lets through only the characters of its class and
    the underscore; the slash is not among them. *)
Lemma sub_runs_no_slash s : ∀ in_run, all_chars not_slash (Text.sub_runs in_run s) = true.
Proof.
  induction s as [|c s IH]; intros in_run; simpl; [done|].
  destruct (Text.kept c) eqn:Hk.
  - simpl. rewrite IH, andb_true_r. unfold not_slash.
    case_bool_decide as E; [|done]. subst c. vm_compute in Hk. discriminate.
  - destruct in_run; [apply IH|]. simpl. by rewrite IH.
Qed.

Lemma sanitize_no_slash channel : all_chars not_slash (sanitize_filename channel) = true.
Proof. apply sub_runs_no_slash. Qed.

(** ** [Path.stem] of an image name *)

Lemma rev_app_app a : ∀ b c, String.rev_app a b +:+ c = String.rev_app a (b +:+ c).
Proof. induction a as [|x a IH]; intros b c; simpl; [done|]. by rewrite IH. Qed.

Lemma split_slash_none s :
  ∀ cur, all_chars not_slash s = true →
         PurePath.split_slash cur s = [String.rev cur +:+ s].
Proof.
  induction s as [|c s IH]; intros cur; cbn [PurePath.split_slash all_chars].
  - intros _. by rewrite app_nil_r_str.
  - intros [Hc Hs]%andb_true_iff. unfold not_slash in Hc.
    destruct (decide (c = "/"%char)) as [->|Hne]; [done|].
    rewrite IH by done. unfold String.rev. cbn [String.rev_app].
    rewrite !rev_app_app. reflexivity.
Qed.

Lemma name_plain s :
  all_chars not_slash s = true → s ≠ "" → s ≠ "." → PurePath.name s = s.
Proof.
  intros Hs H1 H2. unfold PurePath.name. rewrite split_slash_none by done.
  change (String.rev "" +:+ s) with s.
  rewrite filter_cons, decide_True by done. done.
Qed.

Lemma rfind_dot_none s : all_chars not_dot s = true → PurePath.rfind_dot s = None.
Proof.
  induction s as [|c s IH]; cbn [PurePath.rfind_dot all_chars]; [done|].
  intros [Hc Hs]%andb_true_iff. rewrite IH by done. unfold not_dot in Hc.
  destruct (decide (c = "."%char)) as [->|Hne]; done.
Qed.

Lemma rfind_dot_app a s :
  all_chars not_dot s = true →
  PurePath.rfind_dot (a +:+ String "." s) = Some (String.length a).
Proof.
  intros Hs. induction a as [|x a IH].
  - change ("" +:+ String "." s) with (String "." s). cbn [PurePath.rfind_dot].
    rewrite rfind_dot_none by done. by rewrite decide_True.
  - rewrite app_cons. cbn [PurePath.rfind_dot String.length]. by rewrite IH.
Qed.

Lemma take_str_app a b : PurePath.take_str (String.length a) (a +:+ b) = a.
Proof. induction a as [|x a IH]; [by destruct b|]. rewrite app_cons. simpl. by rewrite IH. Qed.

(** The stem of [base] followed by a one-dot extension is [base]. *)
Lemma stem_of_name base s :
  all_chars not_slash base = true → all_chars not_slash s = true →
  all_chars not_dot s = true → base ≠ "" → s ≠ "" →
  PurePath.stem (base +:+ String "." s) = base.
Proof.
  intros Hb Hs Hd Hne Hsne. unfold PurePath.stem.
  rewrite name_plain; first last.
  - destruct base as [|x [|y base]]; [done|..]; rewrite ?app_cons; [|done].
    change ("" +:+ String "." s) with (String "." s). by destruct s.
  - destruct base; [done|]. by rewrite app_cons.
  - rewrite all_chars_app, Hb. simpl. by rewrite Hs.
  - unfold PurePath.suffix_start. rewrite rfind_dot_app by done.
    rewrite app_length. simpl String.length.
    assert (0 < String.length base)%nat as Hlen by (destruct base; [done|simpl; lia]).
    assert (0 < String.length s)%nat as Hlen' by (destruct s; [done|simpl; lia]).
    replace (0 <? String.length base)%nat with true by (symmetry; apply Nat.ltb_lt; lia).
    replace (String.length base <? String.length base + S (String.length s) - 1)%nat
      with true by (symmetry; apply Nat.ltb_lt; lia).
    simpl. apply take_str_app.
Qed.

(** With the default extension the stem of an image name is the name without
    [.jpg], so the numbered name is the plain one with [_i] put in front of
    the extension. *)
Lemma stem_of_image_name channel msg_id d :
  PurePath.stem (image_name (sanitize_filename channel) msg_id (isoformat d) ".jpg")
  = sanitize_filename channel +:+ "_" +:+ Text.str_Z msg_id +:+ "_" +:+ isoformat d.
Proof.
  unfold image_name.
  set (base := sanitize_filename channel +:+ "_" +:+ Text.str_Z msg_id +:+ "_"
               +:+ isoformat d).
  assert (sanitize_filename channel +:+ "_" +:+ Text.str_Z msg_id +:+ "_"
          +:+ isoformat d +:+ ".jpg" = base +:+ String "." "jpg") as ->.
  { unfold base. by rewrite !app_assoc_str. }
  apply stem_of_name; try done.
  - unfold base.
    rewrite !all_chars_app, sanitize_no_slash, str_Z_no_slash, isoformat_no_slash. done.
  - unfold base. destruct (sanitize_filename channel); [done|]. by rewrite app_cons.
Qed.

(** ** Reading a number back from its digits *)

Lemma int_of_digits_from_acc s :
  ∀ acc, Text.int_of_digits_from acc s
         = (acc * 10 ^ Z.of_nat (String.length s) + Text.int_of_digits_from 0 s)%Z.
Proof.
  induction s as [|c s IH]; intros acc; cbn [Text.int_of_digits_from String.length].
  - simpl. lia.
  - rewrite (IH (10 * acc + Text.digit_value c)%Z), (IH (10 * 0 + Text.digit_value c)%Z).
    rewrite Nat2Z.inj_succ, Z.pow_succ_r by lia. lia.
Qed.

Lemma digit_value_char d : (d < 10)%N → Text.digit_value (pretty_N_char d) = Z.of_N d.
Proof.
  intros Hd.
  assert (d = 0 ∨ d = 1 ∨ d = 2 ∨ d = 3 ∨ d = 4 ∨ d = 5 ∨ d = 6 ∨ d = 7 ∨ d = 8
          ∨ d = 9)%N as Hcases by lia.
  repeat (destruct Hcases as [->|Hcases]; [reflexivity|]). by subst.
Qed.

Lemma int_of_pretty_N_go x :
  ∀ s, Text.int_of_digits_from 0 (pretty_N_go x s)
       = (Z.of_N x * 10 ^ Z.of_nat (String.length s) + Text.int_of_digits_from 0 s)%Z.
Proof.
  induction (N.lt_wf_0 x) as [x _ IH]. intros s.
  destruct (decide (0 < x)%N) as [Hpos|Hz].
  - rewrite pretty_N_go_step by done. rewrite IH by (by apply N.div_lt).
    cbn [Text.int_of_digits_from String.length].
    rewrite (int_of_digits_from_acc s (10 * 0 + _)%Z).
    rewrite digit_value_char by (by apply N.mod_lt).
    rewrite Nat2Z.inj_succ, Z.pow_succ_r by lia.
    rewrite (N.div_mod x 10) at 3 by done. rewrite N2Z.inj_add, N2Z.inj_mul.
    change (Z.of_N 10) with 10%Z. lia.
  - replace x with 0%N by lia. rewrite pretty_N_go_0. simpl. lia.
Qed.

(** [int(str(n)) == n] for a non-negative [n]. *)
Lemma int_of_str_Z (n : Z) : (0 ≤ n)%Z → Text.int_of_digits (Text.str_Z n) = n.
Proof.
  intros Hn. unfold Text.int_of_digits, Text.str_Z, pretty, pretty_Z.
  destruct n as [|q|q]; [done| |lia].
  unfold pretty, pretty_positive, pretty, pretty_N. rewrite decide_False by done.
  rewrite int_of_pretty_N_go. simpl. lia.
Qed.

(** ** The first run of digits of an image name *)

Lemma first_digit_run_skip a b :
  all_chars not_digit a = true →
  Text.first_digit_run (a +:+ b) = Text.first_digit_run b.
Proof.
  induction a as [|c a IH]; [done|]. rewrite app_cons.
  cbn [all_chars Text.first_digit_run]. intros [Hc Ha]%andb_true_iff.
  unfold not_digit in Hc. apply negb_true_iff in Hc. rewrite Hc. by apply IH.
Qed.

Lemma take_digits_run ds c rest :
  all_chars Text.is_digit ds = true → Text.is_digit c = false →
  Text.take_digits (ds +:+ String c rest) = ds.
Proof.
  intros Hds Hc. induction ds as [|x ds IH].
  - change ("" +:+ String c rest) with (String c rest). simpl. by rewrite Hc.
  - rewrite app_cons. cbn [all_chars Text.take_digits] in *.
    apply andb_true_iff in Hds as [Hx Hds]. by rewrite Hx, IH.
Qed.

Lemma first_digit_run_digits ds c rest :
  ds ≠ "" → all_chars Text.is_digit ds = true → Text.is_digit c = false →
  Text.first_digit_run (ds +:+ String c rest) = Some ds.
Proof.
  intros Hne Hds Hc. destruct ds as [|x ds]; [done|]. rewrite app_cons.
  cbn [all_chars Text.first_digit_run] in *.
  apply andb_true_iff in Hds as [Hx Hds]. by rewrite Hx, take_digits_run.
Qed.

(** When the sanitized channel name has no digit in it, the id read back
    from the name of a [.jpg] image is the id of its message. *)
Lemma extract_message_id_digit_free channel (msg_id : Z) d :
  (0 ≤ msg_id)%Z →
  all_chars not_digit (sanitize_filename channel) = true →
  extract_message_id
    (image_name (sanitize_filename channel) msg_id (isoformat d) ".jpg")
  = Some msg_id.
Proof.
  intros Hid Hch. unfold extract_message_id. rewrite stem_of_image_name.
  rewrite first_digit_run_skip by done.
  change ("_" +:+ Text.str_Z msg_id +:+ "_" +:+ isoformat d)
    with (String "_" (Text.str_Z msg_id +:+ String "_" (isoformat d))).
  cbn [Text.first_digit_run]. change (Text.is_digit "_") with false. cbv iota.
  rewrite first_digit_run_digits;
    [|apply str_Z_nonempty|by apply str_Z_digits|done].
  simpl. by rewrite int_of_str_Z.
Qed.


(** ** Image names and the id read back from them *)

(** C6 (the code departs from it).  For the channel [CheMed123] the image of
    message 42 is stored as [CheMed123_42_2025-06-01.jpg], and the first run
    of digits in that name is 123. *)
Theorem digit_channel_breaks_id_extraction :
  let r := scrape_channel world_digits "CheMed123" None false None None in
  elements (img_files r.1) = [("CheMed123", "CheMed123_42_2025-06-01.jpg")]
  ∧ extract_message_id "CheMed123_42_2025-06-01.jpg" = Some 123%Z
  ∧ extract_message_id "CheMed123_42_2025-06-01.jpg" ≠ Some 42%Z.
Proof. vm_compute. split; [reflexivity|]. split; [reflexivity|]. intros [=]. Qed.

(** ** [sanitize_filename] *)

Lemma sub_runs_kept_chars s : ∀ in_run, all_chars Text.kept (Text.sub_runs in_run s) = true.
Proof.
  induction s as [|c s IH]; intros in_run; cbn [Text.sub_runs]; [done|].
  destruct (Text.kept c) eqn:Hk.
  - cbn [all_chars]. by rewrite Hk, IH.
  - destruct in_run; [apply IH|]. cbn [all_chars]. by rewrite IH.
Qed.

Lemma sub_runs_id s :
  ∀ in_run, all_chars Text.kept s = true → Text.sub_runs in_run s = s.
Proof.
  induction s as [|c s IH]; intros in_run; cbn [Text.sub_runs all_chars]; [done|].
  intros [Hc Hs]%andb_true_iff. by rewrite Hc, IH.
Qed.

Lemma rstrip_cons c s :
  Text.rstrip s = s → s ≠ "" → Text.rstrip (String c s) = String c s.
Proof. intros Hs Hne. cbn [Text.rstrip]. rewrite Hs. by destruct s. Qed.

Lemma rstrip_single c : Text.is_space c = false → Text.rstrip (String c "") = String c "".
Proof. intros Hc. cbn [Text.rstrip]. by rewrite Hc. Qed.

Lemma rstrip_fixed_cases c s :
  Text.rstrip (String c s) = String c s →
  (s = "" ∧ Text.is_space c = false) ∨ (s ≠ "" ∧ Text.rstrip s = s).
Proof.
  cbn [Text.rstrip]. destruct (Text.rstrip s) as [|d t] eqn:E.
  - destruct (Text.is_space c); [done|]. intros [= <-]. by left.
  - intros [= <-]. by right.
Qed.

Lemma rstrip_idem s : Text.rstrip (Text.rstrip s) = Text.rstrip s.
Proof.
  induction s as [|c s IH]; [done|]. cbn [Text.rstrip].
  destruct (Text.rstrip s) as [|d t] eqn:E.
  - destruct (Text.is_space c) eqn:Hc; [done|]. by apply rstrip_single.
  - by apply rstrip_cons.
Qed.

Lemma sub_runs_nonempty s : s ≠ "" → Text.sub_runs false s ≠ "".
Proof. destruct s as [|c s]; [done|]. intros _. cbn [Text.sub_runs]. by destruct (Text.kept c). Qed.

Lemma sub_runs_rstrip s :
  ∀ in_run, Text.rstrip s = s →
            Text.rstrip (Text.sub_runs in_run s) = Text.sub_runs in_run s.
Proof.
  induction s as [|c s IH]; intros in_run Hs; [done|].
  apply rstrip_fixed_cases in Hs as [[-> Hc]|[Hne Hs]]; cbn [Text.sub_runs].
  - destruct (Text.kept c); [by apply rstrip_single|].
    destruct in_run; [done|]. by apply rstrip_single.
  - destruct (Text.kept c).
    + apply rstrip_cons; [by apply IH|by apply sub_runs_nonempty].
    + destruct in_run; [by apply IH|].
      destruct (Text.sub_runs true s) as [|d t] eqn:E; [by apply rstrip_single|].
      apply rstrip_cons; [|done]. rewrite <- E. by apply IH.
Qed.

Lemma lstrip_fixed c s : Text.is_space c = false → Text.lstrip (String c s) = String c s.
Proof. intros Hc. cbn [Text.lstrip]. by rewrite Hc. Qed.

(** What is left of [lstrip] does not start with white space, and [rstrip]
    keeps the first character of what it leaves. *)
Lemma lstrip_head s c r : Text.lstrip s = String c r → Text.is_space c = false.
Proof.
  induction s as [|x s IH]; [done|]. cbn [Text.lstrip].
  destruct (Text.is_space x) eqn:Hx; [done|]. by intros [= <- <-].
Qed.

Lemma rstrip_head s c r : Text.rstrip s = String c r → ∃ r', s = String c r'.
Proof.
  destruct s as [|x s]; [done|]. cbn [Text.rstrip].
  destruct (Text.rstrip s); [destruct (Text.is_space x)|]; [done|..];
    intros [= <- <-]; by eexists.
Qed.

Lemma strip_head s c r : Text.strip s = String c r → Text.is_space c = false.
Proof.
  unfold Text.strip. intros H. apply rstrip_head in H as [r' H].
  by apply lstrip_head in H.
Qed.

Lemma sub_runs_head s c r :
  Text.sub_runs false s = String c r →
  ∃ x r', s = String x r' ∧ (c = x ∨ c = "_"%char).
Proof.
  destruct s as [|x s]; [done|]. cbn [Text.sub_runs].
  destruct (Text.kept x); intros [= <- <-]; eauto.
Qed.

Lemma sub_runs_length s : ∀ in_run,
  (String.length (Text.sub_runs in_run s) ≤ String.length s)%nat.
Proof.
  induction s as [|c s IH]; intros in_run; cbn [Text.sub_runs String.length]; [lia|].
  destruct (Text.kept c).
  - cbn [String.length]. specialize (IH false). lia.
  - destruct in_run.
    + specialize (IH true). lia.
    + cbn [String.length]. specialize (IH true). lia.
Qed.

Lemma lstrip_length s : (String.length (Text.lstrip s) ≤ String.length s)%nat.
Proof.
  induction s as [|c s IH]; cbn [Text.lstrip String.length]; [lia|].
  destruct (Text.is_space c); cbn [String.length]; lia.
Qed.

Lemma rstrip_length s : (String.length (Text.rstrip s) ≤ String.length s)%nat.
Proof.
  induction s as [|c s IH]; cbn [Text.rstrip String.length]; [lia|].
  destruct (Text.rstrip s) as [|d t].
  - destruct (Text.is_space c); cbn [String.length]; lia.
  - cbn [String.length] in *. lia.
Qed.

(** X1.  For a name of ASCII characters, [sanitize_filename] gives a name
    made only of ASCII letters, digits, [_], [-], [.] and the space, which
    is never longer than the name it was given; in particular the result
    holds no path separator. *)
Theorem sanitize_filename_chars name :
  all_chars is_ascii name = true →
  all_chars Text.kept (sanitize_filename name) = true
  ∧ all_chars not_slash (sanitize_filename name) = true
  ∧ (String.length (sanitize_filename name) ≤ String.length name)%nat.
Proof.
  intros _. split_and!; [apply sub_runs_kept_chars | apply sub_runs_no_slash |].
  unfold sanitize_filename, Text.strip.
  etrans; [apply sub_runs_length|]. etrans; [apply rstrip_length|]. apply lstrip_length.
Qed.

Lemma sanitize_filename_chars_witness :
  all_chars Text.kept (sanitize_filename "  Che/Med 123?!..  ") = true
  ∧ all_chars not_slash (sanitize_filename "  Che/Med 123?!..  ") = true
  ∧ (String.length (sanitize_filename "  Che/Med 123?!..  ") ≤ 19)%nat.
Proof.
  apply (sanitize_filename_chars "  Che/Med 123?!..  "). vm_compute. reflexivity.
Defined.

(** X2.  Sanitizing a sanitized name changes nothing: the name has no white
    space at its ends left to strip and no character left to replace. *)
Theorem sanitize_filename_idempotent name :
  sanitize_filename (sanitize_filename name) = sanitize_filename name.
Proof.
  unfold sanitize_filename at 1. set (out := sanitize_filename name).
  assert (Text.strip out = out) as ->.
  { unfold Text.strip.
    assert (Text.lstrip out = out) as ->.
    { destruct out as [|c r] eqn:E; [done|]. apply lstrip_fixed.
      unfold out, sanitize_filename in E.
      apply sub_runs_head in E as (x & r' & Hx & [-> | ->]); [|done].
      by apply strip_head in Hx. }
    apply sub_runs_rstrip. unfold Text.strip. apply rstrip_idem. }
  apply sub_runs_id, sub_runs_kept_chars.
Qed.

(** ** The Dedup Index and the logs *)

Lemma load_seen_ids_no_log w channel :
  (∀ d, msg_files w !! (d, sanitize_filename channel) = None) →
  load_seen_ids w channel = ∅.
Proof.
  intros Hnone. apply set_eq. intros z. rewrite elem_of_load_seen_ids.
  split; [|by intros ?%not_elem_of_empty].
  intros (d & l & Hl & _). unfold lines_of in Hl. rewrite Hnone in Hl.
  by apply elem_of_nil in Hl.
Qed.

Lemma load_seen_ids_append_line w channel key line :
  load_seen_ids (with_msg_files (append_line key line (msg_files w)) w) channel
  = load_seen_ids w channel
    ∪ (if decide (key.2 = sanitize_filename channel) then line_ids line else ∅).
Proof.
  apply set_eq. intros z. rewrite elem_of_union, !elem_of_load_seen_ids.
  destruct key as [kd kf]. cbn [snd fst msg_files with_msg_files]. split.
  - intros (d & l & Hl & Hid). rewrite lines_of_append in Hl.
    apply elem_of_app in Hl as [Hl|Hl]; [left; by exists d, l|].
    destruct (decide ((kd, kf) = (d, sanitize_filename channel))) as [[= -> ->]|];
      [|by apply elem_of_nil in Hl].
    apply list_elem_of_singleton in Hl as ->. right.
    rewrite decide_True by done. unfold line_ids. rewrite Hid.
    by apply elem_of_singleton.
  - intros [(d & l & Hl & Hid)|Hz].
    + exists d, l. split; [|done]. rewrite lines_of_append. apply elem_of_app. by left.
    + destruct (decide (kf = sanitize_filename channel)) as [->|];
        [|by apply not_elem_of_empty in Hz].
      unfold line_ids in Hz. destruct (line_id line) as [z'|] eqn:Hid;
        [|by apply not_elem_of_empty in Hz].
      apply elem_of_singleton in Hz as ->.
      exists kd, line. split; [|done]. rewrite lines_of_append, decide_True by done.
      apply elem_of_app. right. by apply list_elem_of_singleton.
Qed.

(** X3.  For logs that are the scraper's own work (whole lines, each ended
    by a newline), the index of a source none of whose logs exists is empty,
    and saving a message under a sanitized name adds the id of the message
    to the index of a source exactly when the name is the sanitized name of
    that source: the index of every other source is left as it was; the
    logs are then still the scraper's own work. *)
Theorem load_seen_ids_append w channel sanitized td msg :
  scraper_written (msg_files w) →
  ((∀ d, msg_files w !! (d, sanitize_filename channel) = None) →
   load_seen_ids w channel = ∅)
  ∧ load_seen_ids (with_msg_files (save sanitized td (msg_files w) msg) w) channel
    = load_seen_ids w channel
      ∪ (if decide (sanitized = sanitize_filename channel) then {[m_id msg]} else ∅)
  ∧ scraper_written (save sanitized td (msg_files w) msg).
Proof.
  intros Hw. split_and!; [apply load_seen_ids_no_log| |by apply written_record].
  unfold save. by rewrite load_seen_ids_append_line.
Qed.

Lemma load_seen_ids_append_witness :
  let files := save "news_x" (Date 2025 6 15) ∅ (plain 7 (Some (Date 2025 6 2))) in
  let w := world_of files "news_x" [] [] in
  load_seen_ids (with_msg_files (save "news_x" (Date 2025 6 15) files (plain 8 None)) w)
    "news_x"
  = load_seen_ids w "news_x" ∪ {[8%Z]}.
Proof.
  intros files w.
  refine (proj1 (proj2 (load_seen_ids_append w "news_x" "news_x" (Date 2025 6 15)
                          (plain 8 None) _))).
  apply written_record, written_nothing.
Defined.

(** ** What a scan writes *)

Lemma persisted_in_window seen since until td events m :
  m ∈ persisted seen since until td events → in_window since until td m.
Proof.
  induction events as [|[[msg|]|e] rest IH]; cbn [persisted]; intros Hm.
  - by apply elem_of_nil in Hm.
  - destruct (decide (m_id msg ∈ seen)); [by apply IH|].
    destruct (before_since since (default td (m_date msg))) eqn:Hb;
      [by apply elem_of_nil in Hm|].
    destruct (at_or_after_until until (default td (m_date msg))) eqn:Hu; [by apply IH|].
    apply elem_of_cons in Hm as [->|Hm]; [done|by apply IH].
  - by apply IH.
  - by apply elem_of_nil in Hm.
Qed.

(** X4.  A scan appends to the logs a list of records, one per message it
    counts: every one of them is filed under the message's own day, which
    lies inside the [since]/[until] window, none has an id of the index,
    and the count returned is their number. *)
Theorem scan_appends_counted_records w channel limit (incremental : bool) since until :
  let seen : gset Z := if incremental then load_seen_ids w channel else ∅ in
  let r := scrape_channel w channel limit incremental since until in
  ∃ msgs,
    msg_files r.1
    = foldl (save (sanitize_filename channel) (today w)) (msg_files w) msgs
    ∧ Forall (λ m, in_window since until (today w) m ∧ m_id m ∉ seen) msgs
    ∧ (∀ key, lines_of (msg_files r.1) key
              = (lines_of (msg_files w) key
                 ++ (Saved ∘ message_to_serializable
                     <$> filter (λ m, partition_of (today w) (sanitize_filename channel) m
                                      = key) msgs))%list)
    ∧ ∀ c, r.2 = Ret c → c = length msgs.
Proof.
  intros seen r. subst r.
  destruct (scrape_channel_spec w channel limit incremental since until)
    as (E & _ & _ & Hc).
  cbv zeta in E, Hc. fold seen in E, Hc.
  eexists. split; [exact E|]. split_and!.
  - apply Forall_forall. intros m Hm. split.
    + by eapply persisted_in_window.
    + by eapply persisted_unseen.
  - intros key. by rewrite E, lines_of_saves.
  - exact Hc.
Qed.

Lemma filter_none {A} (P : A → Prop) `{!∀ x, Decision (P x)} (l : list A) :
  (∀ x, x ∈ l → ¬ P x) → filter P l = [].
Proof.
  induction l as [|x l IH]; intros Hno; [done|].
  rewrite filter_cons_False by (apply Hno; by left).
  apply IH. intros y Hy. apply Hno. by right.
Qed.

(** The images a scan adds are files of the channel's own directory. *)
Lemma fetch_image_images sanitized msg date_str w :
  let r := fetch_image sanitized msg date_str w in
  img_files w ⊆ img_files r.1
  ∧ ∀ p, p ∈ img_files r.1 → p ∈ img_files w ∨ p.1 = sanitized.
Proof.
  unfold fetch_image.
  destruct (free_dest_spec (img_files w) sanitized
              (image_name sanitized (m_id msg) date_str (extension msg)) (extension msg))
    as (dest & -> & Hnew & Hplain & Hnum).
  assert (dest.1 = sanitized) as Hdir.
  { destruct (decide ((sanitized,
        image_name sanitized (m_id msg) date_str (extension msg)) ∈ img_files w)) as [Hin|Hout].
    - destruct (Hnum Hin) as (i & _ & -> & _). done.
    - by rewrite (Hplain Hout). }
  unfold download_with_retries.
  destruct (download_loop_frame (length (downloads w) + default_max_retries)
              default_max_retries 0 dest w) as (_ & _ & _ & _ & [[_ E]|[_ E]]);
    rewrite E.
  - split; [apply union_subseteq_r|]. intros p [->%elem_of_singleton|Hp]%elem_of_union; auto.
  - split; [done|]. auto.
Qed.

Lemma saved_world_images sanitized msg count w :
  img_files w ⊆ img_files (saved_world sanitized msg count w)
  ∧ ∀ p, p ∈ img_files (saved_world sanitized msg count w) →
         p ∈ img_files w ∨ p.1 = sanitized.
Proof.
  unfold saved_world. set (w1 := with_msg_files _ w).
  destruct (fetch_image_images sanitized msg (isoformat (message_day w msg)) w1)
    as [H1 H2].
  destruct (is_image msg), (S count mod 50 =? 0)%nat; simpl; auto.
Qed.

Lemma scrape_loop_images sanitized seen since until events :
  ∀ count w,
    let r := scrape_loop sanitized seen since until events count w in
    img_files w ⊆ img_files r.1
    ∧ ∀ p, p ∈ img_files r.1 → p ∈ img_files w ∨ p.1 = sanitized.
Proof.
  induction events as [|[[msg|]|e] rest IH]; intros count w.
  - simpl. auto.
  - destruct (decide (m_id msg ∈ seen)) as [Hin|Hout].
    { rewrite scrape_loop_seen by done. apply IH. }
    destruct (before_since since (message_day w msg)) eqn:Hb.
    { rewrite scrape_loop_halt by done. simpl. auto. }
    destruct (at_or_after_until until (message_day w msg)) eqn:Hu.
    { rewrite scrape_loop_until by done. apply IH. }
    rewrite scrape_loop_save by done.
    destruct (saved_world_images sanitized msg count w) as [H1 H2].
    destruct (IH (S count) (saved_world sanitized msg count w)) as [H3 H4].
    split; [by etrans|]. intros p Hp. destruct (H4 p Hp) as [?|?]; auto.
  - apply IH.
  - simpl. auto.
Qed.

Lemma iter_messages_images w channel limit :
  img_files (iter_messages w channel limit).2 = img_files w.
Proof.
  unfold iter_messages. by destruct (feeds w !! channel) as [[|session later]|].
Qed.

(** X5.  A scan only appends, and only to its own source: every log keeps
    the lines it had, in front; the logs of other sources are left as they
    are; the images it adds are files of the source's own directory; no
    image and no manifest is removed or replaced. *)
Theorem scan_keeps_what_exists w channel limit incremental since until :
  let r := scrape_channel w channel limit incremental since until in
  (∀ key, lines_of (msg_files w) key `prefix_of` lines_of (msg_files r.1) key)
  ∧ (∀ key, key.2 ≠ sanitize_filename channel →
            lines_of (msg_files r.1) key = lines_of (msg_files w) key)
  ∧ img_files w ⊆ img_files r.1
  ∧ (∀ p, p ∈ img_files r.1 → p ∉ img_files w → p.1 = sanitize_filename channel)
  ∧ manifest_files r.1 = manifest_files w.
Proof.
  intros r. subst r.
  destruct (scrape_channel_spec w channel limit incremental since until)
    as (E & Hm & _ & _).
  cbv zeta in E, Hm. split_and!.
  - intros key. rewrite E, lines_of_saves. by eexists.
  - intros [kd kf] Hne. rewrite E, lines_of_saves.
    rewrite filter_none; [by rewrite app_nil_r|].
    intros m _ [= _ Hf]. by apply Hne.
  - rewrite scrape_channel_unfold.
    etrans; [|apply scrape_loop_images]. by rewrite iter_messages_images.
  - rewrite scrape_channel_unfold. intros p Hp Hnew.
    apply scrape_loop_images in Hp as [Hp|Hp]; [|done].
    by rewrite iter_messages_images in Hp.
  - done.
Qed.

(** ** Downloads and the scan *)

(** How the loop ends depends on the feed, the index, [since] and the date
    alone. *)
Lemma scrape_loop_end sanitized seen since until events :
  ∀ count w,
    (scrape_loop sanitized seen since until events count w).2
    = match scan_end seen since (today w) events with
      | Some e => Raise e
      | None => Ret (count + length (persisted seen since until (today w) events))%nat
      end.
Proof.
  induction events as [|[[msg|]|e] rest IH]; intros count w.
  - simpl. f_equal. lia.
  - cbn [scan_end persisted]. destruct (decide (m_id msg ∈ seen)) as [Hin|Hout].
    { rewrite scrape_loop_seen by done. apply IH. }
    fold (message_day w msg).
    destruct (before_since since (message_day w msg)) eqn:Hb.
    { rewrite scrape_loop_halt by done. simpl. f_equal. lia. }
    destruct (at_or_after_until until (message_day w msg)) eqn:Hu.
    { rewrite scrape_loop_until by done. apply IH. }
    rewrite scrape_loop_save by done.
    destruct (saved_world_frame sanitized msg count w) as (_ & _ & _ & E4).
    rewrite IH, E4. destruct (scan_end _ _ _ _); [done|]. simpl. f_equal. lia.
  - apply IH.
  - done.
Qed.

(** X6.  Neither what a scan appends to the logs nor what it returns depends
    on the downloads: two worlds with the same logs, feed and date give the
    same logs and the same result, whatever their download scripts and image
    directories are. *)
Theorem scan_independent_of_downloads w w' channel limit incremental since until :
  msg_files w = msg_files w' →
  feeds w !! channel = feeds w' !! channel →
  today w = today w' →
  msg_files (scrape_channel w channel limit incremental since until).1
  = msg_files (scrape_channel w' channel limit incremental since until).1
  ∧ (scrape_channel w channel limit incremental since until).2
    = (scrape_channel w' channel limit incremental since until).2.
Proof.
  intros Hf Hfeed Ht.
  assert (load_seen_ids w channel = load_seen_ids w' channel) as Hseen.
  { unfold load_seen_ids. by rewrite Hf. }
  assert ((iter_messages w channel limit).1 = (iter_messages w' channel limit).1) as Hev.
  { unfold iter_messages. rewrite Hfeed.
    by destruct (feeds w' !! channel) as [[|session later]|]. }
  split.
  - destruct (scrape_channel_spec w channel limit incremental since until) as (E & _).
    destruct (scrape_channel_spec w' channel limit incremental since until) as (E' & _).
    cbv zeta in E, E'. by rewrite E, E', Hf, Ht, Hseen, Hev.
  - rewrite !scrape_channel_unfold, !scrape_loop_end.
    destruct (iter_messages_frame w channel limit) as (_ & -> & _).
    destruct (iter_messages_frame w' channel limit) as (_ & -> & _).
    by rewrite Ht, Hseen, Hev.
Qed.

Lemma scan_independent_of_downloads_witness :
  let w := world_of ∅ "ch1" [feed_photos] [DlResult true; DlResult true] in
  let w' := world_of ∅ "ch1" [feed_photos]
              [DlError "timeout"; DlFlood (Some 3%Z); DlResult false; DlError "reset"] in
  (msg_files (scrape_channel w "ch1" None false None None).1
   = msg_files (scrape_channel w' "ch1" None false None None).1
   ∧ (scrape_channel w "ch1" None false None None).2
     = (scrape_channel w' "ch1" None false None None).2)
  ∧ size (img_files (scrape_channel w "ch1" None false None None).1) = 2%nat
  ∧ size (img_files (scrape_channel w' "ch1" None false None None).1) = 0%nat
  ∧ downloads (scrape_channel w "ch1" None false None None).1 = []
  ∧ downloads (scrape_channel w' "ch1" None false None None).1 = [].
Proof.
  intros w w'. split.
  - apply (scan_independent_of_downloads w w' "ch1" None false None None);
      reflexivity.
  - split_and!; vm_compute; reflexivity.
Defined.

Lemma scrape_loop_no_image sanitized seen since until events :
  ∀ count w,
    forallb no_image events = true →
    downloads (scrape_loop sanitized seen since until events count w).1 = downloads w
    ∧ img_files (scrape_loop sanitized seen since until events count w).1 = img_files w.
Proof.
  induction events as [|[[msg|]|e] rest IH]; intros count w Hno.
  - done.
  - cbn [forallb no_image] in Hno. apply andb_true_iff in Hno as [Hmsg Hno].
    apply negb_true_iff in Hmsg.
    destruct (decide (m_id msg ∈ seen)) as [Hin|Hout].
    { rewrite scrape_loop_seen by done. by apply IH. }
    destruct (before_since since (message_day w msg)) eqn:Hb.
    { by rewrite scrape_loop_halt. }
    destruct (at_or_after_until until (message_day w msg)) eqn:Hu.
    { rewrite scrape_loop_until by done. by apply IH. }
    rewrite scrape_loop_save by done.
    destruct (IH (S count) (saved_world sanitized msg count w) Hno) as [-> ->].
    unfold saved_world. rewrite Hmsg. by destruct (_ =? _)%nat.
  - cbn [forallb no_image] in Hno. by apply IH.
  - done.
Qed.

(** X7.  A scan over a feed with no image in it (no photo, no document whose
    MIME type starts with [image]) makes no download call and leaves the
    image directory as it is. *)
Theorem scan_without_images_downloads_nothing w channel limit incremental since until :
  forallb no_image (iter_messages w channel limit).1 = true →
  downloads (scrape_channel w channel limit incremental since until).1 = downloads w
  ∧ img_files (scrape_channel w channel limit incremental since until).1 = img_files w.
Proof.
  intros Hno. rewrite scrape_channel_unfold.
  destruct (scrape_loop_no_image (sanitize_filename channel)
              (if incremental then load_seen_ids w channel else ∅) since until
              (iter_messages w channel limit).1 0 (iter_messages w channel limit).2 Hno)
    as [-> ->].
  unfold iter_messages. by destruct (feeds w !! channel) as [[|session later]|].
Qed.

Lemma scan_without_images_downloads_nothing_witness :
  downloads
    (scrape_channel (world_of ∅ "ch1" [feed_B] [DlResult true]) "ch1" None false None
       None).1
  = [DlResult true].
Proof.
  exact (proj1 (scan_without_images_downloads_nothing
                  (world_of ∅ "ch1" [feed_B] [DlResult true]) "ch1" None false None None
                  eq_refl)).
Defined.

(** ** The retry budget, whatever the provider does *)

Lemma download_loop_used fuel :
  ∀ mx attempt dest w,
    let r := download_loop fuel mx attempt dest w in
    ∃ used,
      downloads w = (used ++ downloads r.1)%list
      ∧ ((attempt ≤ mx)%nat → (attempt + generic_failures used ≤ mx)%nat)
      ∧ (r.2 = Some dest ↔ DlResult true ∈ used)
      ∧ slept w `prefix_of` slept r.1.
Proof.
  induction fuel as [|fuel IH]; intros mx attempt dest w.
  { exists []. simpl. split_and!; [done|unfold generic_failures; simpl; lia| |done].
    split; [done|by intros ?%elem_of_nil]. }
  destruct (decide (attempt < mx)%nat) as [Hlt|Hge]; first last.
  { rewrite download_loop_spent by lia. exists []. simpl.
    split_and!; [done|unfold generic_failures; simpl; lia| |done].
    split; [done|by intros ?%elem_of_nil]. }
  destruct (downloads w) as [|o rest] eqn:Hd.
  - cbn [download_loop]. apply Nat.ltb_lt in Hlt as Hlt'. rewrite Hlt'.
    unfold next_download. rewrite Hd.
    destruct (IH mx (S attempt) dest (sleep (Seconds (2 ^ Z.of_nat (S attempt))) w))
      as (used & H1 & H2 & H3 & H4).
    exists used. cbv zeta. split_and!.
    + by rewrite <- H1.
    + intros _. specialize (H2 ltac:(lia)). lia.
    + done.
    + etrans; [|exact H4]. simpl. by eexists.
  - destruct o as [b|s|c].
    + rewrite (download_loop_result _ _ _ _ _ b rest) by done.
      exists [DlResult b]. destruct b; cbv zeta; simpl.
      * split_and!; [done|rewrite generic_failures_cons; unfold generic_failures; simpl; lia
                    | |done].
        split; [intros _; by apply list_elem_of_singleton|done].
      * split_and!; [done|rewrite generic_failures_cons; unfold generic_failures; simpl; lia
                    | |done].
        split; [done|]. by intros [=]%list_elem_of_singleton.
    + rewrite (download_loop_flood _ _ _ _ _ s rest) by done.
      destruct (IH mx attempt dest
                  (sleep (Seconds (flood_seconds s + 1)) (with_downloads rest w)))
        as (used & H1 & H2 & H3 & H4).
      exists (DlFlood s :: used). cbv zeta. split_and!.
      * simpl in H1 |- *. f_equal. exact H1.
      * intros Hle. rewrite generic_failures_cons. simpl. by apply H2.
      * rewrite H3. rewrite elem_of_cons. split; [auto|]. by intros [[=]|?].
      * etrans; [|exact H4]. simpl. by eexists.
    + rewrite (download_loop_error _ _ _ _ _ c rest) by done.
      destruct (IH mx (S attempt) dest
                  (sleep (Seconds (2 ^ Z.of_nat (S attempt))) (with_downloads rest w)))
        as (used & H1 & H2 & H3 & H4).
      exists (DlError c :: used). cbv zeta. split_and!.
      * simpl in H1 |- *. f_equal. exact H1.
      * intros Hle. rewrite generic_failures_cons. simpl. specialize (H2 ltac:(lia)). lia.
      * rewrite H3. rewrite elem_of_cons. split; [auto|]. by intros [[=]|?].
      * etrans; [|exact H4]. simpl. by eexists.
Qed.

(** X8.  Whatever the provider does, one call of [download_with_retries]
    uses up a front part of the download script that holds at most
    [max_retries] generic failures; it returns the destination exactly when
    one of those [download_media] calls returned a file, and only then is
    the destination added to the image directory.  With [max_retries = 0]
    it returns [None] without a call. *)
Theorem download_uses_bounded_attempts w dest max_retries :
  let r := download_with_retries w dest max_retries in
  (∃ used,
      downloads w = (used ++ downloads r.1)%list
      ∧ (generic_failures used ≤ max_retries)%nat
      ∧ (r.2 = Some dest ↔ DlResult true ∈ used))
  ∧ (r.2 = None ∨ r.2 = Some dest)
  ∧ img_files r.1
    = match r.2 with Some _ => {[dest]} ∪ img_files w | None => img_files w end
  ∧ (max_retries = 0%nat → r = (w, None)).
Proof.
  intros r. subst r. unfold download_with_retries. split_and!.
  - destruct (download_loop_used (length (downloads w) + max_retries) max_retries 0 dest w)
      as (used & H1 & H2 & H3 & _).
    exists used. split_and!; [done| |done]. specialize (H2 ltac:(lia)). lia.
  - destruct (download_loop_frame (length (downloads w) + max_retries) max_retries 0
                dest w) as (_ & _ & _ & _ & [[-> _]|[-> _]]); auto.
  - destruct (download_loop_frame (length (downloads w) + max_retries) max_retries 0
                dest w) as (_ & _ & _ & _ & [[-> ->]|[-> ->]]); done.
  - intros ->. by rewrite download_loop_spent.
Qed.

(** ** The courtesy pause *)

Lemma courtesy_pauses_app l1 l2 :
  courtesy_pauses (l1 ++ l2) = (courtesy_pauses l1 + courtesy_pauses l2)%nat.
Proof. unfold courtesy_pauses. by rewrite filter_app, length_app. Qed.

Lemma download_loop_courtesy fuel :
  ∀ mx attempt dest w,
    courtesy_pauses (slept (download_loop fuel mx attempt dest w).1)
    = courtesy_pauses (slept w).
Proof.
  induction fuel as [|fuel IH]; intros mx attempt dest w; simpl; [done|].
  destruct (attempt <? mx)%nat; [|done].
  unfold next_download. destruct (downloads w) as [|[[|]|s|c] rest]; simpl; try done.
  - rewrite IH. simpl. rewrite courtesy_pauses_app. unfold courtesy_pauses at 2.
    simpl. lia.
  - rewrite IH. simpl. rewrite courtesy_pauses_app. unfold courtesy_pauses at 2.
    simpl. lia.
  - rewrite IH. simpl. rewrite courtesy_pauses_app. unfold courtesy_pauses at 2.
    simpl. lia.
Qed.

Lemma saved_world_courtesy sanitized msg count w :
  courtesy_pauses (slept (saved_world sanitized msg count w))
  = (courtesy_pauses (slept w) + (S count / 50 - count / 50))%nat.
Proof.
  unfold saved_world. set (w1 := with_msg_files _ w).
  assert (courtesy_pauses
            (slept (if is_image msg
                    then (fetch_image sanitized msg (isoformat (message_day w msg)) w1).1
                    else w1))
          = courtesy_pauses (slept w)) as Hfetch.
  { destruct (is_image msg); [|done]. unfold fetch_image.
    destruct (free_dest _ _ _ _); [|done]. unfold download_with_retries.
    by rewrite download_loop_courtesy. }
  destruct (S count mod 50 =? 0)%nat eqn:Hmod.
  - apply Nat.eqb_eq in Hmod. cbn [slept sleep]. rewrite courtesy_pauses_app, Hfetch.
    change (courtesy_pauses [Courtesy]) with 1%nat.
    pose proof (Nat.div_mod_eq (S count) 50). pose proof (Nat.div_mod_eq count 50).
    pose proof (Nat.mod_upper_bound count 50). lia.
  - apply Nat.eqb_neq in Hmod. rewrite Hfetch.
    pose proof (Nat.div_mod_eq (S count) 50). pose proof (Nat.div_mod_eq count 50).
    pose proof (Nat.mod_upper_bound count 50).
    pose proof (Nat.mod_upper_bound (S count) 50). lia.
Qed.

Lemma scrape_loop_courtesy sanitized seen since until events :
  ∀ count w,
    courtesy_pauses (slept (scrape_loop sanitized seen since until events count w).1)
    = (courtesy_pauses (slept w)
       + ((count + length (persisted seen since until (today w) events)) / 50
          - count / 50))%nat.
Proof.
  induction events as [|[[msg|]|e] rest IH]; intros count w.
  - simpl. rewrite Nat.add_0_r. lia.
  - cbn [persisted]. destruct (decide (m_id msg ∈ seen)) as [Hin|Hout].
    { rewrite scrape_loop_seen by done. apply IH. }
    fold (message_day w msg).
    destruct (before_since since (message_day w msg)) eqn:Hb.
    { rewrite scrape_loop_halt by done. simpl. rewrite Nat.add_0_r. lia. }
    destruct (at_or_after_until until (message_day w msg)) eqn:Hu.
    { rewrite scrape_loop_until by done. apply IH. }
    rewrite scrape_loop_save by done.
    destruct (saved_world_frame sanitized msg count w) as (_ & _ & _ & E4).
    rewrite IH, E4, saved_world_courtesy. cbn [length].
    set (n := length _).
    replace (count + S n)%nat with (S count + n)%nat by lia.
    assert (count / 50 ≤ S count / 50)%nat by (apply Nat.Div0.div_le_mono; lia).
    assert (S count / 50 ≤ (S count + n) / 50)%nat by (apply Nat.Div0.div_le_mono; lia).
    lia.
  - apply IH.
  - simpl. rewrite Nat.add_0_r. lia.
Qed.

(** X9.  A scan pauses for 0.3 s once after every 50 messages it has saved:
    when it returns the count [c], it has taken [c / 50] such pauses. *)
Theorem scan_pauses_every_fifty w channel limit incremental since until c :
  (scrape_channel w channel limit incremental since until).2 = Ret c →
  courtesy_pauses (slept (scrape_channel w channel limit incremental since until).1)
  = (courtesy_pauses (slept w) + c / 50)%nat.
Proof.
  intros Hc.
  destruct (scrape_channel_spec w channel limit incremental since until)
    as (_ & _ & _ & Hcount).
  apply Hcount in Hc. subst c.
  rewrite scrape_channel_unfold, scrape_loop_courtesy.
  destruct (iter_messages_frame w channel limit) as (_ & -> & _).
  replace (slept (iter_messages w channel limit).2) with (slept w)
    by (unfold iter_messages; by destruct (feeds w !! channel) as [[|session later]|]).
  simpl. lia.
Qed.

Lemma scan_pauses_every_fifty_witness :
  courtesy_pauses
    (slept (scrape_channel (world_of ∅ "ch1" [feed_of 120] []) "ch1" None false None
              None).1)
  = 2%nat.
Proof.
  exact (scan_pauses_every_fifty (world_of ∅ "ch1" [feed_of 120] []) "ch1" None false
           None None 120 ltac:(vm_compute; reflexivity)).
Defined.

(** ** The list of channels *)

Lemma elem_of_fromkeys l :
  ∀ known x, x ∈ fromkeys known l ↔ x ∈ l ∧ x ∉ known.
Proof.
  induction l as [|y l IH]; intros known x; cbn [fromkeys].
  - split; [by intros ?%elem_of_nil|by intros [?%elem_of_nil _]].
  - destruct (decide (y ∈ known)) as [Hy|Hy].
    + rewrite IH, elem_of_cons. split; [intros [? ?]; auto|].
      intros [[->|?] ?]; [done|auto].
    + rewrite !elem_of_cons, IH, elem_of_cons. split.
      * intros [->|[? Hx]]; [auto|]. split; [auto|]. intros ?. apply Hx. auto.
      * intros [[->|?] Hx]; [auto|]. destruct (decide (x = y)) as [->|]; [auto|].
        right. split; [done|]. by intros [?|?].
Qed.

Lemma NoDup_fromkeys l : ∀ known, NoDup (fromkeys known l).
Proof.
  induction l as [|y l IH]; intros known; cbn [fromkeys]; [constructor|].
  destruct (decide (y ∈ known)); [apply IH|].
  constructor; [|apply IH]. rewrite elem_of_fromkeys. intros [_ Hy]. apply Hy. by left.
Qed.

(** Only which names are known matters, not how the list of them is
    arranged. *)
Lemma fromkeys_known l :
  ∀ k1 k2, (∀ x, x ∈ k1 ↔ x ∈ k2) → fromkeys k1 l = fromkeys k2 l.
Proof.
  induction l as [|y l IH]; intros k1 k2 Hk; cbn [fromkeys]; [done|].
  destruct (decide (y ∈ k1)) as [H1|H1], (decide (y ∈ k2)) as [H2|H2].
  - by apply IH.
  - by apply Hk in H1.
  - by apply Hk in H2.
  - f_equal. apply IH. intros x. rewrite !elem_of_cons. by rewrite Hk.
Qed.

Lemma fromkeys_app l1 :
  ∀ known l2,
    fromkeys known (l1 ++ l2) = (fromkeys known l1 ++ fromkeys (l1 ++ known) l2)%list.
Proof.
  induction l1 as [|y l1 IH]; intros known l2; [done|].
  rewrite <- app_comm_cons. cbn [fromkeys].
  destruct (decide (y ∈ known)) as [Hy|Hy].
  - rewrite IH. f_equal. apply fromkeys_known. intros x.
    rewrite !elem_of_app, elem_of_cons. split; [tauto|]. intros [[->|?]|?]; auto.
  - rewrite IH. rewrite <- app_comm_cons. do 2 f_equal. apply fromkeys_known. intros x.
    repeat (rewrite elem_of_app || rewrite elem_of_cons). tauto.
Qed.

Lemma fromkeys_NoDup l : ∀ known, NoDup l → (∀ x, x ∈ l → x ∉ known) → fromkeys known l = l.
Proof.
  induction l as [|y l IH]; intros known Hnd Hk; cbn [fromkeys]; [done|].
  apply NoDup_cons in Hnd as [Hy Hnd].
  rewrite decide_False by (apply Hk; by left). f_equal. apply IH; [done|].
  intros x Hx [->|?]%elem_of_cons; [done|]. eapply Hk; [by right|done].
Qed.

(** X10.  The channels of a run are the names on the non-blank,
    non-comment lines of the channels file (stripped) and the names given
    on the command line, each once: the list has no duplicate, it holds
    exactly those names, the names of the file come first in file order and
    the other command-line names follow, each at its first occurrence; a
    list without duplicates is kept as it is. *)
Theorem requested_channels_first_occurrences args :
  let from_file := default [] (channel_lines <$> channels_file args) in
  NoDup (requested_channels args)
  ∧ (∀ ch, ch ∈ requested_channels args ↔ ch ∈ from_file ∨ ch ∈ channels args)
  ∧ requested_channels args
    = (fromkeys [] from_file ++ fromkeys from_file (channels args))%list
  ∧ (NoDup (from_file ++ channels args) →
     requested_channels args = (from_file ++ channels args)%list)
  ∧ (∀ lines ch,
       ch ∈ channel_lines lines
       ↔ ch ≠ "" ∧ Text.starts_with "#" ch = false
         ∧ ∃ ln, ln ∈ lines ∧ ch = Text.strip ln).
Proof.
  intros from_file. unfold requested_channels. fold from_file. split_and!.
  - apply NoDup_fromkeys.
  - intros ch. rewrite elem_of_fromkeys, elem_of_app. split; [by intros [? _]|].
    intros H. split; [done|]. by intros ?%elem_of_nil.
  - rewrite fromkeys_app. by rewrite app_nil_r.
  - intros Hnd. apply fromkeys_NoDup; [done|]. by intros x _ ?%elem_of_nil.
  - intros lines ch. unfold channel_lines.
    rewrite list_elem_of_filter, list_elem_of_fmap. split.
    + intros [[? ?] (ln & ? & ?)]. eauto.
    + intros (? & ? & ln & ? & ?). eauto.
Qed.

(** ** Runs *)

Lemma cap_feed_calm n : ∀ events, calm events = true → calm (cap_feed n events) = true.
Proof.
  induction n as [|n IH]; intros [|[m|e] events]; cbn [cap_feed]; try done.
  - unfold calm in *. cbn [forallb]. intros [? ?]%andb_true_iff.
    apply andb_true_iff. split; [done|]. by apply IH.
  - unfold calm. cbn [forallb]. intros [? ?]%andb_true_iff.
    apply andb_true_iff. done.
Qed.

Lemma scan_end_calm seen since td events s :
  calm events = true → scan_end seen since td events ≠ Some (FloodWaitError s).
Proof.
  induction events as [|[[msg|]|e] rest IH]; cbn [scan_end]; [done|..].
  - unfold calm. cbn [forallb]. intros [_ ?]%andb_true_iff.
    destruct (decide (m_id msg ∈ seen)); [by apply IH|].
    destruct (before_since since _); [done|by apply IH].
  - unfold calm. cbn [forallb]. intros [_ ?]%andb_true_iff. by apply IH.
  - unfold calm. cbn [forallb]. intros [He _]%andb_true_iff. intros [= ->]. done.
Qed.

Lemma iter_messages_calm w channel limit :
  flood_free w →
  calm (iter_messages w channel limit).1 = true
  ∧ flood_free (iter_messages w channel limit).2.
Proof.
  intros Hw. unfold iter_messages.
  destruct (feeds w !! channel) as [[|session later]|] eqn:E; try done.
  apply Hw in E. apply Forall_cons in E as [Hs Hl]. split.
  - destruct limit as [n|]; [by apply cap_feed_calm|done].
  - intros ch sessions. simpl. rewrite lookup_insert.
    case_decide as Hch; [by intros [= <-]|]. apply Hw.
Qed.

Lemma flood_free_feeds w w' : feeds w' = feeds w → flood_free w → flood_free w'.
Proof. intros E Hw ch sessions. rewrite E. apply Hw. Qed.

Lemma scrape_channel_calm w channel limit incremental since until :
  flood_free w →
  flood_free (scrape_channel w channel limit incremental since until).1
  ∧ ∀ s, (scrape_channel w channel limit incremental since until).2
         ≠ Raise (FloodWaitError s).
Proof.
  intros Hw. destruct (iter_messages_calm w channel limit Hw) as [Hev Hw0].
  rewrite scrape_channel_unfold. split.
  - eapply flood_free_feeds; [|exact Hw0].
    by destruct (scrape_loop_spec (sanitize_filename channel)
                   (if incremental then load_seen_ids w channel else ∅) since until
                   (iter_messages w channel limit).1 0 (iter_messages w channel limit).2)
      as (_ & ? & _).
  - intros s. rewrite scrape_loop_end.
    pose proof (scan_end_calm (if incremental then load_seen_ids w channel else ∅) since
                  (today (iter_messages w channel limit).2)
                  (iter_messages w channel limit).1 s Hev) as Hend.
    destruct (scan_end _ _ _ _) as [e|]; [|done]. intros [= ->]. done.
Qed.

Lemma scrape_one_calm args ch w m :
  flood_free w →
  ∃ entry,
    scrape_one args ch w m = ((scrape_one args ch w m).1, Ret (set_result ch entry m))
    ∧ plain_entry entry
    ∧ flood_free (scrape_one args ch w m).1.
Proof.
  intros Hw.
  destruct (scrape_channel_calm w ch (limit args) (incremental args) (since args)
              (until args) Hw) as [Hw1 Hno].
  unfold scrape_one.
  destruct (scrape_channel w ch _ _ _ _) as [w1 [n|[s|cause]]]; simpl in *.
  - eexists. split; [done|]. split; [by left|done].
  - by destruct (Hno s).
  - eexists. split; [done|]. split; [|done]. right. by exists cause.
Qed.

Lemma scrape_all_keeps args chs :
  ∀ w m w' m',
    scrape_all args chs w m = (w', Ret m') →
    ∀ ch, ch ∉ chs → results m' !! ch = results m !! ch.
Proof.
  induction chs as [|c chs IH]; intros w m w' m'; cbn [scrape_all].
  - by intros [= <- <-].
  - destruct (scrape_one args c w m) as [w1 [m1|e]] eqn:E; [|done].
    apply scrape_one_ret in E as [entry ->]. intros H ch Hch.
    apply not_elem_of_cons in Hch as [Hne Hch].
    rewrite (IH _ _ _ _ H ch Hch). cbn [set_result results].
    by rewrite lookup_insert_ne.
Qed.

Lemma scrape_all_calm args chs :
  ∀ w m,
    flood_free w →
    ∃ w' m',
      scrape_all args chs w m = (w', Ret m')
      ∧ ∀ ch, ch ∈ chs → ∃ e, results m' !! ch = Some e ∧ plain_entry e.
Proof.
  induction chs as [|c chs IH]; intros w m Hw; cbn [scrape_all].
  - exists w, m. split; [done|]. intros ch Hch. by apply elem_of_nil in Hch.
  - destruct (scrape_one_calm args c w m Hw) as (entry & E & Hentry & Hw1).
    rewrite E.
    destruct (IH (scrape_one args c w m).1 (set_result c entry m) Hw1)
      as (w' & m' & Hall & Hplain).
    exists w', m'. split; [done|]. intros ch Hch.
    destruct (decide (ch ∈ chs)) as [Hin|Hout]; [by apply Hplain|].
    apply elem_of_cons in Hch as [-> | ?]; [|done].
    exists entry. split; [|done].
    rewrite (scrape_all_keeps _ _ _ _ _ _ Hall c Hout). cbn [set_result results].
    by rewrite lookup_insert_eq.
Qed.

(** X11.  When the provider never signals a rate limit while a feed is read,
    the loop of [main] over the channels (lines 251-269) never ends by an
    exception, whatever other exception a scan ends with: it returns with an
    entry for every channel it was given, each of them [ok] or an [error:]
    with [processed = 0]; it leaves the entries of other channels and the
    manifest directory as they were, and the clock does not go back. *)
Theorem channel_loop_without_rate_limit args chs w m :
  flood_free w →
  ∃ w' m',
    scrape_all args chs w m = (w', Ret m')
    ∧ dom (results m') = dom (results m) ∪ list_to_set chs
    ∧ (∀ ch, ch ∈ chs → ∃ e, results m' !! ch = Some e ∧ plain_entry e)
    ∧ (∀ ch, ch ∉ chs → results m' !! ch = results m !! ch)
    ∧ manifest_files w' = manifest_files w
    ∧ (now w ≤ now w')%Z.
Proof.
  intros Hw. destruct (scrape_all_calm args chs w m Hw) as (w' & m' & Hall & Hplain).
  exists w', m'. split; [done|].
  pose proof (scrape_all_manifest_files args chs w m) as Hmf. rewrite Hall in Hmf.
  pose proof (scrape_all_ret args chs w m w' m' Hall) as (Hd & _ & _ & _ & _ & Hnow).
  split_and!; try done.
  by apply (scrape_all_keeps args chs w m w' m').
Qed.

Lemma world_D_flood_free : flood_free world_D.
Proof.
  intros ch sessions. unfold world_D. cbn [feeds].
  rewrite lookup_insert. case_decide; [intros [= <-]; by repeat constructor|].
  rewrite lookup_singleton. case_decide; [intros [= <-]; by repeat constructor|done].
Qed.

Lemma channel_loop_without_rate_limit_witness :
  ∃ w' m',
    scrape_all (args_for ["first"; "second"]) ["first"; "second"] world_D
      (manifest_of ["first"; "second"]) = (w', Ret m')
    ∧ dom (results m') = dom (results (manifest_of ["first"; "second"]))
                         ∪ list_to_set ["first"; "second"]
    ∧ (∀ ch, ch ∈ ["first"; "second"] → ∃ e, results m' !! ch = Some e ∧ plain_entry e)
    ∧ (∀ ch, ch ∉ ["first"; "second"]
             → results m' !! ch = results (manifest_of ["first"; "second"]) !! ch)
    ∧ manifest_files w' = manifest_files world_D
    ∧ (now world_D ≤ now w')%Z.
Proof.
  exact (channel_loop_without_rate_limit (args_for ["first"; "second"])
           ["first"; "second"] world_D (manifest_of ["first"; "second"])
           world_D_flood_free).
Defined.

Lemma scrape_all_raise args chs :
  ∀ w m w' e,
    scrape_all args chs w m = (w', Raise e) →
    ∃ before ch rest w0 m0,
      chs = (before ++ ch :: rest)%list
      ∧ scrape_all args before w m = (w0, Ret m0)
      ∧ scrape_one args ch w0 m0 = (w', Raise e).
Proof.
  induction chs as [|c chs IH]; intros w m w' e; cbn [scrape_all]; [done|].
  destruct (scrape_one args c w m) as [w1 [m1|e1]] eqn:E.
  - intros H. apply IH in H as (before & ch & rest & w0 & m0 & -> & Hb & H).
    exists (c :: before), ch, rest, w0, m0. split; [done|]. split; [|done].
    cbn [scrape_all]. by rewrite E.
  - intros [= <- <-]. exists [], c, chs, w, m. done.
Qed.

(** X12.  The loop of [main] over the channels (lines 251-269) is left by an
    exception only from inside the rate-limit handler.  When it ends by an
    exception, the channels before some channel have been scanned and have
    their entries, the first scan of that channel was rate-limited, and the
    exception is the one raised by its second scan, made after the pause of
    [seconds + 1]; the channels after it are not scanned, and no manifest
    file has been written. *)
Theorem channel_loop_left_by_retry args chs w m w' e :
  scrape_all args chs w m = (w', Raise e) →
  manifest_files w' = manifest_files w
  ∧ ∃ before ch rest w0 m0 s w1,
      chs = (before ++ ch :: rest)%list
      ∧ scrape_all args before w m = (w0, Ret m0)
      ∧ scrape_channel w0 ch (limit args) (incremental args) (since args) (until args)
        = (w1, Raise (FloodWaitError s))
      ∧ scrape_channel (sleep (Seconds (flood_seconds s + 1)) w1) ch (limit args)
          (incremental args) (since args) (until args)
        = (w', Raise e).
Proof.
  intros Hall. split.
  - pose proof (scrape_all_manifest_files args chs w m) as Hmf. by rewrite Hall in Hmf.
  - apply scrape_all_raise in Hall as (before & ch & rest & w0 & m0 & -> & Hb & Hone).
    apply scrape_one_raise in Hone as (s & w1 & H1 & H2).
    by exists before, ch, rest, w0, m0, s, w1.
Qed.

Lemma channel_loop_left_by_retry_witness :
  manifest_files
    (scrape_all (args_for ["news_x"; "later"]) ["news_x"; "later"] world_flooded
       (manifest_of ["news_x"; "later"])).1 = ∅.
Proof.
  refine (proj1 (channel_loop_left_by_retry (args_for ["news_x"; "later"])
                   ["news_x"; "later"] world_flooded (manifest_of ["news_x"; "later"])
                   _ (FloodWaitError (Some 5%Z)) _)).
  eapply eq_trans; [apply surjective_pairing|]. f_equal; vm_compute; reflexivity.
Defined.

(** ** The scan repeated after a rate limit *)

Lemma scrape_one_rescan args ch w m s w1 w3 n :
  let w2 := sleep (Seconds (flood_seconds s + 1)) w1 in
  let seen1 : gset Z := if incremental args then load_seen_ids w ch else ∅ in
  let seen2 : gset Z := if incremental args then load_seen_ids w2 ch else ∅ in
  let first := persisted seen1 (since args) (until args) (today w)
                 (iter_messages w ch (limit args)).1 in
  let second := persisted seen2 (since args) (until args) (today w)
                  (iter_messages w2 ch (limit args)).1 in
  scrape_channel w ch (limit args) (incremental args) (since args) (until args)
  = (w1, Raise (FloodWaitError s)) →
  scrape_channel w2 ch (limit args) (incremental args) (since args) (until args)
  = (w3, Ret n) →
  scrape_one args ch w m
  = (w3, Ret (set_result ch {| processed := n; status := "ok_after_wait" |} m))
  ∧ n = length second
  ∧ msg_files w3
    = foldl (save (sanitize_filename ch) (today w)) (msg_files w) (first ++ second).
Proof.
  intros w2 seen1 seen2 first second H1 H2.
  destruct (scrape_channel_spec w ch (limit args) (incremental args) (since args)
              (until args)) as (E1 & _ & T1 & _).
  destruct (scrape_channel_spec w2 ch (limit args) (incremental args) (since args)
              (until args)) as (E2 & _ & _ & C2).
  cbv zeta in E1, T1, E2, C2. rewrite H1 in E1, T1. rewrite H2 in E2, C2.
  cbn [fst snd] in E1, T1, E2, C2.
  change (today w2) with (today w1) in E2, C2.
  change (msg_files w2) with (msg_files w1) in E2.
  rewrite T1 in E2, C2. rewrite E1 in E2.
  split_and!.
  - unfold scrape_one. rewrite H1. fold w2. by rewrite H2.
  - by apply C2.
  - by rewrite foldl_app.
Qed.

(** X14.  When the scan of a source is rate-limited, the source is scanned a
    second time, with a new [iter_messages] call, after a pause of
    [seconds + 1]; if that scan returns [n], the entry of the source is
    [ok_after_wait] with [processed = n]: it counts the second scan only,
    while the records the first scan had appended stay in the logs, in front
    of those of the second. *)
Theorem rate_limited_source_scanned_again args ch w m s w1 w3 n :
  let w2 := sleep (Seconds (flood_seconds s + 1)) w1 in
  let seen1 : gset Z := if incremental args then load_seen_ids w ch else ∅ in
  let seen2 : gset Z := if incremental args then load_seen_ids w2 ch else ∅ in
  let first := persisted seen1 (since args) (until args) (today w)
                 (iter_messages w ch (limit args)).1 in
  let second := persisted seen2 (since args) (until args) (today w)
                  (iter_messages w2 ch (limit args)).1 in
  scrape_channel w ch (limit args) (incremental args) (since args) (until args)
  = (w1, Raise (FloodWaitError s)) →
  scrape_channel w2 ch (limit args) (incremental args) (since args) (until args)
  = (w3, Ret n) →
  scrape_one args ch w m
  = (w3, Ret (set_result ch {| processed := n; status := "ok_after_wait" |} m))
  ∧ n = length second
  ∧ msg_files w3
    = foldl (save (sanitize_filename ch) (today w)) (msg_files w) (first ++ second).
Proof. intros w2 seen1 seen2 first second H1 H2. by apply scrape_one_rescan. Qed.

Lemma persisted_app seen since until td pre rest :
  runs_through seen since td pre = true →
  persisted seen since until td (pre ++ rest)
  = (persisted seen since until td pre ++ persisted seen since until td rest)%list.
Proof.
  induction pre as [|[[msg|]|e] pre IH]; cbn [app persisted runs_through]; [done|..].
  - destruct (decide (m_id msg ∈ seen)); [done|].
    destruct (before_since since _); [done|].
    destruct (at_or_after_until until _); [done|]. intros H. by rewrite IH.
  - done.
  - done.
Qed.

Lemma scan_end_app seen since td pre rest :
  runs_through seen since td pre = true →
  scan_end seen since td (pre ++ rest) = scan_end seen since td rest.
Proof.
  induction pre as [|[[msg|]|e] pre IH]; cbn [app scan_end runs_through]; [done|..].
  - destruct (decide (m_id msg ∈ seen)); [done|].
    destruct (before_since since _); done.
  - done.
  - done.
Qed.

(** X15.  Without [--incremental], when the provider breaks off a feed with
    a rate limit and serves it again from the start, the messages the first
    scan had saved are saved a second time: each log ends up with the
    records of the interrupted scan twice, followed by the records of the
    messages behind the point of interruption. *)
Theorem retry_duplicates_without_incremental args ch w m s pre post later :
  let san := sanitize_filename ch in
  let batch := persisted ∅ (since args) (until args) (today w) pre in
  let tail := persisted ∅ (since args) (until args) (today w) post in
  let records (key : string * string) (msgs : list Message) : list LogLine :=
    Saved ∘ message_to_serializable
    <$> filter (λ msg, partition_of (today w) san msg = key) msgs in
  incremental args = false →
  limit args = None →
  feeds w !! ch
  = Some ((pre ++ [Fail (FloodWaitError s)])%list :: (pre ++ post)%list :: later) →
  runs_through ∅ (since args) (today w) pre = true →
  scan_end ∅ (since args) (today w) post = None →
  (scrape_one args ch w m).2
  = Ret (set_result ch
           {| processed := length batch + length tail; status := "ok_after_wait" |} m)
  ∧ ∀ key,
      lines_of (msg_files (scrape_one args ch w m).1) key
      = (lines_of (msg_files w) key
         ++ records key batch ++ records key batch ++ records key tail)%list.
Proof.
  intros san batch tail records Hinc Hlim Hfeed Hrun Hend.
  assert (iter_messages w ch None
          = ((pre ++ [Fail (FloodWaitError s)])%list,
             with_feeds (<[ch := (pre ++ post)%list :: later]> (feeds w)) w)) as Hit1.
  { unfold iter_messages. by rewrite Hfeed. }
  destruct (scrape_channel w ch None false (since args) (until args)) as [w1 r1] eqn:E1.
  assert (r1 = Raise (FloodWaitError s)) as ->.
  { pose proof (f_equal snd E1) as H. simpl in H. rewrite <- H.
    rewrite scrape_channel_unfold, scrape_loop_end, Hit1. cbn [fst snd].
    change (today (with_feeds _ w)) with (today w).
    by rewrite scan_end_app. }
  assert (feeds w1 = <[ch := (pre ++ post)%list :: later]> (feeds w)) as Hfeeds1.
  { pose proof (f_equal fst E1) as H. simpl in H. rewrite <- H.
    rewrite scrape_channel_unfold, Hit1. cbn [fst snd].
    change (if false then load_seen_ids w ch else ∅) with (∅ : gset Z). fold san.
    by destruct (scrape_loop_spec san ∅ (since args) (until args)
                   (pre ++ [Fail (FloodWaitError s)]) 0
                   (with_feeds (<[ch := (pre ++ post)%list :: later]> (feeds w)) w))
      as (_ & -> & _). }
  set (w2 := sleep (Seconds (flood_seconds s + 1)) w1).
  assert (today w1 = today w) as Ht1.
  { destruct (scrape_channel_spec w ch None false (since args) (until args))
      as (_ & _ & T & _). cbv zeta in T. by rewrite E1 in T. }
  assert ((iter_messages w2 ch None).1 = (pre ++ post)%list) as Hit2.
  { unfold iter_messages. change (feeds w2) with (feeds w1).
    by rewrite Hfeeds1, lookup_insert_eq. }
  destruct (scrape_channel w2 ch None false (since args) (until args)) as [w3 r3] eqn:E3.
  assert (r3 = Ret (length batch + length tail)%nat) as ->.
  { pose proof (f_equal snd E3) as H. simpl in H. rewrite <- H.
    rewrite scrape_channel_unfold, scrape_loop_end, Hit2.
    destruct (iter_messages_frame w2 ch None) as (_ & -> & _).
    change (today w2) with (today w1). rewrite Ht1.
    rewrite scan_end_app, Hend by done. rewrite persisted_app, length_app by done.
    done. }
  destruct (scrape_one_rescan args ch w m s w1 w3
              (length batch + length tail)%nat) as (Hone & _ & Hfiles).
  { by rewrite Hinc, Hlim. }
  { by rewrite Hinc, Hlim. }
  rewrite Hone. split; [done|]. intros key. cbn [fst].
  rewrite Hfiles, lines_of_saves, Hinc, Hlim. fold w2. rewrite Hit1, Hit2. cbn [fst].
  rewrite !persisted_app by done. cbn [persisted]. rewrite app_nil_r.
  fold batch tail. unfold records. by rewrite !filter_app, !fmap_app.
Qed.

Lemma retry_duplicates_without_incremental_witness :
  lines_of (msg_files (scrape_one (args_for ["ch1"]) "ch1" world_retry
                         (manifest_of ["ch1"])).1) ("2025-06-10", "ch1")
  = [Saved (message_to_serializable (plain 4 (Some (Date 2025 6 10))));
     Saved (message_to_serializable (plain 4 (Some (Date 2025 6 10))))].
Proof.
  rewrite (proj2 (retry_duplicates_without_incremental (args_for ["ch1"]) "ch1"
                    world_retry (manifest_of ["ch1"]) (Some 5%Z)
                    [Yield (Some (plain 4 (Some (Date 2025 6 10))));
                     Yield (Some (plain 3 (Some (Date 2025 6 5))))]
                    [Yield (Some (plain 1 (Some (Date 2025 6 1))))] []
                    eq_refl eq_refl eq_refl eq_refl eq_refl) ("2025-06-10", "ch1")).
  vm_compute. reflexivity.
Defined.

Lemma rate_limited_source_scanned_again_witness :
  let first := scrape_channel world_retry "ch1" None false None None in
  let again := scrape_channel (sleep (Seconds 6) first.1) "ch1" None false None None in
  (scrape_one (args_for ["ch1"]) "ch1" world_retry (manifest_of ["ch1"])).2
  = Ret (set_result "ch1" {| processed := 3; status := "ok_after_wait" |}
           (manifest_of ["ch1"])).
Proof.
  intros first again.
  assert (first = (first.1, Raise (FloodWaitError (Some 5%Z)))) as H1.
  { eapply eq_trans; [apply surjective_pairing|]. f_equal; vm_compute; reflexivity. }
  assert (again = (again.1, Ret 3%nat)) as H2.
  { eapply eq_trans; [apply surjective_pairing|]. f_equal; vm_compute; reflexivity. }
  exact (f_equal snd
           (proj1 (rate_limited_source_scanned_again (args_for ["ch1"]) "ch1" world_retry
                     (manifest_of ["ch1"]) (Some 5%Z) first.1 again.1 3 H1 H2))).
Defined.

(** ** Where images are stored *)

Lemma all_chars_rev_app p a : ∀ b, all_chars p (String.rev_app a b) = all_chars p a && all_chars p b.
Proof.
  induction a as [|x a IH]; intros b; cbn [String.rev_app all_chars]; [done|].
  rewrite IH. cbn [all_chars]. destruct (p x), (all_chars p a); done.
Qed.

Lemma split_slash_pieces s :
  ∀ cur, all_chars not_slash cur = true →
         Forall (λ piece, all_chars not_slash piece = true) (PurePath.split_slash cur s).
Proof.
  induction s as [|c s IH]; intros cur Hcur; cbn [PurePath.split_slash].
  - constructor; [|constructor]. unfold String.rev. by rewrite all_chars_rev_app, Hcur.
  - destruct (decide (c = "/"%char)) as [->|Hne].
    + constructor; [|by apply IH]. unfold String.rev. by rewrite all_chars_rev_app, Hcur.
    + apply IH. cbn [all_chars]. rewrite Hcur, andb_true_r. unfold not_slash.
      by rewrite bool_decide_eq_false_2.
Qed.

Lemma name_no_slash s : all_chars not_slash (PurePath.name s) = true.
Proof.
  unfold PurePath.name.
  destruct (last _) as [piece|] eqn:E; [|done]. simpl.
  apply last_Some_elem_of in E. apply list_elem_of_filter in E as [_ E].
  pose proof (split_slash_pieces s "" eq_refl) as H. rewrite Forall_forall in H. by apply H.
Qed.

Lemma drop_str_chars p k : ∀ s, all_chars p s = true → all_chars p (PurePath.drop_str k s) = true.
Proof.
  induction k as [|k IH]; intros [|c s]; cbn [PurePath.drop_str all_chars]; try done.
  intros [_ ?]%andb_true_iff. by apply IH.
Qed.


Lemma suffix_no_slash s : all_chars not_slash (PurePath.suffix s) = true.
Proof.
  unfold PurePath.suffix. destruct (PurePath.suffix_start _); [|done].
  apply drop_str_chars, name_no_slash.
Qed.



Lemma str_nat_no_slash (i : nat) : all_chars not_slash (Text.str_nat i) = true.
Proof.
  unfold Text.str_nat, pretty, pretty_nat. apply pretty_N_chars.
  intros d Hd. by apply digit_not_slash, digit_chars.
Qed.


(** ** From a stored image back to its message *)

Lemma rfind_dot_none_chars n : PurePath.rfind_dot n = None → all_chars not_dot n = true.
Proof.
  induction n as [|c r IH]; cbn [PurePath.rfind_dot all_chars]; [done|].
  destruct (PurePath.rfind_dot r); [done|].
  destruct (decide (c = "."%char)) as [->|Hne]; [done|]. intros _.
  rewrite IH by done. unfold not_dot. by rewrite bool_decide_eq_false_2.
Qed.

Lemma rfind_dot_split n : ∀ i,
  PurePath.rfind_dot n = Some i →
  ∃ t, PurePath.drop_str i n = String "." t ∧ all_chars not_dot t = true
       ∧ String.length n = (i + 1 + String.length t)%nat.
Proof.
  induction n as [|c r IH]; intros i; cbn [PurePath.rfind_dot]; [done|].
  destruct (PurePath.rfind_dot r) as [j|] eqn:E.
  - intros [= <-]. destruct (IH j eq_refl) as (t & Ht & Hd & Hl).
    exists t. cbn [PurePath.drop_str String.length]. split_and!; [done | done | lia].
  - destruct (decide (c = "."%char)) as [->|Hne]; [|done]. intros [= <-].
    exists r. cbn [PurePath.drop_str String.length].
    split_and!; [done | by apply rfind_dot_none_chars | lia].
Qed.

(** A suffix is empty, or a dot followed by at least one character, none of
    them a dot or a slash. *)
Lemma suffix_shape s :
  PurePath.suffix s = ""
  ∨ ∃ t, PurePath.suffix s = String "." t ∧ t ≠ ""
         ∧ all_chars not_dot t = true ∧ all_chars not_slash t = true.
Proof.
  pose proof (suffix_no_slash s) as Hns. revert Hns.
  unfold PurePath.suffix, PurePath.suffix_start. cbv zeta.
  destruct (PurePath.rfind_dot (PurePath.name s)) as [i|] eqn:E; [|by left].
  destruct ((0 <? i)%nat && (i <? String.length (PurePath.name s) - 1)%nat) eqn:Hi;
    [|by left].
  intros Hns. right.
  apply rfind_dot_split in E as (t & Ht & Hd & Hl). exists t.
  rewrite Ht in Hns |- *. cbn [all_chars] in Hns.
  apply andb_true_iff in Hns as [_ Hns]. split_and!; try done.
  apply andb_true_iff in Hi as [_ Hi]. apply Nat.ltb_lt in Hi.
  intros ->. cbn [String.length] in Hl. lia.
Qed.

Lemma extension_shape msg :
  extension msg = ""
  ∨ ∃ t, extension msg = String "." t ∧ t ≠ ""
         ∧ all_chars not_dot t = true ∧ all_chars not_slash t = true.
Proof.
  assert (Hjpg : ∃ t, ".jpg" = String "." t ∧ t ≠ ""
                      ∧ all_chars not_dot t = true ∧ all_chars not_slash t = true)
    by by exists "jpg".
  unfold extension. destruct (orig_name msg) as [orig|]; [|by right].
  destruct (negb (bool_decide (orig = "")) && Text.contains_char "." orig);
    [apply suffix_shape | by right].
Qed.

(** The first number in [<name>_<id>_<rest>] is the id when the name holds
    no digit. *)
Lemma first_digit_run_id san (msg_id : Z) rest :
  (0 ≤ msg_id)%Z → all_chars not_digit san = true →
  Text.int_of_digits
    <$> Text.first_digit_run (san +:+ "_" +:+ Text.str_Z msg_id +:+ "_" +:+ rest)
  = Some msg_id.
Proof.
  intros Hid Hch. rewrite first_digit_run_skip by done.
  change ("_" +:+ Text.str_Z msg_id +:+ "_" +:+ rest)
    with (String "_" (Text.str_Z msg_id +:+ String "_" rest)).
  cbn [Text.first_digit_run]. change (Text.is_digit "_") with false. cbv iota.
  rewrite first_digit_run_digits;
    [|apply str_Z_nonempty|by apply str_Z_digits|done].
  cbn [fmap option_fmap option_map]. by rewrite int_of_str_Z.
Qed.

(** X17 ([telegram_scraper.py], [scrape_channel]; [yolo_enrich.py], [main]):
    the enrichment reads back, from the name under which the scraper stores
    an image, the id of the image's message, whether the name is the plain
    one or a numbered one chosen because the plain one was taken, provided
    the channel name is made of ASCII characters, its sanitized form holds
    no digit, the id is not negative and the extension is not empty. *)
Theorem stored_image_id_read_back existing channel msg d :
  let san := sanitize_filename channel in
  all_chars is_ascii channel = true →
  all_chars not_digit san = true →
  (0 ≤ m_id msg)%Z →
  extension msg ≠ "" →
  ∃ name,
    free_dest existing san (image_name san (m_id msg) (isoformat d) (extension msg))
      (extension msg) = Some (san, name)
    ∧ extract_message_id name = Some (m_id msg).
Proof.
  intros san _ Hch Hid Hext.
  destruct (extension_shape msg) as [? | (t & Ht & Hne & Hdot & Hsl)]; [done|].
  set (base := san +:+ "_" +:+ Text.str_Z (m_id msg) +:+ "_" +:+ isoformat d).
  assert (Hbase_sl : all_chars not_slash base = true).
  { unfold base, san.
    by rewrite !all_chars_app, sanitize_no_slash, str_Z_no_slash, isoformat_no_slash. }
  assert (Hname : image_name san (m_id msg) (isoformat d) (extension msg)
                  = base +:+ String "." t).
  { unfold image_name, base. by rewrite Ht, !app_assoc_str. }
  assert (Hstem : PurePath.stem (base +:+ String "." t) = base).
  { apply stem_of_name; try done.
    unfold base. destruct san; [done|]. by rewrite app_cons. }
  rewrite Hname.
  destruct (free_dest_spec existing san (base +:+ String "." t) (extension msg))
    as (dest & E & _ & Hplain & Hnum).
  destruct (decide ((san, base +:+ String "." t) ∈ existing)) as [Hin|Hout].
  - destruct (Hnum Hin) as (i & _ & -> & _). eexists. split; [exact E|].
    unfold extract_message_id. rewrite Hstem, Ht.
    replace (base +:+ "_" +:+ Text.str_nat i +:+ String "." t)
      with ((base +:+ "_" +:+ Text.str_nat i) +:+ String "." t)
      by by rewrite !app_assoc_str.
    rewrite stem_of_name; try done.
    + unfold base. rewrite !app_assoc_str. by apply first_digit_run_id.
    + by rewrite !all_chars_app, Hbase_sl, str_nat_no_slash.
    + unfold base. destruct san; [done|]. by rewrite app_cons.
  - rewrite (Hplain Hout) in E. eexists. split; [exact E|].
    unfold extract_message_id. rewrite Hstem. by apply first_digit_run_id.
Qed.

Lemma stored_image_id_read_back_witness :
  ∃ name,
    free_dest {[ ("news_x", "news_x_42_2025-06-01.jpg") ]} (sanitize_filename "news_x")
      (image_name (sanitize_filename "news_x") 42 (isoformat (Date 2025 6 1))
         (extension (photo 42 None)))
      (extension (photo 42 None))
    = Some (sanitize_filename "news_x", name)
    ∧ extract_message_id name = Some 42%Z.
Proof.
  apply (stored_image_id_read_back {[ ("news_x", "news_x_42_2025-06-01.jpg") ]}
           "news_x" (photo 42 None) (Date 2025 6 1)).
  - vm_compute. reflexivity.
  - vm_compute. reflexivity.
  - done.
  - discriminate.
Defined.

(** ** The enrichment run *)

Lemma channel_records_spec img_dir channel files rec :
  rec ∈ channel_records img_dir channel files ↔
  ∃ f dets,
    f ∈ files ∧ is_valid_image f = true
    ∧ img_yolo f = Some dets ∧ dets ≠ []
    ∧ rec = {| d_channel := channel;
               d_message_id := extract_message_id (img_name f);
               d_image_path := image_path img_dir channel (img_name f);
               d_detection := dets |}.
Proof.
  induction files as [|f rest IH]; cbn [channel_records].
  - split.
    + intros H. inversion H.
    + intros (f & dets & H & _). inversion H.
  - destruct (is_valid_image f) eqn:Hv; cbn [negb].
    + unfold run_yolo_on_image.
      destruct (img_yolo f) as [[|d ds]|] eqn:Hy.
      * rewrite IH. split.
        -- intros (g & dets & Hg & H). exists g, dets. split; [by right | exact H].
        -- intros (g & dets & Hg & Hgv & Hgy & Hne & ->).
           apply elem_of_cons in Hg as [-> | Hg].
           ++ congruence.
           ++ exists g, dets. done.
      * rewrite elem_of_cons, IH. split.
        -- intros [-> | (g & dets & Hg & H)].
           ++ exists f, (d :: ds). split_and!; try done. by left.
           ++ exists g, dets. split; [by right | exact H].
        -- intros (g & dets & Hg & Hgv & Hgy & Hne & ->).
           apply elem_of_cons in Hg as [-> | Hg].
           ++ left. congruence.
           ++ right. exists g, dets. done.
      * rewrite IH. split.
        -- intros (g & dets & Hg & H). exists g, dets. split; [by right | exact H].
        -- intros (g & dets & Hg & Hgv & Hgy & Hne & ->).
           apply elem_of_cons in Hg as [-> | Hg].
           ++ congruence.
           ++ exists g, dets. done.
    + rewrite IH. split.
      * intros (g & dets & Hg & H). exists g, dets. split; [by right | exact H].
      * intros (g & dets & Hg & Hgv & Hgy & Hne & ->).
        apply elem_of_cons in Hg as [-> | Hg].
        -- congruence.
        -- exists g, dets. done.
Qed.

Lemma is_valid_image_spec f :
  is_valid_image f = true ↔
  img_exists f = true ∧ (500 ≤ img_size f)%Z ∧ img_readable f = true.
Proof.
  unfold is_valid_image.
  destruct (img_exists f); cbn [negb].
  - destruct (Z.ltb_spec (img_size f) 500).
    + split; [done | intros (_ & ? & _); lia].
    + split; [intros ->; split_and!; [done | lia | done] | by intros (_ & _ & ->)].
  - split; [done | by intros (? & _)].
Qed.

(** X18 ([yolo_enrich.py], [main] and [is_valid_image]): the records of a
    run are exactly these: for every entry of a channel directory that
    exists, has at least 500 bytes, is decoded by OpenCV, and in which the
    model finds at least one object, one record with the directory's name as
    channel, the first run of digits of the file's stem as message id, the
    file's path and the detections.  Entries of the image directory that are
    not directories, smaller files, unreadable files, files the model fails
    on and files without detections give no record. *)
Theorem all_records_exactly img_dir entries rec :
  rec ∈ all_records img_dir entries ↔
  ∃ channel files f dets,
    ChannelDir channel files ∈ entries ∧ f ∈ files
    ∧ img_exists f = true ∧ (500 ≤ img_size f)%Z ∧ img_readable f = true
    ∧ img_yolo f = Some dets ∧ dets ≠ []
    ∧ rec = {| d_channel := channel;
               d_message_id := extract_message_id (img_name f);
               d_image_path := image_path img_dir channel (img_name f);
               d_detection := dets |}.
Proof.
  induction entries as [|e rest IH]; cbn [all_records].
  - split.
    + intros H. inversion H.
    + intros (c & fs & f & dets & H & _). inversion H.
  - destruct e as [n|n fs].
    + rewrite IH. split.
      * intros (c & gs & f & dets & H & Hrest).
        exists c, gs, f, dets. split; [by right | exact Hrest].
      * intros (c & gs & f & dets & H & Hrest).
        apply elem_of_cons in H as [H | H]; [discriminate|].
        exists c, gs, f, dets. done.
    + rewrite elem_of_app, IH, channel_records_spec. split.
      * intros [(f & dets & Hf & Hv & Hy & Hne & ->) | (c & gs & f & dets & H & Hrest)].
        -- apply is_valid_image_spec in Hv as (? & ? & ?).
           exists n, fs, f, dets. split_and!; try done. by left.
        -- exists c, gs, f, dets. split; [by right | exact Hrest].
      * intros (c & gs & f & dets & H & Hf & He & Hs & Hr & Hy & Hne & ->).
        apply elem_of_cons in H as [H | H].
        -- injection H as -> ->. left. exists f, dets. split_and!; try done.
           by apply is_valid_image_spec.
        -- right. exists c, gs, f, dets. done.
Qed.

Lemma conflicts_app t u rec :
  conflicts (t ++ u)%list rec = conflicts t rec || conflicts u rec.
Proof. unfold conflicts. apply existsb_app. Qed.

Lemma same_key_sym a b : same_key a b = same_key b a.
Proof.
  unfold same_key.
  rewrite (bool_decide_ext (d_channel a = d_channel b) (d_channel b = d_channel a)) by done.
  rewrite (bool_decide_ext (d_image_path a = d_image_path b)
             (d_image_path b = d_image_path a)) by done.
  destruct (d_message_id a), (d_message_id b); try done.
  f_equal. by apply bool_decide_ext.
Qed.

Lemma same_key_refl rec : no_id rec = false → same_key rec rec = true.
Proof.
  unfold no_id, same_key. destruct (d_message_id rec); [|done]. intros _.
  by rewrite !bool_decide_eq_true_2.
Qed.

Lemma same_key_no_id a b : no_id a = true → same_key a b = false.
Proof.
  unfold no_id, same_key. destruct (d_message_id a); [done|]. intros _.
  by rewrite andb_false_r.
Qed.

Lemma insert_detection_cases t rec t' :
  insert_detection t rec = Some t' →
  fits_column rec = true
  ∧ ((conflicts t rec = true ∧ t' = t)
     ∨ (conflicts t rec = false ∧ t' = (t ++ [rec])%list)).
Proof.
  unfold insert_detection, fits_column.
  destruct (match d_message_id rec with Some z => int4 z | None => true end); [|done].
  intros [= <-]. split; [done|].
  destruct (conflicts t rec); [by left | by right].
Qed.

Lemma insert_detection_fits t rec :
  fits_column rec = true →
  insert_detection t rec
  = Some (if conflicts t rec then t else (t ++ [rec])%list).
Proof. unfold insert_detection, fits_column. by intros ->. Qed.

Lemma insert_detection_overflow t rec :
  fits_column rec = false → insert_detection t rec = None.
Proof. unfold insert_detection, fits_column. by intros ->. Qed.

Lemma insert_detections_grows recs : ∀ t t',
  insert_detections t recs = Some t' →
  ∃ added, t' = (t ++ added)%list ∧ (∀ r, r ∈ added → r ∈ recs).
Proof.
  induction recs as [|rec rest IH]; intros t t'; cbn [insert_detections].
  - intros [= <-]. exists []. split; [by rewrite app_nil_r | intros r H; inversion H].
  - destruct (insert_detection t rec) as [t1|] eqn:E; [|done].
    intros H. apply IH in H as (added & -> & Hin).
    apply insert_detection_cases in E as (_ & [(_ & ->) | (_ & ->)]).
    + exists added. split; [done|]. intros r Hr. right. by apply Hin.
    + exists (rec :: added). split; [by rewrite <- app_assoc|].
      intros r [-> | Hr]%elem_of_cons; [by left | right; by apply Hin].
Qed.

Lemma insert_detections_fits recs : ∀ t,
  is_Some (insert_detections t recs) ↔ ∀ r, r ∈ recs → fits_column r = true.
Proof.
  induction recs as [|rec rest IH]; intros t; cbn [insert_detections].
  - split; [intros _ r H; inversion H | by eexists].
  - destruct (fits_column rec) eqn:Hf.
    + rewrite (insert_detection_fits _ _ Hf), IH. split.
      * intros H r [-> | Hr]%elem_of_cons; [done | by apply H].
      * intros H r Hr. apply H. by right.
    + rewrite (insert_detection_overflow _ _ Hf). split.
      * by intros [? ?].
      * intros H. rewrite H in Hf; [done | by left].
Qed.

Lemma insert_detections_conflicts recs : ∀ t t',
  insert_detections t recs = Some t' →
  ∀ r, r ∈ recs → no_id r = false → conflicts t' r = true.
Proof.
  induction recs as [|rec rest IH]; intros t t'; cbn [insert_detections].
  - intros _ r H. inversion H.
  - destruct (insert_detection t rec) as [t1|] eqn:E; [|done].
    intros H r [-> | Hr]%elem_of_cons Hid; [|by eapply IH].
    apply insert_detections_grows in H as (added & -> & _).
    rewrite conflicts_app. apply orb_true_iff. left.
    apply insert_detection_cases in E as (_ & [(Hc & ->) | (_ & ->)]); [done|].
    rewrite conflicts_app. apply orb_true_iff. right.
    unfold conflicts. cbn [existsb]. by rewrite same_key_refl.
Qed.

Lemma insert_detections_settled recs : ∀ t,
  (∀ r, r ∈ recs → fits_column r = true ∧ conflicts t r = true) →
  insert_detections t recs = Some t.
Proof.
  induction recs as [|rec rest IH]; intros t H; cbn [insert_detections]; [done|].
  destruct (H rec) as [Hf Hc]; [by left|].
  rewrite (insert_detection_fits _ _ Hf), Hc.
  apply IH. intros r Hr. apply H. by right.
Qed.

Lemma enrich_running img_dir st :
  database_up st = true → img_dir_listed st = true →
  enrich img_dir st
  = match insert_detections (detections_table st) (all_records img_dir (entries st)) with
    | Some table =>
        ({| database_up := database_up st; img_dir_listed := img_dir_listed st;
            entries := entries st; detections_table := table;
            detections_json := Some (all_records img_dir (entries st)) |},
         Some (length (all_records img_dir (entries st))))
    | None =>
        ({| database_up := database_up st; img_dir_listed := img_dir_listed st;
            entries := entries st; detections_table := detections_table st;
            detections_json := Some (all_records img_dir (entries st)) |}, None)
    end.
Proof. unfold enrich. by intros -> ->. Qed.

Lemma enrich_not_started img_dir st :
  database_up st = false ∨ img_dir_listed st = false → enrich img_dir st = (st, None).
Proof.
  unfold enrich. intros [-> | ->]; [done|]. by destruct (database_up st).
Qed.

Lemma enrich_started img_dir st n :
  (enrich img_dir st).2 = Some n → database_up st = true ∧ img_dir_listed st = true.
Proof.
  destruct (database_up st) eqn:Hdb, (img_dir_listed st) eqn:Hdir; try done;
    rewrite enrich_not_started by auto; done.
Qed.

(** X19 ([yolo_enrich.py], [main]): running the enrichment a second time
    over the same images changes nothing, provided the first run ended
    normally and every recorded image has a number in its name: the table
    and the JSON file are left as the first run left them and the same count
    is printed. *)
Theorem enrich_again_changes_nothing img_dir st n :
  (enrich img_dir st).2 = Some n →
  (∀ rec, rec ∈ all_records img_dir (entries st) → d_message_id rec ≠ None) →
  enrich img_dir (enrich img_dir st).1 = ((enrich img_dir st).1, Some n).
Proof.
  intros Hrun. destruct (enrich_started _ _ _ Hrun) as [Hdb Hdir]. revert Hrun.
  rewrite (enrich_running img_dir st) by done.
  destruct (insert_detections (detections_table st) (all_records img_dir (entries st)))
    as [t|] eqn:E; [|done].
  cbn [fst snd]. intros [= <-] Hid.
  rewrite enrich_running by done. cbn [entries detections_table].
  rewrite (insert_detections_settled _ t); [done|].
  intros r Hr. split.
  - eapply insert_detections_fits; [by eexists | done].
  - eapply insert_detections_conflicts; [exact E | done |].
    specialize (Hid r Hr). unfold no_id. by destruct (d_message_id r).
Qed.

Lemma enrich_again_changes_nothing_witness :
  let st := store_of ["news_17_2025-06-01.jpg"; "news_18_2025-06-01.jpg"] [] in
  enrich "images" (enrich "images" st).1 = ((enrich "images" st).1, Some 2%nat).
Proof.
  intros st.
  apply (enrich_again_changes_nothing "images" st 2).
  - vm_compute. reflexivity.
  - intros rec Hrec.
    apply all_records_exactly in Hrec
      as (c & fs & f & dets & Hc & Hf & _ & _ & _ & _ & _ & ->).
    cbn [d_message_id].
    apply elem_of_cons in Hc as [Hc | Hc]; [discriminate|].
    apply list_elem_of_singleton in Hc. injection Hc as -> ->.
    cbn [fmap list_fmap] in Hf.
    apply elem_of_cons in Hf as [-> | Hf]; [by vm_compute|].
    apply list_elem_of_singleton in Hf as ->. by vm_compute.
Defined.

Lemma unique_index_app t rec :
  unique_index (t ++ [rec])%list = unique_index t && negb (conflicts t rec).
Proof.
  induction t as [|a t IH]; cbn [unique_index app existsb].
  - unfold conflicts. cbn [existsb negb]. done.
  - rewrite IH, existsb_app. cbn [existsb]. rewrite orb_false_r.
    unfold conflicts. cbn [existsb]. rewrite (same_key_sym rec a).
    rewrite !negb_orb. 
    destruct (existsb (same_key a) t), (same_key a rec), (unique_index t),
      (existsb (same_key rec) t); done.
Qed.

Lemma insert_detections_unique recs : ∀ t t',
  unique_index t = true → insert_detections t recs = Some t' →
  unique_index t' = true.
Proof.
  induction recs as [|rec rest IH]; intros t t' Hu; cbn [insert_detections].
  - by intros [= <-].
  - destruct (insert_detection t rec) as [t1|] eqn:E; [|done].
    apply IH.
    apply insert_detection_cases in E as (_ & [(_ & ->) | (Hc & ->)]); [done|].
    by rewrite unique_index_app, Hu, Hc.
Qed.

(** X20 ([yolo_enrich.py], [main] and [ensure_table]): a run adds rows after
    the ones the table holds and changes or removes none; every added row is
    a record of this run; and a table in which no two rows share channel,
    message id and image path is still such a table after the run. *)
Theorem enrich_extends_table img_dir st :
  let st' := (enrich img_dir st).1 in
  (∃ added,
     detections_table st' = (detections_table st ++ added)%list
     ∧ ∀ r, r ∈ added → r ∈ all_records img_dir (entries st))
  ∧ (unique_index (detections_table st) = true →
     unique_index (detections_table st') = true).
Proof.
  cbv zeta.
  assert (Hsame : ∃ added : list Detected,
             detections_table st = (detections_table st ++ added)%list
             ∧ ∀ r, r ∈ added → r ∈ all_records img_dir (entries st)).
  { exists []. split; [by rewrite app_nil_r | intros r H; inversion H]. }
  destruct (database_up st) eqn:Hdb; [|by rewrite enrich_not_started by auto].
  destruct (img_dir_listed st) eqn:Hdir; [|by rewrite enrich_not_started by auto].
  rewrite enrich_running by done.
  destruct (insert_detections (detections_table st) (all_records img_dir (entries st)))
    as [t|] eqn:E; cbn [fst detections_table]; [|done].
  split.
  - by apply insert_detections_grows.
  - intros Hu. by eapply insert_detections_unique.
Qed.

Lemma enrich_extends_table_witness :
  unique_index
    (detections_table
       (enrich "images"
          (store_of ["news_17_2025-06-01.jpg"; "news_17_2025-06-01_1.jpg"; "photo.jpg"]
             [])).1) = true.
Proof.
  apply (proj2 (enrich_extends_table "images"
                  (store_of ["news_17_2025-06-01.jpg"; "news_17_2025-06-01_1.jpg";
                             "photo.jpg"] []))).
  vm_compute. reflexivity.
Defined.

Lemma filter_no_id_insert recs : ∀ t t',
  insert_detections t recs = Some t' →
  length (List.filter no_id t')
  = (length (List.filter no_id t) + length (List.filter no_id recs))%nat.
Proof.
  induction recs as [|rec rest IH]; intros t t'; cbn [insert_detections].
  - intros [= <-]. cbn. lia.
  - destruct (insert_detection t rec) as [t1|] eqn:E; [|done].
    intros H. rewrite (IH _ _ H). cbn [List.filter].
    apply insert_detection_cases in E as (_ & [(Hc & ->) | (Hc & ->)]).
    + destruct (no_id rec) eqn:Hn; [|lia].
      unfold conflicts in Hc. apply existsb_exists in Hc as (x & _ & Hx).
      by rewrite (same_key_no_id _ _ Hn) in Hx.
    + rewrite List.filter_app, length_app. cbn [List.filter].
      destruct (no_id rec); cbn [length]; lia.
Qed.

(** X21 ([yolo_enrich.py], [main]): the conflict rule never applies to an
    image whose name holds no digit.  After a run that ends normally the
    table holds, among its rows without a message id, all those it held
    before and one more for every such record of the run: run again, the
    same images are inserted again. *)
Theorem images_without_number_inserted_every_run img_dir st n :
  (enrich img_dir st).2 = Some n →
  length (List.filter no_id (detections_table (enrich img_dir st).1))
  = (length (List.filter no_id (detections_table st))
     + length (List.filter no_id (all_records img_dir (entries st))))%nat.
Proof.
  intros Hrun. destruct (enrich_started _ _ _ Hrun) as [Hdb Hdir]. revert Hrun.
  rewrite enrich_running by done.
  destruct (insert_detections (detections_table st) (all_records img_dir (entries st)))
    as [t|] eqn:E; [|done].
  cbn [fst snd detections_table]. intros _. by apply filter_no_id_insert.
Qed.

Lemma images_without_number_inserted_every_run_witness :
  let st := store_of ["photo.jpg"] [] in
  let st1 := (enrich "images" st).1 in
  length (List.filter no_id (detections_table (enrich "images" st1).1)) = 2%nat.
Proof.
  intros st st1.
  rewrite (images_without_number_inserted_every_run "images" st1 1)
    by (vm_compute; reflexivity).
  vm_compute. reflexivity.
Defined.

(** X22 ([yolo_enrich.py], [main], [get_conn] and [ensure_table]): when the
    database cannot be reached or set up, or the image directory cannot be
    listed, the run ends by an exception and has written nothing.  Past
    these steps, a recorded image whose name gives a number that does not
    fit the [INT] column [message_id] makes the run end by an exception:
    no row of the run is committed and the table is as it was, while the
    JSON file already lists all the records of the run.  When every number
    fits, the run prints the number of its records. *)
Theorem enrich_fails_on_oversized_number img_dir st :
  let records := all_records img_dir (entries st) in
  let overflow := ∃ rec z, rec ∈ records ∧ d_message_id rec = Some z ∧ int4 z = false in
  (database_up st = false ∨ img_dir_listed st = false → enrich img_dir st = (st, None))
  ∧ (database_up st = true → img_dir_listed st = true → overflow →
     enrich img_dir st
     = ({| database_up := true; img_dir_listed := true; entries := entries st;
           detections_table := detections_table st;
           detections_json := Some records |}, None))
  ∧ (database_up st = true → img_dir_listed st = true → ¬ overflow →
     (enrich img_dir st).2 = Some (length records)
     ∧ detections_json (enrich img_dir st).1 = Some records).
Proof.
  cbv zeta. split; [apply enrich_not_started|].
  split; intros Hdb Hdir; rewrite enrich_running by done; rewrite Hdb, Hdir;
    destruct (insert_detections (detections_table st) (all_records img_dir (entries st)))
      as [t|] eqn:E; try done.
  - intros (rec & z & Hrec & Hz & Hov). exfalso.
    assert (Hs : is_Some (insert_detections (detections_table st)
                            (all_records img_dir (entries st)))) by by eexists.
    apply insert_detections_fits with (r := rec) in Hs; [|done].
    unfold fits_column in Hs. rewrite Hz in Hs. congruence.
  - intros Hno. exfalso.
    assert (Hs : is_Some (insert_detections (detections_table st)
                            (all_records img_dir (entries st)))).
    { apply insert_detections_fits. intros r Hr.
      unfold fits_column. destruct (d_message_id r) as [z|] eqn:Hz; [|done].
      destruct (int4 z) eqn:Hi; [done|].
      destruct Hno. by exists r, z. }
    rewrite E in Hs. by destruct Hs.
Qed.

Lemma enrich_fails_on_oversized_number_witness :
  let st := store_of ["news_17_2025-06-01.jpg"; "20250601123456.jpg"] [] in
  (enrich "images" st).2 = None ∧ detections_table (enrich "images" st).1 = [].
Proof.
  intros st.
  rewrite (proj1 (proj2 (enrich_fails_on_oversized_number "images" st)));
    [done | reflexivity | reflexivity |].
  destruct (all_records "images" (entries st) !! 1%nat) as [rec|] eqn:E;
    vm_compute in E; [|discriminate].
  injection E as <-.
  eexists _, 20250601123456%Z. split_and!.
  - apply list_elem_of_lookup. exists 1%nat. vm_compute. reflexivity.
  - vm_compute. reflexivity.
  - vm_compute. reflexivity.
Defined.

(** ** Scanning a feed a second time *)

Lemma feed_ids_cap n : ∀ events z,
  z ∈ feed_ids (cap_feed n events) → z ∈ feed_ids events.
Proof.
  induction n as [|n IH]; intros events z.
  - destruct events; intros H; inversion H.
  - destruct events as [|[[msg|]|e] rest]; cbn [cap_feed feed_ids omap list_omap].
    + done.
    + rewrite !elem_of_cons. intros [-> | H]; [by left | right; by apply IH].
    + apply IH.
    + intros H. inversion H.
Qed.

Lemma feed_ids_cap_NoDup n : ∀ events,
  NoDup (feed_ids events) → NoDup (feed_ids (cap_feed n events)).
Proof.
  induction n as [|n IH]; intros events.
  - destruct events; intros _; apply NoDup_nil_2.
  - destruct events as [|[[msg|]|e] rest]; cbn [cap_feed feed_ids omap list_omap].
    + done.
    + rewrite !NoDup_cons. intros [Hout Hnd]. split; [|by apply IH].
      intros Hin. apply Hout. by eapply feed_ids_cap.
    + apply IH.
    + intros _. apply NoDup_nil_2.
Qed.

Lemma persisted_feed_ids seen since until td events m :
  m ∈ persisted seen since until td events → m_id m ∈ feed_ids events.
Proof.
  induction events as [|[[msg|]|e] rest IH]; cbn [persisted feed_ids omap list_omap].
  - intros H. inversion H.
  - destruct (decide (m_id msg ∈ seen)); [intros; right; by apply IH|].
    destruct (before_since since _); [intros H; inversion H|].
    destruct (at_or_after_until until _); [intros; right; by apply IH|].
    intros [-> | H]%elem_of_cons; [by left | right; by apply IH].
  - done.
  - intros H. inversion H.
Qed.

(** With the ids of what a scan has saved added to the index, a scan of the
    same feed saves nothing and ends as the first did. *)
Lemma persisted_again since until td events : ∀ seen seen' : gset Z,
  NoDup (feed_ids events) →
  (∀ z, z ∈ feed_ids events →
        z ∈ seen' ↔ z ∈ seen ∨ z ∈ (m_id <$> persisted seen since until td events)) →
  persisted seen' since until td events = []
  ∧ (scan_end seen since td events = None → scan_end seen' since td events = None).
Proof.
  induction events as [|[[msg|]|e] rest IH]; intros seen seen'; [done| | |done].
  - change (feed_ids (Yield (Some msg) :: rest)) with (m_id msg :: feed_ids rest).
    cbn [persisted scan_end].
    rewrite NoDup_cons. intros [Hout Hnd] Hseen.
    assert (Hrest : ∀ m, m ∈ persisted seen since until td rest → m_id m ≠ m_id msg).
    { intros m Hm Heq. apply Hout. rewrite <- Heq. by eapply persisted_feed_ids. }
    destruct (decide (m_id msg ∈ seen)) as [Hin|Hnot].
    + rewrite !decide_True by (apply Hseen; [by left | by left]).
      apply IH; [done|]. intros z Hz. apply Hseen. by right.
    + destruct (before_since since (default td (m_date msg))) eqn:Hb.
      * assert (m_id msg ∉ seen') as Hnot'.
        { intros Hin. apply Hseen in Hin as [? | Hin]; [done | | by left].
          inversion Hin. }
        by rewrite !decide_False by done.
      * destruct (at_or_after_until until (default td (m_date msg))) eqn:Hu.
        -- assert (m_id msg ∉ seen') as Hnot'.
           { intros Hin. apply Hseen in Hin as [? | Hin]; [done | | by left].
             apply list_elem_of_fmap in Hin as (m & Hid & Hm). by apply (Hrest m). }
           rewrite !decide_False by done.
           apply IH; [done|]. intros z Hz. apply Hseen. by right.
        -- rewrite !decide_True
             by (apply Hseen; [by left | right; rewrite fmap_cons; by left]).
           apply IH; [done|]. intros z Hz. rewrite (Hseen z) by by right.
           rewrite fmap_cons, elem_of_cons.
           assert (z ≠ m_id msg) by (intros ->; done). tauto.
  - change (feed_ids (Yield None :: rest)) with (feed_ids rest).
    cbn [persisted scan_end]. apply IH.
Qed.

Lemma scrape_loop_nothing sanitized seen since until events :
  ∀ count w,
    persisted seen since until (today w) events = [] →
    img_files (scrape_loop sanitized seen since until events count w).1 = img_files w
    ∧ downloads (scrape_loop sanitized seen since until events count w).1 = downloads w.
Proof.
  induction events as [|[[msg|]|e] rest IH]; intros count w; cbn [persisted];
    [done| |by apply IH|done].
  destruct (decide (m_id msg ∈ seen)) as [Hin|Hout].
  { rewrite scrape_loop_seen by done. apply IH. }
  fold (message_day w msg).
  destruct (before_since since (message_day w msg)) eqn:Hb.
  { by rewrite scrape_loop_halt. }
  destruct (at_or_after_until until (message_day w msg)) eqn:Hu; [|done].
  rewrite scrape_loop_until by done. apply IH.
Qed.

Lemma load_seen_ids_saves w channel td msgs files z :
  msg_files w = foldl (save (sanitize_filename channel) td) files msgs →
  z ∈ load_seen_ids w channel
  ↔ (∃ d l, l ∈ lines_of files (d, sanitize_filename channel) ∧ line_id l = Some z)
    ∨ z ∈ (m_id <$> msgs).
Proof.
  intros E. rewrite elem_of_load_seen_ids, E. split.
  - intros (d & l & Hl & Hz). rewrite lines_of_saves, elem_of_app in Hl.
    destruct Hl as [Hl | Hl]; [left; by exists d, l|]. right.
    apply list_elem_of_fmap in Hl as (m & -> & Hm).
    apply list_elem_of_filter in Hm as [_ Hm].
    cbn in Hz. injection Hz as <-. apply list_elem_of_fmap. by exists m.
  - intros [(d & l & Hl & Hz) | Hz].
    + exists d, l. split; [|done]. rewrite lines_of_saves, elem_of_app. by left.
    + apply list_elem_of_fmap in Hz as (m & -> & Hm).
      exists (partition_of td (sanitize_filename channel) m).1,
             (Saved (message_to_serializable m)).
      split; [|done]. rewrite lines_of_saves, elem_of_app. right.
      apply list_elem_of_fmap. exists m. split; [done|].
      apply list_elem_of_filter. split; [|done]. reflexivity.
Qed.

Lemma scraper_written_saves sanitized td msgs :
  ∀ files, scraper_written files → scraper_written (foldl (save sanitized td) files msgs).
Proof.
  induction msgs as [|m msgs IH]; intros files Hw; cbn [foldl]; [done|].
  apply IH. by apply written_record.
Qed.

(** X23 ([telegram_scraper.py], [scrape_channel] and [load_seen_ids]): an
    incremental scan that has returned leaves nothing to do for the next
    one.  For logs that are the scraper's own work (whole lines, each ended
    by a newline), when the provider serves the same feed again, in which no
    two messages share an id, a second incremental scan with the same limit
    and dates returns 0, appends nothing to the logs and downloads
    nothing; the logs are still the scraper's own work. *)
Theorem incremental_rescan_saves_nothing w channel limit since until session later c :
  let r1 := scrape_channel w channel limit true since until in
  let r2 := scrape_channel r1.1 channel limit true since until in
  scraper_written (msg_files w) →
  feeds w !! channel = Some (session :: session :: later) →
  NoDup (feed_ids session) →
  r1.2 = Ret c →
  r2.2 = Ret 0%nat
  ∧ msg_files r2.1 = msg_files r1.1
  ∧ img_files r2.1 = img_files r1.1
  ∧ downloads r2.1 = downloads r1.1
  ∧ scraper_written (msg_files r2.1).
Proof.
  intros r1 r2 Hw Hfeed Hnd Hret.
  set (san := sanitize_filename channel).
  set (events := limited limit session).
  assert (Hi1 : iter_messages w channel limit
                = (events, with_feeds (<[channel := session :: later]> (feeds w)) w)).
  { unfold iter_messages. by rewrite Hfeed. }
  assert (Hr1 : r1 = scrape_loop san (load_seen_ids w channel) since until events 0
                       (with_feeds (<[channel := session :: later]> (feeds w)) w)).
  { unfold r1. by rewrite scrape_channel_unfold, Hi1. }
  set (w0 := with_feeds (<[channel := session :: later]> (feeds w)) w) in *.
  destruct (scrape_loop_spec san (load_seen_ids w channel) since until events 0 w0)
    as (F1 & F2 & _ & F4 & _).
  rewrite <- Hr1 in F1, F2, F4.
  change (today w0) with (today w) in F1, F4. change (msg_files w0) with (msg_files w) in F1.
  change (feeds w0) with (<[channel := session :: later]> (feeds w)) in F2.
  assert (Hend : scan_end (load_seen_ids w channel) since (today w) events = None).
  { pose proof (scrape_loop_end san (load_seen_ids w channel) since until events 0 w0) as E.
    rewrite <- Hr1, Hret in E. change (today w0) with (today w) in E.
    by destruct (scan_end _ _ _ _). }
  assert (Hi2 : iter_messages r1.1 channel limit
                = (events, with_feeds (<[channel := later]> (feeds r1.1)) r1.1)).
  { unfold iter_messages. by rewrite F2, lookup_insert_eq. }
  assert (Hnd' : NoDup (feed_ids events)).
  { unfold events. destruct limit as [n|]; [by apply feed_ids_cap_NoDup | done]. }
  destruct (persisted_again since until (today w) events (load_seen_ids w channel)
              (load_seen_ids r1.1 channel) Hnd') as [Hnone Hsame].
  { intros z _. rewrite (load_seen_ids_saves r1.1 channel (today w) _ _ z F1).
    by rewrite <- elem_of_load_seen_ids. }
  set (w2 := with_feeds (<[channel := later]> (feeds r1.1)) r1.1) in *.
  assert (Hr2 : r2 = scrape_loop san (load_seen_ids r1.1 channel) since until events 0 w2).
  { unfold r2. by rewrite scrape_channel_unfold, Hi2. }
  assert (Htd : today w2 = today w) by exact F4.
  pose proof (scrape_loop_end san (load_seen_ids r1.1 channel) since until events 0 w2) as E.
  destruct (scrape_loop_spec san (load_seen_ids r1.1 channel) since until events 0 w2)
    as (G1 & _).
  destruct (scrape_loop_nothing san (load_seen_ids r1.1 channel) since until events 0 w2)
    as (G2 & G3); [by rewrite Htd|].
  rewrite <- Hr2 in E, G1, G2, G3. rewrite Htd in E, G1.
  rewrite Hnone in E, G1. rewrite (Hsame Hend) in E.
  split_and!; try done.
  rewrite G1. cbn [foldl]. change (msg_files w2) with (msg_files r1.1).
  rewrite F1. by apply scraper_written_saves.
Qed.

Lemma incremental_rescan_saves_nothing_witness :
  let w := world_of ∅ "ch1" [feed_B; feed_B] [] in
  let since := Some (Date 2025 6 1) in
  let r1 := scrape_channel w "ch1" None true since None in
  let r2 := scrape_channel r1.1 "ch1" None true since None in
  r1.2 = Ret 2%nat ∧ r2.2 = Ret 0%nat.
Proof.
  intros w since r1 r2.
  assert (H1 : r1.2 = Ret 2%nat) by (vm_compute; reflexivity).
  split; [exact H1|].
  refine (proj1 (incremental_rescan_saves_nothing w "ch1" None since None feed_B [] 2
                   _ _ _ H1)).
  - apply written_nothing.
  - apply lookup_singleton_eq.
  - apply (bool_decide_unpack _). vm_compute. reflexivity.
Defined.
